(** * Space-traffic dashboard backend: a shallow embedding and its properties

    The development follows the three Python sources of the backend:
    - [conj.py]: the ECEF distance and the all-pairs proximity screen;
    - [main.py]: the shared catalog [tracked], the regional sweep
      ([tracker_loop]), the manual load ([load_all_satellites]), the
      per-object refresh ([positions_loop]), the snapshot payload
      ([api_snapshot], [broadcast_snapshot]), [health] and the demo
      generator ([_ensure_demo_catalog], [_demo_step], [demo_loop]);
    - [n2yo_client.py]: only as the origin of the JSON values the loops consume.

    Python objects are values of [pyval]; Python floats are IEEE binary64
    numbers ([float], the kernel's primitive floats); exceptions are explicit
    results ([res]); the catalog is a store of dictionary objects addressed by
    reference, because [list(tracked.values())] shares them with its reader. *)

From Stdlib Require Import ZArith Floats Lia Ascii String.
From stdpp Require Import gmap strings list pretty.

Open Scope Z_scope.

(** ** Part I. The embedding *)

(** *** Exceptions and results *)

Inductive exn :=
| KeyError | TypeError | ValueError | OverflowError | AttributeError | IndexError
| ZeroDivisionError.

Inductive res (A : Type) :=
| Ok (a : A)
| Raise (e : exn).
Arguments Ok {A} a.
Arguments Raise {A} e.

#[global] Instance res_ret : MRet res := fun A a => Ok a.
#[global] Instance res_bind : MBind res := fun A B k m =>
  match m with
  | Ok a => k a
  | Raise e => Raise e
  end.

Definition is_ok {A} (r : res A) : bool :=
  match r with Ok _ => true | Raise _ => false end.

(** *** Python values

    The values that [resp.json()] can produce, which are also the values the
    catalog entries hold. *)

#[warnings="-register-all"]
Inductive pyval :=
| PNone
| PBool (b : bool)
| PInt (z : Z)
| PFloat (f : float)
| PStr (s : string)
| PList (l : list pyval)
| PDict (d : gmap string pyval).

Abbreviation dict := (gmap string pyval).

(** *** IEEE binary64 through its specification *)

Definition sf_is_nan (x : spec_float) : bool :=
  match x with S754_nan => true | _ => false end.

Definition sf_is_inf (x : spec_float) : bool :=
  match x with S754_infinity _ => true | _ => false end.

Definition sf_is_finite (x : spec_float) : bool :=
  match x with S754_zero _ | S754_finite _ _ _ => true | _ => false end.

Definition f_isnan (x : float) : bool := sf_is_nan (Prim2SF x).
Definition f_isinf (x : float) : bool := sf_is_inf (Prim2SF x).
Definition f_isfinite (x : float) : bool := sf_is_finite (Prim2SF x).

(** The double nearest to an integer (ties to even). *)
Definition round_Z (z : Z) : float := SF2Prim (binary_normalize prec emax z 0 false).

(** [PyLong_AsDouble]: round to nearest even, [OverflowError] past the range. *)
Definition float_of_Z (z : Z) : res float :=
  if f_isinf (round_Z z) then Raise OverflowError else Ok (round_Z z).

(** [int(x)] on a float: truncation towards zero. *)
Definition Z_of_float (f : float) : res Z :=
  match Prim2SF f with
  | S754_nan => Raise ValueError
  | S754_infinity _ => Raise OverflowError
  | S754_zero _ => Ok 0
  | S754_finite s m e => Ok (cond_Zopp s (Z.shiftl (Zpos m) e))
  end.

(** *** What the interpreter and libm provide

    The C library's [sin], [cos], [pow] and [fmod], and the parsers behind
    [float(str)] and [int(str)], are not part of the repository: they are
    taken as given functions. *)

Record runtime := {
  libm_sin : float -> float;
  libm_cos : float -> float;
  libm_pow : float -> float -> float;
  libm_fmod : float -> float -> float;
  float_of_string : string -> option float;
  int_of_string : string -> option Z;
}.

(** *** Builtins *)

Definition is_None (v : pyval) : bool :=
  match v with PNone => true | _ => false end.

(** [bool(v)]. *)
Definition py_truthy (v : pyval) : bool :=
  match v with
  | PNone => false
  | PBool b => b
  | PInt z => negb (z =? 0)
  | PFloat f => negb (f =? 0)%float
  | PStr s => negb (String.eqb s "")
  | PList l => match l with [] => false | _ => true end
  | PDict d => negb (bool_decide (d = ∅))
  end.

(** [v == s] for a string literal [s]. *)
Definition py_eq_str (v : pyval) (s : string) : bool :=
  match v with PStr s' => String.eqb s' s | _ => false end.

(** [d.get(k)] on a dictionary object. *)
Definition dict_get (d : dict) (k : string) : pyval := default PNone (d !! k).

(** [d.get(k, dflt)]. *)
Definition dict_get_or (d : dict) (k : string) (dflt : pyval) : pyval :=
  default dflt (d !! k).

(** [d[k]] on a dictionary object. *)
Definition dict_getitem (d : dict) (k : string) : res pyval :=
  match d !! k with
  | Some v => Ok v
  | None => Raise KeyError
  end.

(** [v[k]] with a string key, on any value. *)
Definition py_getitem (v : pyval) (k : string) : res pyval :=
  match v with
  | PDict d => dict_getitem d k
  | _ => Raise TypeError
  end.

(** [v.get(k, dflt)] on any value: only dictionaries have the method. *)
Definition py_get_or (v : pyval) (k : string) (dflt : pyval) : res pyval :=
  match v with
  | PDict d => Ok (dict_get_or d k dflt)
  | _ => Raise AttributeError
  end.

Definition py_get (v : pyval) (k : string) : res pyval := py_get_or v k PNone.

Fixpoint string_chars (s : string) : list pyval :=
  match s with
  | EmptyString => []
  | String c s' => PStr (String c EmptyString) :: string_chars s'
  end.

(** [for item in v]: the items a [for] loop visits. A dictionary yields its
    keys; their order plays no role below, the first one already fails the
    subscript that follows. *)
Definition py_iter (v : pyval) : res (list pyval) :=
  match v with
  | PList l => Ok l
  | PStr s => Ok (string_chars s)
  | PDict d => Ok (PStr <$> (map_to_list d).*1)
  | _ => Raise TypeError
  end.

(** [v[0]]. *)
Definition py_index0 (v : pyval) : res pyval :=
  match v with
  | PList (x :: _) => Ok x
  | PList [] => Raise IndexError
  | PStr (String c _) => Ok (PStr (String c EmptyString))
  | PStr EmptyString => Raise IndexError
  | PDict _ => Raise KeyError
  | _ => Raise TypeError
  end.

(** [PyFloat_AsDouble]: the conversion float arithmetic and the [math]
    functions apply to a numeric argument. *)
Definition py_as_double (v : pyval) : res float :=
  match v with
  | PFloat f => Ok f
  | PInt z => float_of_Z z
  | PBool b => Ok (if b then 1 else 0)%float
  | _ => Raise TypeError
  end.

Section Builtins.
Variable rt : runtime.

(** [float(v)]. *)
Definition py_float (v : pyval) : res float :=
  match v with
  | PFloat f => Ok f
  | PInt z => float_of_Z z
  | PBool b => Ok (if b then 1 else 0)%float
  | PStr s =>
      match float_of_string rt s with
      | Some f => Ok f
      | None => Raise ValueError
      end
  | _ => Raise TypeError
  end.

(** [int(v)]. *)
Definition py_int (v : pyval) : res Z :=
  match v with
  | PInt z => Ok z
  | PBool b => Ok (if b then 1 else 0)
  | PFloat f => Z_of_float f
  | PStr s =>
      match int_of_string rt s with
      | Some z => Ok z
      | None => Raise ValueError
      end
  | _ => Raise TypeError
  end.

End Builtins.

(** [s.lower()], on ASCII letters. *)
Definition ascii_lower (c : ascii) : ascii :=
  let n := nat_of_ascii c in
  if ((65 <=? n)%nat && (n <=? 90)%nat)%bool then ascii_of_nat (n + 32) else c.

Fixpoint str_lower (s : string) : string :=
  match s with
  | EmptyString => EmptyString
  | String c s' => String (ascii_lower c) (str_lower s')
  end.

(** [needle in hay] for strings. *)
Fixpoint str_contains (needle hay : string) : bool :=
  match hay with
  | EmptyString => String.eqb needle ""
  | String _ hay' => (String.prefix needle hay || str_contains needle hay')%bool
  end.

(** *** The [math] module *)

(** [Py_MATH_PI]. *)
Definition math_pi : float := 0x1.921fb54442d18p+1%float.

(** [math.radians(x)]: [x * (pi / 180.0)] on the argument as a double. *)
Definition math_radians (v : pyval) : res float :=
  x ← py_as_double v;
  Ok (x * (math_pi / 180))%float.

(** CPython's [math_1] wrapper around a libm function that cannot overflow
    ([sin], [cos], [sqrt]): a NaN result of a non-NaN argument, or an infinite
    result of a finite argument, is a [ValueError]. The wrapper's last test,
    on [errno] with a finite result, is left out: none of the three functions
    sets it there. *)
Definition math_1 (func : float -> float) (x : float) : res float :=
  let r := func x in
  if (f_isnan r && negb (f_isnan x))%bool then Raise ValueError
  else if (f_isinf r && f_isfinite x)%bool then Raise ValueError
  else Ok r.

Definition math_sqrt (x : float) : res float := math_1 PrimFloat.sqrt x.

(** *** conj.py *)

Section Conj.
Variable rt : runtime.

Definition math_cos (x : float) : res float := math_1 (libm_cos rt) x.
Definition math_sin (x : float) : res float := math_1 (libm_sin rt) x.

(** [v ** 2] on a float (CPython's [float_pow] with the exponent [2.0]): NaN,
    the infinities, zero and one are answered without libm; otherwise the
    result is libm's [pow(|v|, 2.0)], and an infinite one is an
    [OverflowError]. ([pow] is not the IEEE product: the two differ in the
    last bit now and then.) *)
Definition py_pow2 (v : float) : res float :=
  if f_isnan v then Ok v
  else if f_isinf v then Ok (abs v)
  else if (v =? 0)%float then Ok 0%float
  else
    let a := abs v in
    if (a =? 1)%float then Ok 1%float
    else
      let r := libm_pow rt a 2 in
      if f_isinf r then Raise OverflowError else Ok r.

(** Mean Earth radius in km, the local [R] of [euclidean_km_from_latlonalt]. *)
Definition R_earth : float := 6371%float.

(** The inner function [to_ecef(lat, lon, alt_km)]. *)
Definition to_ecef (lat lon alt_km : pyval) : res (float * float * float) :=
  phi ← math_radians lat;
  lam ← math_radians lon;
  alt ← py_as_double alt_km;
  let r := (R_earth + alt)%float in
  cphi ← math_cos phi;
  clam ← math_cos lam;
  let x := (r * cphi * clam)%float in
  cphi' ← math_cos phi;
  slam ← math_sin lam;
  let y := (r * cphi' * slam)%float in
  sphi ← math_sin phi;
  let z := (r * sphi)%float in
  Ok (x, y, z).

Definition euclidean_km_from_latlonalt
    (lat1 lon1 alt1_km lat2 lon2 alt2_km : pyval) : res float :=
  '(x1, y1, z1) ← to_ecef lat1 lon1 alt1_km;
  '(x2, y2, z2) ← to_ecef lat2 lon2 alt2_km;
  dx ← py_pow2 (x1 - x2);
  dy ← py_pow2 (y1 - y2);
  dz ← py_pow2 (z1 - z2);
  math_sqrt (dx + dy + dz).

(** A geodetic point the conversion accepts: numeric coordinates whose ECEF
    image is finite. *)
Definition valid_point (lat lon alt_km : pyval) : bool :=
  match to_ecef lat lon alt_km with
  | Ok (x, y, z) => (f_isfinite x && f_isfinite y && f_isfinite z)%bool
  | Raise _ => false
  end.

(** The guard of both loops: [s.get('satlat') is None or s.get('satlng') is None]. *)
Definition coords_absent (s : dict) : bool :=
  (is_None (dict_get s "satlat") || is_None (dict_get s "satlng"))%bool.

(** The call of [euclidean_km_from_latlonalt] in the inner loop, with its
    arguments evaluated left to right. The screen only reads its objects, so
    it is given their contents. *)
Definition pair_distance (a b : dict) : res float :=
  lat1 ← dict_getitem a "satlat";
  lon1 ← dict_getitem a "satlng";
  alt1 ← py_float rt (dict_get_or a "satalt" (PFloat 0));
  lat2 ← dict_getitem b "satlat";
  lon2 ← dict_getitem b "satlng";
  alt2 ← py_float rt (dict_get_or b "satalt" (PFloat 0));
  euclidean_km_from_latlonalt lat1 lon1 (PFloat alt1) lat2 lon2 (PFloat alt2).

Definition pair_t : Type := dict * dict * float.

(** The inner loop [for j in range(i + 1, n)] for a fixed [a = sat_list[i]],
    over the objects after it; [pairs] is the list being appended to. *)
Fixpoint scan_from (a : dict) (later : list dict) (threshold_km : float)
    (pairs : list pair_t) : res (list pair_t) :=
  match later with
  | [] => Ok pairs
  | b :: later' =>
      if coords_absent b then scan_from a later' threshold_km pairs
      else
        d ← pair_distance a b;
        scan_from a later' threshold_km
          (if (d <=? threshold_km)%float then pairs ++ [(a, b, d)] else pairs)
  end.

(** The outer loop [for i in range(n)]. *)
Fixpoint scan_all (sat_list : list dict) (threshold_km : float)
    (pairs : list pair_t) : res (list pair_t) :=
  match sat_list with
  | [] => Ok pairs
  | a :: later =>
      if coords_absent a then scan_all later threshold_km pairs
      else
        pairs' ← scan_from a later threshold_km pairs;
        scan_all later threshold_km pairs'
  end.

Definition find_close_pairs (sat_list : list dict) (threshold_km : float)
    : res (list pair_t) :=
  scan_all sat_list threshold_km [].

End Conj.

(** *** main.py: configuration *)

Definition POSITIONS_SECONDS : Z := 60.
Definition LEO_MAX_ALT : float := 2000%float.
Definition GEO_CATEGORY : Z := 10.
Definition PROXIMITY_THRESHOLD_KM : float := 5%float.
Definition MAX_PARALLEL_REQUESTS : nat := 4.

Definition seed : Type := float * float.

Definition ABOVE_SEEDS : list seed :=
  [ (0, 0); (0, 120); (0, 240); (45, 60); (45, 180); (45, 300) ]%float.

(** *** main.py: the shared state

    [tracked: Dict[int, dict]] maps an id to a dictionary object. The objects
    live in [heap] and are named by their index; [tracked] keeps the
    references in insertion order, the order in which [tracked.values()] and
    [tracked.keys()] iterate. Nothing is ever freed. [clients] is the
    subscriber set, its members named by numbers. *)

Abbreviation loc := nat (only parsing).

Record state := mkState {
  heap : list dict;
  tracked : list (Z * loc);
  clients : gset nat;
  last_n2yo_error : pyval;
}.

Definition initial_state : state :=
  {| heap := []; tracked := []; clients := ∅; last_n2yo_error := PNone |}.

Definition with_heap (h : list dict) (st : state) : state :=
  {| heap := h; tracked := tracked st; clients := clients st;
     last_n2yo_error := last_n2yo_error st |}.

Definition with_tracked (h : list dict) (tr : list (Z * loc)) (st : state) : state :=
  {| heap := h; tracked := tr; clients := clients st;
     last_n2yo_error := last_n2yo_error st |}.

Definition with_error (e : pyval) (st : state) : state :=
  {| heap := heap st; tracked := tracked st; clients := clients st;
     last_n2yo_error := e |}.

Definition with_clients (c : gset nat) (st : state) : state :=
  {| heap := heap st; tracked := tracked st; clients := c;
     last_n2yo_error := last_n2yo_error st |}.

(** The reference [tracked] holds for an id, if any. *)
Fixpoint tracked_get (tr : list (Z * loc)) (satid : Z) : option loc :=
  match tr with
  | [] => None
  | (k, l) :: tr' => if k =? satid then Some l else tracked_get tr' satid
  end.

(** [satid in tracked]. *)
Definition tracked_mem (st : state) (satid : Z) : bool :=
  match tracked_get (tracked st) satid with Some _ => true | None => false end.

(** The object behind a reference. Every reference [tracked] holds is an
    index of the heap (the invariant [wf_state] below), so the default is
    never used. *)
Definition deref (h : list dict) (l : loc) : dict := default ∅ (h !! l).

(** The current contents of the entry of an id. *)
Definition entry_of (st : state) (satid : Z) : option dict :=
  l ← tracked_get (tracked st) satid; heap st !! l.

(** Programs over the state that may raise: the effects made before an
    exception stay. *)
Definition prog (A : Type) : Type := state -> state * res A.

Definition pret {A} (a : A) : prog A := fun st => (st, Ok a).

Definition pbind {A B} (k : A -> prog B) (m : prog A) : prog B := fun st =>
  match m st with
  | (st', Ok a) => k a st'
  | (st', Raise e) => (st', Raise e)
  end.

#[global] Instance prog_ret : MRet prog := @pret.
#[global] Instance prog_bind : MBind prog := @pbind.

Definition lift {A} (r : res A) : prog A := fun st => (st, r).

(** [tracked.setdefault(satid, {})]: a fresh empty dictionary for an unseen id. *)
Definition setdefault_empty (satid : Z) : prog unit := fun st =>
  match tracked_get (tracked st) satid with
  | Some _ => (st, Ok tt)
  | None =>
      (with_tracked (heap st ++ [∅]) (tracked st ++ [(satid, length (heap st))]) st,
       Ok tt)
  end.

(** [tracked[satid].update(updates)]: the object is changed in place; the keys
    of [updates] win. *)
Definition tracked_update (satid : Z) (updates : dict) : prog unit := fun st =>
  match tracked_get (tracked st) satid with
  | Some l => (with_heap (alter (fun d => updates ∪ d) l (heap st)) st, Ok tt)
  | None => (st, Raise KeyError)
  end.

(** The catalog merge as every sweep writes it:
    [tracked.setdefault(satid, {}); tracked[satid].update(updates)]. *)
Definition merge (satid : Z) (updates : dict) : prog unit :=
  setdefault_empty satid ;; tracked_update satid updates.

(** The guarded merge of the per-object refresh:
    [if satid in tracked: tracked[satid].update(updates)]. *)
Definition merge_existing (satid : Z) (updates : dict) : prog unit := fun st =>
  if tracked_mem st satid then tracked_update satid updates st else (st, Ok tt).

Definition set_last_error (e : pyval) : prog unit := fun st => (with_error e st, Ok tt).

(** *** main.py: the regional sweep ([tracker_loop]) *)

(** What a network call gives back: the JSON of the answer, or an exception
    ([call_n2yo] raises on a non-200 status, aiohttp on a failure or timeout). *)
Inductive net_outcome :=
| NetRaises
| NetReturns (v : pyval).

(** An element of the lists [asyncio.gather(..., return_exceptions=True)]
    returns: an exception instance or a value. *)
Inductive response :=
| RExc
| RVal (v : pyval).

Inductive fetch_kind := FetchGeo | FetchAll.

(** What one pass does on the network, in order. *)
Inductive event :=
| EvIssue (k : fetch_kind) (s : seed)
| EvDone (k : fetch_kind) (s : seed)
| EvSleep.

Inductive loop_ctl := Continue | Break.

(** [range(start, stop, step)] for a positive step; the fuel [stop] is never
    exhausted before the bound is reached (lemma [py_range_spec]). *)
Fixpoint range_from (fuel start stop step : nat) : list nat :=
  match fuel with
  | O => []
  | S fuel' =>
      if (start <? stop)%nat then start :: range_from fuel' (start + step) stop step
      else []
  end.

Definition py_range (start stop step : nat) : list nat :=
  range_from stop start stop step.

(** ["exceeded" in error_msg.lower() or "rate limit" in error_msg.lower()]. *)
Definition rate_limited (error_msg : string) : bool :=
  (str_contains "exceeded" (str_lower error_msg)
   || str_contains "rate limit" (str_lower error_msg))%bool.

Record fetched := mkFetched {
  events : list event;
  geo_responses : list response;
  all_responses : list response;
}.

Section Sweep.
Variable rt : runtime.

(** [float(item.get(k)) if item.get(k) is not None else None]. *)
Definition float_or_None (item : pyval) (k : string) : res pyval :=
  v ← py_get item k;
  if is_None v then Ok PNone
  else
    v' ← py_get item k;
    f ← py_float rt v';
    Ok (PFloat f).

(** The dictionary literal a sweep passes to [update], evaluated key by key. *)
Definition sweep_updates (satid : Z) (item : pyval) (alt : res float)
    (category : string) (now : float) : res dict :=
  name ← py_get item "satname";
  lat ← float_or_None item "satlat";
  lng ← float_or_None item "satlng";
  a ← alt;
  Ok (list_to_map
        [ ("satid", PInt satid); ("satname", name); ("satlat", lat);
          ("satlng", lng); ("satalt", PFloat a); ("category", PStr category);
          ("last_update", PFloat now) ]).

(** [float(item.get("satalt", 0.0))]. *)
Definition item_alt (item : pyval) : res float :=
  v ← py_get_or item "satalt" (PFloat 0);
  py_float rt v.

(** The body of [for item in geo_resp.get("above", [])]. *)
Definition merge_geo_item (now : float) (item : pyval) : prog unit :=
  v ← lift (py_getitem item "satid");
  satid ← lift (py_int rt v);
  setdefault_empty satid ;;
  updates ← lift (sweep_updates satid item (item_alt item) "GEO" now);
  tracked_update satid updates.

(** The body of [for item in all_resp.get("above", [])]. *)
Definition merge_all_item (now : float) (item : pyval) : prog unit :=
  alt ← lift (item_alt item);
  if (alt <? LEO_MAX_ALT)%float then
    v ← lift (py_getitem item "satid");
    satid ← lift (py_int rt v);
    setdefault_empty satid ;;
    updates ← lift (sweep_updates satid item (Ok alt) "LEO" now);
    tracked_update satid updates
  else pret tt.

Fixpoint for_each {A} (body : A -> prog unit) (l : list A) : prog unit :=
  match l with
  | [] => pret tt
  | x :: l' => body x ;; for_each body l'
  end.

(** The test on a response that opens the loop body: record an error payload
    and tell whether the loop breaks. *)
Definition check_error (resp : pyval) : prog loop_ctl :=
  match resp with
  | PDict d =>
      if py_truthy (dict_get d "error") then
        let error_msg := dict_get_or d "error" (PStr "") in
        set_last_error error_msg ;;
        match error_msg with
        | PStr s => pret (if rate_limited s then Break else Continue)
        | _ => lift (Raise AttributeError)
        end
      else pret Continue
  | _ => pret Continue
  end.

(** [resp.get("above", []) if isinstance(resp, dict) else []], as iterated. *)
Definition above_items (resp : pyval) : res (list pyval) :=
  match resp with
  | PDict d => py_iter (dict_get_or d "above" (PList []))
  | _ => Ok []
  end.

(** [for resp in responses: ...] of either family, [body] merging one item. *)
Fixpoint process_responses (body : pyval -> prog unit) (resps : list response)
    : prog unit :=
  match resps with
  | [] => pret tt
  | RExc :: rest => process_responses body rest
  | RVal v :: rest =>
      c ← check_error v;
      match c with
      | Break => pret tt
      | Continue =>
          items ← lift (above_items v);
          for_each body items ;;
          process_responses body rest
      end
  end.

(** [fetch_geo] and [fetch_all]: an exception of the call is printed and
    answered by the empty dictionary. *)
Definition fetch (net : fetch_kind -> seed -> net_outcome) (k : fetch_kind)
    (s : seed) : pyval :=
  match net k s with
  | NetReturns v => v
  | NetRaises => PDict ∅
  end.

(** [await asyncio.gather] over the fetches of one batch, with
    [return_exceptions=True]: every call of the batch is started, and the
    await ends when all have finished. The order of completion within the
    batch is free; the trace lists it in batch order. *)
Definition gather (net : fetch_kind -> seed -> net_outcome) (k : fetch_kind)
    (batch : list seed) : list event * list response :=
  ((EvIssue k <$> batch) ++ (EvDone k <$> batch),
   (fun s => RVal (fetch net k s)) <$> batch).

(** The body of [for i in range(0, len(seeds), cap)], folded over the values of [i]. *)
Fixpoint fetch_batches (net : fetch_kind -> seed -> net_outcome)
    (seeds : list seed) (cap : nat) (starts : list nat) (acc : fetched) : fetched :=
  match starts with
  | [] => acc
  | i :: starts' =>
      let batch := take cap (drop i seeds) in
      let '(ev_geo, batch_geo) := gather net FetchGeo batch in
      let '(ev_all, batch_all) := gather net FetchAll batch in
      let pause := if (i + cap <? length seeds)%nat then [EvSleep] else [] in
      fetch_batches net seeds cap starts'
        {| events := events acc ++ ev_geo ++ ev_all ++ pause;
           geo_responses := geo_responses acc ++ batch_geo;
           all_responses := all_responses acc ++ batch_all |}
  end.

Definition fetch_phase (net : fetch_kind -> seed -> net_outcome)
    (seeds : list seed) (cap : nat) : fetched :=
  fetch_batches net seeds cap (py_range 0 (length seeds) cap)
    {| events := []; geo_responses := []; all_responses := [] |}.

(** One iteration of the [while True] of [tracker_loop], up to the final
    sleep. The result says how the [try] block ended; the [except] clause
    only prints, so the loop goes on either way. *)
Definition tracker_pass (net : fetch_kind -> seed -> net_outcome) (now : float)
    (st : state) : state * list event * res unit :=
  let st0 := with_error PNone st in
  let f := fetch_phase net ABOVE_SEEDS MAX_PARALLEL_REQUESTS in
  let '(st1, r) :=
    (process_responses (merge_geo_item now) (geo_responses f) ;;
     process_responses (merge_all_item now) (all_responses f)) st0 in
  (st1, events f, r).

(** [tracker_loop]: the passes one after the other, each with the answers the
    network gives during it and its clock reading. *)
Fixpoint tracker_loop (passes : list ((fetch_kind -> seed -> net_outcome) * float))
    (st : state) : state * list (list event) :=
  match passes with
  | [] => (st, [])
  | (net, now) :: rest =>
      let '(st1, evs, _) := tracker_pass net now st in
      let '(st2, later) := tracker_loop rest st1 in
      (st2, evs :: later)
  end.

(** *** main.py: the per-object refresh ([positions_loop]) *)

(** The dictionary [update_position] returns beside the id. *)
Definition position_updates (latest : pyval) (now : float) : res dict :=
  lat ← float_or_None latest "satlatitude";
  lng ← float_or_None latest "satlongitude";
  v ← py_get_or latest "sataltitude" (PFloat 0);
  alt ← py_float rt v;
  Ok (list_to_map
        [ ("satlat", lat); ("satlng", lng); ("satalt", PFloat alt);
          ("last_update", PFloat now) ]).

(** What [update_position] computes from an answer without an error payload;
    an exception here is caught by its [try]. *)
Definition position_result (resp : pyval) (now : float) (satid : Z)
    : res (option (Z * dict)) :=
  pos_arr ← py_get_or resp "positions" (PList []);
  if py_truthy pos_arr then
    latest ← py_index0 pos_arr;
    updates ← position_updates latest now;
    Ok (Some (satid, updates))
  else Ok None.

Definition has_error_payload (resp : pyval) : bool :=
  match resp with
  | PDict d => py_truthy (dict_get d "error")
  | _ => false
  end.

(** The inner coroutine [update_position(satid)]. *)
Definition update_position (net : Z -> net_outcome) (now : float) (satid : Z)
    (st : state) : state * option (Z * dict) :=
  match net satid with
  | NetRaises => (st, None)
  | NetReturns resp =>
      if has_error_payload resp then
        match resp with
        | PDict d => (with_error (dict_get d "error") st, None)
        | _ => (st, None)
        end
      else
        match position_result resp now satid with
        | Ok r => (st, r)
        | Raise _ => (st, None)
        end
  end.

(** [for result in results: if result and isinstance(result, tuple): ...]. *)
Definition apply_result (result : option (Z * dict)) : prog unit :=
  match result with
  | Some (satid, updates) => merge_existing satid updates
  | None => pret tt
  end.

(** The gather of one batch: the coroutines only touch the last-error
    variable; their results come back in batch order. *)
Fixpoint gather_positions (net : Z -> net_outcome) (now : float) (batch : list Z)
    (st : state) : state * list (option (Z * dict)) :=
  match batch with
  | [] => (st, [])
  | satid :: batch' =>
      let '(st1, r) := update_position net now satid st in
      let '(st2, rs) := gather_positions net now batch' st1 in
      (st2, r :: rs)
  end.

Fixpoint position_batches (net : Z -> net_outcome) (now : float)
    (sats_to_update : list Z) (batch_size : nat) (starts : list nat) : prog unit :=
  match starts with
  | [] => pret tt
  | i :: starts' =>
      fun st =>
        let batch := take batch_size (drop i sats_to_update) in
        let '(st1, results) := gather_positions net now batch st in
        (for_each apply_result results ;;
         position_batches net now sats_to_update batch_size starts') st1
  end.

(** One iteration of the [while True] of [positions_loop]. *)
#[warnings="-abstract-large-number"]
Definition positions_pass (net : Z -> net_outcome) (now : float) (st : state)
    : state * res unit :=
  let sats := (tracked st).*1 in
  let max_fetch := 10000%nat in
  let batch_size := 50%nat in
  let sats_to_update := take max_fetch sats in
  position_batches net now sats_to_update batch_size
    (py_range 0 (length sats_to_update) batch_size) st.

(** [positions_loop]: the passes one after the other; the [except] clause
    only prints. *)
Fixpoint positions_loop (passes : list ((Z -> net_outcome) * float)) (st : state)
    : state :=
  match passes with
  | [] => st
  | (net, now) :: rest => positions_loop rest (positions_pass net now st).1
  end.

End Sweep.

(** *** main.py: the snapshot payload ([api_snapshot], [broadcast_snapshot]) *)

Record counts := mkCounts {
  total : nat;
  leo : nat;
  geo : nat;
  alerts : nat;
}.

Record alert := mkAlert {
  alert_a : pyval;
  alert_b : pyval;
  dist_km : float;
}.

(** The payload dictionary. ["sats"] is the snapshot list itself: references
    to the catalog's objects, read when the payload is serialised. *)
Record payload := mkPayload {
  ts : string;
  sats : list loc;
  p_counts : counts;
  p_alerts : list alert;
}.

(** [list(tracked.values())]. *)
Definition snapshot (st : state) : list loc := (tracked st).*2.

(** The objects a list of references shows in a given heap. *)
Definition view (h : list dict) (refs : list loc) : list dict := deref h <$> refs.

(** [sum(1 for s in sats if s.get("category") == c)]. *)
Fixpoint count_category (c : string) (objs : list dict) : nat :=
  match objs with
  | [] => O
  | s :: objs' =>
      if py_eq_str (dict_get s "category") c then S (count_category c objs')
      else count_category c objs'
  end.

Definition alert_of (p : pair_t) : alert :=
  let '(a, b, d) := p in
  {| alert_a := dict_get a "satname"; alert_b := dict_get b "satname"; dist_km := d |}.

Section Snapshot.
Variable rt : runtime.

(** The lines shared by [api_snapshot] and [broadcast_snapshot]: from
    [sats = list(tracked.values())] to the payload. *)
Definition snapshot_payload (stamp : string) (st : state) : res payload :=
  let refs := snapshot st in
  let objs := view (heap st) refs in
  pairs ← find_close_pairs rt objs PROXIMITY_THRESHOLD_KM;
  let alert_pairs := alert_of <$> pairs in
  Ok {| ts := stamp;
        sats := refs;
        p_counts := {| total := length refs;
                       leo := count_category "LEO" objs;
                       geo := count_category "GEO" objs;
                       alerts := length alert_pairs |};
        p_alerts := alert_pairs |}.

(** The [for ws in set(clients)] loop: [send ws p] tells whether
    [ws.send_json] returned ([true]) or raised ([false]). *)
Fixpoint send_loop (send : nat -> payload -> bool) (p : payload)
    (targets : list nat) (dead sent : list nat) : list nat * list nat :=
  match targets with
  | [] => (dead, sent)
  | ws :: rest =>
      if send ws p then send_loop send p rest dead (sent ++ [ws])
      else send_loop send p rest (dead ++ [ws]) sent
  end.

(** [for d in dead: clients.discard(d)]. *)
Fixpoint discard_all (dead : list nat) (c : gset nat) : gset nat :=
  match dead with
  | [] => c
  | d :: dead' => discard_all dead' (c ∖ {[d]})
  end.

(** One iteration of the [while True] of [broadcast_snapshot]: the new state
    and the deliveries that succeeded, in order. An exception while the
    payload is built is printed by the [except] clause and nothing is sent. *)
Definition broadcast_tick (send : nat -> payload -> bool) (stamp : string)
    (st : state) : state * list (nat * payload) :=
  match snapshot_payload stamp st with
  | Raise _ => (st, [])
  | Ok p =>
      let '(dead, sent) := send_loop send p (elements (clients st)) [] [] in
      (with_clients (discard_all dead (clients st)) st, (fun ws => (ws, p)) <$> sent)
  end.

(** [broadcast_snapshot]: the ticks one after the other, each with what its
    sends do and its time stamp; the deliveries of each tick. *)
Fixpoint broadcast_snapshot (ticks : list ((nat -> payload -> bool) * string))
    (st : state) : state * list (list (nat * payload)) :=
  match ticks with
  | [] => (st, [])
  | (send, stamp) :: rest =>
      let '(st1, delivered) := broadcast_tick send stamp st in
      let '(st2, later) := broadcast_snapshot rest st1 in
      (st2, delivered :: later)
  end.

End Snapshot.

(** *** main.py: the demo generator *)

(** [tracked[satid] = d]: a new object; an existing id keeps its place. *)
Definition tracked_assign (satid : Z) (d : dict) : prog unit := fun st =>
  let l := length (heap st) in
  let tr :=
    match tracked_get (tracked st) satid with
    | Some _ => (fun p : Z * loc => if p.1 =? satid then (p.1, l) else p) <$> tracked st
    | None => tracked st ++ [(satid, l)]
    end in
  (with_tracked (heap st ++ [d]) tr st, Ok tt).

(** [f"{n:02d}"]. *)
Definition fmt_02d (n : nat) : string :=
  if (n <? 10)%nat then "0" +:+ pretty n else pretty n.

Definition demo_geo (now : float) (i : nat) : Z * dict :=
  let satid := 900000 + Z.of_nat i in
  (satid,
   list_to_map
     [ ("satid", PInt satid); ("satname", PStr ("GEO-" +:+ fmt_02d (i + 1)));
       ("satlat", PFloat 0); ("satlng", PFloat (round_Z (Z.of_nat i) * 30));
       ("satalt", PFloat 35786); ("category", PStr "GEO");
       ("last_update", PFloat now) ]).

Definition demo_leo (now : float) (i : nat) : Z * dict :=
  let satid := 910000 + Z.of_nat i in
  (satid,
   list_to_map
     [ ("satid", PInt satid); ("satname", PStr ("LEO-" +:+ fmt_02d (i + 1)));
       ("satlat", PInt ((Z.of_nat i mod 6) * 10 - 25));
       ("satlng", PInt ((Z.of_nat i * 12) mod 360));
       ("satalt", PFloat 550); ("category", PStr "LEO");
       ("last_update", PFloat now) ]).

Definition _ensure_demo_catalog (now : float) : prog unit := fun st =>
  match tracked st with
  | _ :: _ => (st, Ok tt)
  | [] =>
      (for_each (fun i => let '(satid, d) := demo_geo now i in tracked_assign satid d)
         (seq 0 12) ;;
       for_each (fun i => let '(satid, d) := demo_leo now i in tracked_assign satid d)
         (seq 0 30)) st
  end.

(** [v or w]. *)
Definition py_or (v w : pyval) : pyval := if py_truthy v then v else w.

(** [s[k] = v] on the object behind a reference. *)
Definition dict_setitem (l : loc) (k : string) (v : pyval) : prog unit := fun st =>
  (with_heap (alter (fun d => <[k := v]> d) l (heap st)) st, Ok tt).

Section Demo.
Variable rt : runtime.

(** [vx % wx] on floats (CPython's [float_rem]). *)
Definition py_float_mod (vx wx : float) : res float :=
  if (wx =? 0)%float then Raise ZeroDivisionError
  else
    let m := libm_fmod rt vx wx in
    if (m =? 0)%float then Ok (if (wx <? 0)%float then (-0) else 0)%float
    else if xorb (wx <? 0)%float (m <? 0)%float then Ok (m + wx)%float
    else Ok m.

(** [max(0.0, x)]. *)
Definition py_max0 (x : float) : float := if (0 <? x)%float then x else 0%float.

Definition omega_geo : float := (360 / 86400)%float.
Definition omega_leo : float := (360 / 5700)%float.

(** The body of [for s in tracked.values()] in [_demo_step]. *)
Definition demo_step_entry (now : float) (l : loc) : prog unit := fun st =>
  let s := deref (heap st) l in
  (last ← lift (py_float rt (py_or (dict_get s "last_update") (PFloat now)));
   let dt := py_max0 (now - last) in
   lng0 ← lift (py_float rt (py_or (dict_get s "satlng") (PFloat 0)));
   (if py_eq_str (dict_get s "category") "GEO" then
      lng ← lift (py_float_mod (lng0 + omega_geo * dt) 360);
      dict_setitem l "satlng" (PFloat lng) ;;
      dict_setitem l "satlat" (PFloat 0)
    else
      lng ← lift (py_float_mod (lng0 + omega_leo * dt) 360);
      dict_setitem l "satlng" (PFloat lng) ;;
      t ← lift (py_float_mod now 5700);
      sn ← lift (math_sin rt (2 * math_pi * t / 5700));
      dict_setitem l "satlat" (PFloat (30 * sn))) ;;
   dict_setitem l "last_update" (PFloat now)) st.

Definition _demo_step (now : float) : prog unit := fun st =>
  for_each (demo_step_entry now) (snapshot st) st.

(** [api_snapshot]: [demo] is [DEMO_MODE or not N2YO_API_KEY]; the two clock
    readings are those of [_ensure_demo_catalog] and of the call of
    [_demo_step]. *)
Definition api_snapshot (demo : bool) (now_ensure now_step : float)
    (stamp : string) : prog payload :=
  let prepare : prog unit :=
    if demo then _ensure_demo_catalog now_ensure ;; _demo_step now_step
    else pret tt in
  let build : prog payload := fun st => (st, snapshot_payload rt stamp st) in
  prepare ;; build.

End Demo.

(** *** A runtime for the examples

    Stand-ins for libm and the parsers, exact where the examples need them:
    truncated series for [sin] and [cos] (exact at 0), the square for
    [pow(x, 2.0)], the truncated quotient for [fmod], and parsers that read
    plain strings of decimal digits. *)

Definition series_sin (x : float) : float :=
  (x - x * x * x / 6 + x * x * x * x * x / 120)%float.

Definition series_cos (x : float) : float :=
  (1 - x * x / 2 + x * x * x * x / 24)%float.

Definition trunc_fmod (x y : float) : float :=
  match Z_of_float (x / y) with
  | Ok q => (x - round_Z q * y)%float
  | Raise _ => nan
  end.

Fixpoint digits_value (s : string) (acc : Z) : option Z :=
  match s with
  | EmptyString => Some acc
  | String c s' =>
      let n := Z.of_nat (nat_of_ascii c) in
      if ((48 <=? n) && (n <=? 57))%bool then digits_value s' (10 * acc + (n - 48))
      else None
  end.

Definition parse_digits (s : string) : option Z :=
  match s with
  | EmptyString => None
  | _ => digits_value s 0
  end.

Definition sample_runtime : runtime :=
  {| libm_sin := series_sin;
     libm_cos := series_cos;
     libm_pow := fun x _ => (x * x)%float;
     libm_fmod := trunc_fmod;
     float_of_string := fun s => round_Z <$> parse_digits s;
     int_of_string := parse_digits |}.

(** *** The proximity screen in the specification's words

    The unordered pairs of a list, as pairs of positions [i < j] in the
    order of the input, and what the screen is to emit for each. *)

Definition index_pairs (n : nat) : list (nat * nat) :=
  i ← seq 0 n; (fun j => (i, j)) <$> seq (S i) (n - S i).

Definition pairs_of {A} (l : list A) : list (A * A) :=
  omap (fun ij : nat * nat => a ← l !! ij.1; b ← l !! ij.2; Some (a, b))
       (index_pairs (length l)).

Section ScanSpec.
Variable rt : runtime.

Definition emit (threshold_km : float) (ab : dict * dict) : list pair_t :=
  let '(a, b) := ab in
  if (coords_absent a || coords_absent b)%bool then []
  else
    match pair_distance rt a b with
    | Ok d => if (d <=? threshold_km)%float then [(a, b, d)] else []
    | Raise _ => []
    end.

Definition close_pairs_spec (sat_list : list dict) (threshold_km : float)
    : list pair_t :=
  pairs_of sat_list ≫= emit threshold_km.

(** Every pair of objects that both carry coordinates has a distance: the
    values are numbers and the computation stays in range. *)
Definition distances_defined (sat_list : list dict) : bool :=
  forallb (fun ab : dict * dict =>
             (coords_absent ab.1 || coords_absent ab.2
              || is_ok (pair_distance rt ab.1 ab.2))%bool)
          (pairs_of sat_list).

End ScanSpec.

(** *** Well-formed states

    Every reference held by [tracked] names an object of the heap, and no two
    ids share an object. Every operation of the model keeps this. *)
Definition wf_state (st : state) : Prop :=
  Forall (fun p : Z * loc => (p.2 < length (heap st))%nat) (tracked st)
  /\ NoDup (tracked st).*2.

#[global] Instance wf_state_dec st : Decision (wf_state st).
Proof. unfold wf_state. apply _. Defined.

(** The keys of the dictionary [update_position] returns. *)
Definition position_fields : list string :=
  [ "satlat"; "satlng"; "satalt"; "last_update" ].

(** What a refresh pass may change: the state stays well formed, the catalog
    lists the same references, and every entry keeps the value of each key
    outside [position_fields]. *)
Definition refresh_frame (st st' : state) : Prop :=
  wf_state st'
  /\ tracked st' = tracked st
  /\ forall satid old, entry_of st satid = Some old ->
       exists new, entry_of st' satid = Some new
         /\ forall k, k ∉ position_fields -> new !! k = old !! k.

(** The result of [update_position] carries only position fields. *)
Definition position_result_ok (r : option (Z * dict)) : Prop :=
  match r with
  | Some (_, updates) => forall k, is_Some (updates !! k) -> k ∈ position_fields
  | None => True
  end.

(** *** Fetches in flight

    The number of fetches started and not yet finished after an event, and
    its peak over a trace that starts with [cur] fetches in flight. *)
Definition in_flight_step (cur : nat) (e : event) : nat :=
  match e with
  | EvIssue _ _ => S cur
  | EvDone _ _ => pred cur
  | EvSleep => cur
  end.

Fixpoint peak_in_flight (cur : nat) (evs : list event) : nat :=
  match evs with
  | [] => cur
  | e :: evs' => Nat.max cur (peak_in_flight (in_flight_step cur e) evs')
  end.

Definition final_in_flight (cur : nat) (evs : list event) : nat :=
  foldl in_flight_step cur evs.

(** The events of one group of regions: the GEO fetches, awaited together,
    then the unfiltered fetches, awaited together. *)
Definition group_events (batch : list seed) : list event :=
  (EvIssue FetchGeo <$> batch) ++ (EvDone FetchGeo <$> batch)
  ++ (EvIssue FetchAll <$> batch) ++ (EvDone FetchAll <$> batch).

Definition is_issue (e : event) : bool :=
  match e with EvIssue _ _ => true | _ => false end.

(** The trace of the groups that start at the given positions of the region
    list: each group, and a pause after it unless it reaches the end. *)
Definition schedule (seeds : list seed) (cap : nat) (starts : list nat) : list event :=
  i ← starts;
  group_events (take cap (drop i seeds))
  ++ (if (i + cap <? length seeds)%nat then [EvSleep] else []).

(** *** Catalog operations as data

    The writers of the catalog between two reads: a sweep merge, a guarded
    refresh merge, a demo step. An exception ends the operation and keeps
    what it had written. *)
Inductive catalog_op :=
| OpMerge (satid : Z) (updates : dict)
| OpRefresh (satid : Z) (updates : dict)
| OpDemoStep (now : float).

Definition run_op (rt : runtime) (o : catalog_op) : prog unit :=
  match o with
  | OpMerge satid updates => merge satid updates
  | OpRefresh satid updates => merge_existing satid updates
  | OpDemoStep now => _demo_step rt now
  end.

Fixpoint run_ops (rt : runtime) (ops : list catalog_op) (st : state) : state :=
  match ops with
  | [] => st
  | o :: ops' => run_ops rt ops' (run_op rt o st).1
  end.

(** An operation that only writes into existing objects. *)
Definition heap_only (st st' : state) : Prop :=
  tracked st' = tracked st
  /\ length (heap st') = length (heap st)
  /\ clients st' = clients st.

(** *** Sample answers of the network *)

Definition seed_eqb (a b : seed) : bool :=
  ((a.1 =? b.1)%float && (a.2 =? b.2)%float)%bool.

Definition py_dict (l : list (string * pyval)) : pyval := PDict (list_to_map l).

Definition response_above (items : list pyval) : pyval :=
  py_dict [ ("above", PList items) ].

Definition sample_record (n : Z) : pyval :=
  py_dict [ ("satid", PInt n); ("satname", PStr "SAT"); ("satlat", PFloat 1);
            ("satlng", PFloat 2); ("satalt", PFloat 300) ].

Definition record_without_id : pyval := py_dict [ ("satname", PStr "NOID") ].

Definition record_null_altitude : pyval :=
  py_dict [ ("satid", PInt 5); ("satalt", PNone) ].

Definition rate_limit_answer : pyval :=
  py_dict [ ("error", PStr "You have exceeded the number of transactions allowed per hour") ].

(** The first region's GEO answer holds a record without id between two
    complete ones; every other answer holds one complete record. *)
Definition net_missing_id (k : fetch_kind) (s : seed) : net_outcome :=
  match k with
  | FetchGeo =>
      if seed_eqb s (0, 0)%float
      then NetReturns (response_above [sample_record 1; record_without_id; sample_record 2])
      else NetReturns (response_above [sample_record 3])
  | FetchAll => NetReturns (response_above [sample_record 4])
  end.

(** The first region's GEO answer holds one record whose altitude is JSON
    null; every other answer is empty. *)
Definition net_null_altitude (k : fetch_kind) (s : seed) : net_outcome :=
  match k with
  | FetchGeo =>
      if seed_eqb s (0, 0)%float
      then NetReturns (response_above [record_null_altitude])
      else NetReturns (PDict ∅)
  | FetchAll => NetReturns (PDict ∅)
  end.

(** The first region's GEO fetch is answered by the rate-limit error; every
    other answer holds one complete record. *)
Definition net_rate_limited (k : fetch_kind) (s : seed) : net_outcome :=
  match k with
  | FetchGeo =>
      if seed_eqb s (0, 0)%float then NetReturns rate_limit_answer
      else NetReturns (response_above [sample_record 3])
  | FetchAll => NetReturns (response_above [sample_record 4])
  end.

(** The events of a trace after its first finished fetch. *)
Fixpoint after_first_done (evs : list event) : list event :=
  match evs with
  | [] => []
  | EvDone _ _ :: evs' => evs'
  | _ :: evs' => after_first_done evs'
  end.

Fixpoint count_issues (evs : list event) : nat :=
  match evs with
  | [] => O
  | e :: evs' => if is_issue e then S (count_issues evs') else count_issues evs'
  end.

(** A program that only writes into existing objects, however it ends. *)
Definition keeps_refs {A} (m : prog A) : Prop :=
  forall st, heap_only st (m st).1.

(** *** Sample data for the examples *)

Definition sat_at (name : string) (lat lng alt : float) : dict :=
  list_to_map [ ("satname", PStr name); ("satlat", PFloat lat);
                ("satlng", PFloat lng); ("satalt", PFloat alt) ].

(** Two objects under a kilometre apart, one without latitude, one far away. *)
Definition sample_sat_list : list dict :=
  [ sat_at "A" 0 0 550;
    list_to_map [ ("satname", PStr "NOLAT"); ("satlng", PFloat 1) ];
    sat_at "B" 0 0.0078125 550;
    sat_at "C" 0 90 550 ].

Definition iss_sweep_fields : dict :=
  list_to_map [ ("satid", PInt 25544); ("satname", PStr "ISS");
                ("category", PStr "LEO"); ("last_update", PFloat 100) ].

Definition iss_position_fields : dict :=
  list_to_map [ ("satlat", PFloat 10); ("satlng", PFloat 20);
                ("satalt", PFloat 400); ("last_update", PFloat 160) ].

(** The catalog after one merge of the ISS. *)
Definition iss_state : state := (merge 25544 iss_sweep_fields initial_state).1.

(** The answer of a position fetch with two reported positions. *)
Definition iss_position_answer : pyval :=
  py_dict
    [ ("positions",
       PList [ py_dict [ ("satlatitude", PFloat 10); ("satlongitude", PFloat 20);
                         ("sataltitude", PFloat 400) ];
               py_dict [ ("satlatitude", PFloat 11); ("satlongitude", PFloat 21);
                         ("sataltitude", PFloat 401) ] ]) ].

Definition net_iss (satid : Z) : net_outcome := NetReturns iss_position_answer.

(** Three subscribers; the send to the second one fails. *)
Definition three_clients : state := with_clients {[ 1%nat; 2%nat; 3%nat ]} iss_state.

Definition send_fails_for_2 (ws : nat) (p : payload) : bool := negb (ws =? 2)%nat.

(** The states the examples reach. *)
Definition clock : float := 100%float.

Definition after_missing_id : state :=
  (tracker_pass sample_runtime net_missing_id clock initial_state).1.1.

Definition after_null_altitude : state :=
  (tracker_pass sample_runtime net_null_altitude clock initial_state).1.1.

Definition after_rate_limit : state :=
  (tracker_pass sample_runtime net_rate_limited clock initial_state).1.1.

Definition iss_refreshed : state := run_ops sample_runtime [OpRefresh 25544 iss_position_fields] iss_state.

Definition iss_stepped : state := run_ops sample_runtime [OpDemoStep 160] iss_state.

Definition three_clients_payload : payload :=
  {| ts := "t";
     sats := [0%nat];
     p_counts := {| total := 1; leo := 1; geo := 0; alerts := 0 |};
     p_alerts := [] |}.

(** The first region's GEO answer of [net_missing_id], as a dictionary. *)
Definition answer_missing_id : dict :=
  list_to_map
    [ ("above", PList [sample_record 1; record_without_id; sample_record 2]) ].

Definition two_group_schedule : list event :=
  group_events (take 4 ABOVE_SEEDS) ++ [EvSleep] ++ group_events (drop 4 ABOVE_SEEDS).

(** *** main.py: the manual load ([load_all_satellites]) *)

(** Why an endpoint that needs N2YO declines to run. *)
Inductive refusal := DemoModeEnabled | ApiKeyNotSet.

(** What the endpoint answers: the refusal, the counts of a completed load,
    or the status-500 answer that carries the text of an exception. *)
Inductive load_reply :=
| LoadRefused (why : refusal)
| LoadDone (total_tracked : nat) (newly_loaded : Z) (leo_count geo_count : nat)
| LoadFailed (e : exn).

Section Load.
Variable rt : runtime.

(** [for resp in responses: ...] of the manual load: an exception, a value
    that is not a dictionary and an answer with an error payload are passed
    over; nothing breaks the loop. *)
Fixpoint load_responses (body : pyval -> prog unit) (resps : list response)
    : prog unit :=
  match resps with
  | [] => pret tt
  | RExc :: rest => load_responses body rest
  | RVal (PDict d) :: rest =>
      if py_truthy (dict_get d "error") then load_responses body rest
      else
        items ← lift (py_iter (dict_get_or d "above" (PList [])));
        for_each body items ;;
        load_responses body rest
  | RVal _ :: rest => load_responses body rest
  end.

(** The two inner gathers under the outer one: every fetch of both families
    is started before any is awaited. The order of completion is free; the
    trace lists it family by family. *)
Definition load_all_fetch (net : fetch_kind -> seed -> net_outcome)
    (seeds : list seed) : fetched :=
  {| events := (EvIssue FetchGeo <$> seeds) ++ (EvIssue FetchAll <$> seeds)
               ++ (EvDone FetchGeo <$> seeds) ++ (EvDone FetchAll <$> seeds);
     geo_responses := (fun s => RVal (fetch net FetchGeo s)) <$> seeds;
     all_responses := (fun s => RVal (fetch net FetchAll s)) <$> seeds |}.

(** [load_all_satellites]: [demo_mode] is [DEMO_MODE], [has_api_key] is
    [bool(N2YO_API_KEY)], [now] the clock reading. *)
Definition load_all_satellites (demo_mode has_api_key : bool)
    (net : fetch_kind -> seed -> net_outcome) (now : float) (st : state)
    : state * list event * load_reply :=
  if demo_mode then (st, [], LoadRefused DemoModeEnabled)
  else if negb has_api_key then (st, [], LoadRefused ApiKeyNotSet)
  else
    let initial_count := length (tracked st) in
    let f := load_all_fetch net ABOVE_SEEDS in
    let '(st1, r) :=
      (load_responses (merge_geo_item rt now) (geo_responses f) ;;
       load_responses (merge_all_item rt now) (all_responses f)) st in
    (st1, events f,
     match r with
     | Ok _ =>
         let objs := view (heap st1) (snapshot st1) in
         LoadDone (length (tracked st1))
                  (Z.of_nat (length (tracked st1)) - Z.of_nat initial_count)
                  (count_category "LEO" objs) (count_category "GEO" objs)
     | Raise e => LoadFailed e
     end).

(** *** main.py: the demo loop ([demo_loop]) *)

(** The [while True] of [demo_loop], one clock reading per step; an
    exception of a step ends the task. *)
Fixpoint demo_steps (nows : list float) : prog unit :=
  match nows with
  | [] => pret tt
  | now :: rest => _demo_step rt now ;; demo_steps rest
  end.

Definition demo_loop (now_ensure : float) (nows : list float) : prog unit :=
  _ensure_demo_catalog now_ensure ;; demo_steps nows.

End Load.

(** *** main.py: [health] *)

Record health_reply := mkHealth {
  h_ok : bool;
  h_tracked : nat;
  h_clients : nat;
  h_has_api_key : bool;
  h_demo_mode : bool;
  h_n2yo_error : pyval;
}.

Definition health (demo_mode has_api_key : bool) (st : state) : health_reply :=
  {| h_ok := true;
     h_tracked := length (tracked st);
     h_clients := size (clients st);
     h_has_api_key := has_api_key;
     h_demo_mode := demo_mode;
     h_n2yo_error := last_n2yo_error st |}.

(** *** The writers of the catalog

    One run of each piece of code that writes the catalog: a pass of the
    regional sweep, the manual load, a pass of the per-object refresh, the
    demo generator and a demo step. *)
Inductive writer :=
| WSweep (net : fetch_kind -> seed -> net_outcome) (now : float)
| WLoad (net : fetch_kind -> seed -> net_outcome) (now : float)
| WRefresh (net : Z -> net_outcome) (now : float)
| WEnsureDemo (now : float)
| WDemoStep (now : float).

Definition run_writer (rt : runtime) (st : state) (w : writer) : state :=
  match w with
  | WSweep net now => (tracker_pass rt net now st).1.1
  | WLoad net now => (load_all_satellites rt false true net now st).1.1
  | WRefresh net now => (positions_pass rt net now st).1
  | WEnsureDemo now => (_ensure_demo_catalog now st).1
  | WDemoStep now => (_demo_step rt now st).1
  end.

Definition run_writers (rt : runtime) (ws : list writer) (st : state) : state :=
  foldl (run_writer rt) st ws.

(** *** Invariants of the catalog *)

(** What a field of a catalog entry may hold: the id is the entry's key, a
    coordinate is a number or [None], the altitude and the timestamp are
    floats, the category is one of the two labels; any other field is free. *)
Definition field_ok (satid : Z) (k : string) (v : pyval) : bool :=
  if String.eqb k "satid" then
    match v with PInt z => z =? satid | _ => false end
  else if (String.eqb k "satlat" || String.eqb k "satlng")%bool then
    match v with PNone | PFloat _ | PInt _ => true | _ => false end
  else if (String.eqb k "satalt" || String.eqb k "last_update")%bool then
    match v with PFloat _ => true | _ => false end
  else if String.eqb k "category" then
    (py_eq_str v "GEO" || py_eq_str v "LEO")%bool
  else true.

Definition entry_typed (satid : Z) (d : dict) : Prop :=
  map_Forall (fun k v => field_ok satid k v = true) d.

(** The catalog invariant: well-formed references, one entry per id, every
    field of every entry of its kind. *)
Definition catalog_ok (st : state) : Prop :=
  wf_state st
  /\ NoDup (tracked st).*1
  /\ Forall (fun p : Z * nat => entry_typed p.1 (deref (heap st) p.2)) (tracked st).

Definition stays_ok (st st' : state) : Prop := catalog_ok st -> catalog_ok st'.

(** The keys a sweep or a manual load writes. *)
Definition sweep_fields : list string :=
  [ "satid"; "satname"; "satlat"; "satlng"; "satalt"; "category"; "last_update" ].

(** What a sweep or a manual load may do to the catalog: it keeps the state
    well formed, keeps every reference in its place (new ones come after),
    leaves the subscribers alone, removes no key of an object and leaves the
    value of every key outside [sweep_fields] as it is. The values of those
    seven keys are not kept: a later record overwrites them. *)
Definition catalog_grows (st st' : state) : Prop :=
  wf_state st'
  /\ tracked st `prefix_of` tracked st'
  /\ clients st' = clients st
  /\ forall l old, heap st !! l = Some old ->
       exists new, heap st' !! l = Some new
         /\ (forall k, is_Some (old !! k) -> is_Some (new !! k))
         /\ (forall k, k ∉ sweep_fields -> new !! k = old !! k).

Definition grows (st st' : state) : Prop := wf_state st -> catalog_grows st st'.

Definition keeps_error (st st' : state) : Prop :=
  last_n2yo_error st' = last_n2yo_error st.

(** A program that relates every state to the state it leaves, however it
    ends. *)
Definition respects (R : state -> state -> Prop) {A} (m : prog A) : Prop :=
  forall st, R st (m st).1.

(** The update of a refresh result is one of the allowed updates. *)
Definition result_allowed (U : Z -> dict -> Prop) (r : option (Z * dict)) : Prop :=
  match r with
  | Some (satid, updates) => U satid updates
  | None => True
  end.

(** An answer without an error payload. *)
Definition no_error_payload (r : response) : Prop :=
  match r with
  | RExc => True
  | RVal v => has_error_payload v = false
  end.

(** A network whose answers with an error payload, and whose answers that
    are not dictionaries, are replaced by failed fetches. *)
Definition without_errors (net : fetch_kind -> seed -> net_outcome)
    (k : fetch_kind) (s : seed) : net_outcome :=
  match net k s with
  | NetReturns (PDict d) =>
      if py_truthy (dict_get d "error") then NetRaises else NetReturns (PDict d)
  | _ => NetRaises
  end.

(** The exceptions of arithmetic out of range. *)
Definition range_error (e : exn) : Prop := e = ValueError \/ e = OverflowError.

Definition is_number (v : pyval) : Prop :=
  (exists f, v = PFloat f) \/ (exists z, v = PInt z).

(** *** The refresh pass, entry by entry *)

(** The ids a pass refreshes: [sats[:max_fetch]]. *)
#[warnings="-abstract-large-number"]
Definition refresh_ids (st : state) : list Z := take 10000 (tracked st).*1.

(** The update [update_position] returns for an id; the state plays no role
    in it (lemma [update_position_result]). *)
Definition position_answer (rt : runtime) (net : Z -> net_outcome) (now : float)
    (satid : Z) : option dict :=
  snd <$> (update_position rt net now satid initial_state).2.

(** The entry of an id after the refresh results of [ids] have been
    applied, [answer] giving the update of each id, if any. *)
Definition refreshed_entry (answer : Z -> option dict) (ids : list Z) (satid : Z)
    (old : dict) : dict :=
  if bool_decide (satid ∈ ids) then
    match answer satid with
    | Some updates => updates ∪ old
    | None => old
    end
  else old.

Definition refreshed (answer : Z -> option dict) (ids : list Z) (st st' : state) : Prop :=
  wf_state st'
  /\ tracked st' = tracked st
  /\ forall satid old, entry_of st satid = Some old ->
       entry_of st' satid = Some (refreshed_entry answer ids satid old).

(** *** The demo catalog *)

(** The entries [_ensure_demo_catalog] creates, in order. *)
Definition demo_entries (now : float) : list (Z * dict) :=
  (demo_geo now <$> seq 0 12) ++ (demo_leo now <$> seq 0 30).

(** Their ids. *)
Definition demo_ids : list Z :=
  ((fun i => 900000 + Z.of_nat i) <$> seq 0 12)
  ++ ((fun i => 910000 + Z.of_nat i) <$> seq 0 30).

(** The fields a demo step writes. *)
Definition demo_fields : list string := [ "satlng"; "satlat"; "last_update" ].

(** What a completed demo step leaves of an object: the timestamp of the
    step, a float longitude and a float latitude (zero for a GEO object),
    every other field as it was. *)
Definition demo_stepped (now : float) (old new : dict) : Prop :=
  new !! "last_update" = Some (PFloat now)
  /\ (exists lng, new !! "satlng" = Some (PFloat lng))
  /\ (exists lat, new !! "satlat" = Some (PFloat lat)
        /\ (py_eq_str (dict_get old "category") "GEO" = true -> lat = 0%float))
  /\ forall k, k ∉ demo_fields -> new !! k = old !! k.

(** *** Labels and errors through the writers *)

(** An object that counts as LEO or as GEO in a payload. *)
Definition labelled (d : dict) : bool :=
  (py_eq_str (dict_get d "category") "LEO" || py_eq_str (dict_get d "category") "GEO")%bool.

(** Every entry of the catalog is labelled. *)
Definition all_labelled (st : state) : Prop :=
  wf_state st /\ forall satid d, entry_of st satid = Some d -> labelled d = true.

Definition keeps_labels (st st' : state) : Prop := all_labelled st -> all_labelled st'.

(** A writer that was not cut short by an exception: a sweep pass whose
    [try] block ended normally, a manual load that answered with its counts. *)
Definition writer_completed (rt : runtime) (st : state) (w : writer) : bool :=
  match w with
  | WSweep net now => is_ok (tracker_pass rt net now st).2
  | WLoad net now =>
      match (load_all_satellites rt false true net now st).2 with
      | LoadDone _ _ _ _ => true
      | _ => false
      end
  | _ => true
  end.

Fixpoint all_completed (rt : runtime) (ws : list writer) (st : state) : bool :=
  match ws with
  | [] => true
  | w :: ws' => (writer_completed rt st w && all_completed rt ws' (run_writer rt st w))%bool
  end.

(** The error payload of the answer to the position fetch of an id, if the
    answer carries one ([data.get("error")] is truthy). *)
Definition error_payload (net : Z -> net_outcome) (satid : Z) : option pyval :=
  match net satid with
  | NetReturns (PDict d) =>
      if py_truthy (dict_get d "error") then Some (dict_get d "error") else None
  | _ => None
  end.

(** *** Shapes the statements about records and entries use *)

(** A loop over the records of an answer that runs [body] on the records
    [pre] and is then ended by the exception [e] of the next record. *)
Definition stopped_after (body : pyval -> prog unit) (pre : list pyval) (e : exn)
    (st : state) : state * res unit :=
  let '(st', r) := for_each body pre st in
  (st', match r with Ok _ => Raise e | Raise e' => Raise e' end).

(** The dictionary a sweep writes for a record that carries nothing but its id. *)
Definition bare_update (n : Z) (category : string) (now : float) : dict :=
  list_to_map
    [ ("satid", PInt n); ("satname", PNone); ("satlat", PNone);
      ("satlng", PNone); ("satalt", PFloat 0); ("category", PStr category);
      ("last_update", PFloat now) ].

(** The value an entry holds under a key, if the id is catalogued. *)
Definition entry_field (st : state) (satid : Z) (k : string) : option pyval :=
  e ← entry_of st satid; e !! k.

(** *** More sample data *)

(** Every answer holds one complete record. *)
Definition net_plain (k : fetch_kind) (s : seed) : net_outcome :=
  NetReturns (response_above [sample_record 1]).

(** A record far beyond any orbit: the difference of its ECEF coordinates
    to those of a near object overflows when squared. *)
Definition record_far_away : pyval :=
  py_dict [ ("satid", PInt 7); ("satname", PStr "FAR"); ("satlat", PFloat 0);
            ("satlng", PFloat 0); ("satalt", PFloat 0x1p+700) ].

(** Every GEO answer holds a complete record and the far one. *)
Definition net_far_away (k : fetch_kind) (s : seed) : net_outcome :=
  match k with
  | FetchGeo => NetReturns (response_above [sample_record 1; record_far_away])
  | FetchAll => NetReturns (PDict ∅)
  end.

Definition far_away_state : state :=
  run_writers sample_runtime [WSweep net_far_away clock] initial_state.

(** Two objects under a kilometre apart, merged into the empty catalog. *)
Definition close_pair_state : state :=
  run_ops sample_runtime
    [ OpMerge 1 (sat_at "A" 0 0 550); OpMerge 2 (sat_at "B" 0 0.0078125 550) ]
    initial_state.

(** One object with coordinates and one without. *)
Definition lonely_sat_list : list dict :=
  [ sat_at "A" 0 0 550;
    list_to_map [ ("satname", PStr "NOLAT"); ("satlng", PStr "east") ] ].

Definition rate_limit_message : string :=
  "You have exceeded the number of transactions allowed per hour".

Definition rate_limit_dict : dict :=
  list_to_map [ ("error", PStr rate_limit_message) ].

(** Two objects under a kilometre apart and a third whose altitude is out of
    the range of the arithmetic. *)
Definition close_pair_and_far : list dict :=
  [ sat_at "A" 0 0 550; sat_at "B" 0 0.0078125 550; sat_at "FAR" 0 0 0x1p+700 ].

(** The answer of a position fetch whose first position lacks the latitude
    and the altitude. *)
Definition position_answer_without_latitude : pyval :=
  py_dict [ ("positions", PList [ py_dict [ ("satlongitude", PFloat 21) ] ]) ].

Definition net_without_latitude (satid : Z) : net_outcome :=
  NetReturns position_answer_without_latitude.

(** A record that carries nothing but the id of the ISS, in the answers of
    the category-filtered family. *)
Definition record_bare_iss : pyval := py_dict [ ("satid", PInt 25544) ].

Definition net_bare_iss (k : fetch_kind) (s : seed) : net_outcome :=
  match k with
  | FetchGeo => NetReturns (response_above [record_bare_iss])
  | FetchAll => NetReturns (PDict ∅)
  end.

(** An answer with a record without id at 3000 km between two complete ones. *)
Definition answer_high_without_id : dict :=
  list_to_map
    [ ("above",
       PList [ sample_record 1;
               py_dict [ ("satname", PStr "HIGH"); ("satalt", PFloat 3000) ];
               sample_record 2 ]) ].

(** ** Part II. Properties *)

(** *** IEEE binary64: negation, subtraction and comparison *)

Lemma binary_round_aux_opp s m e l :
  binary_round_aux prec emax (negb s) m e l = SFopp (binary_round_aux prec emax s m e l).
Proof.
  unfold binary_round_aux.
  destruct (shr_fexp prec emax m e l) as [mrs' e'].
  destruct (shr_fexp prec emax _ e' loc_Exact) as [mrs'' e''].
  destruct (shr_m mrs''); simpl; try reflexivity.
  destruct (Z.leb e'' _); reflexivity.
Qed.

Lemma binary_round_opp s m e :
  binary_round prec emax (negb s) m e = SFopp (binary_round prec emax s m e).
Proof.
  unfold binary_round. destruct (shl_align _ _ _) as [mz ez].
  apply binary_round_aux_opp.
Qed.

Lemma binary_normalize_opp m e :
  binary_normalize prec emax (- m) e false =
  match m with
  | Z0 => S754_zero false
  | _ => SFopp (binary_normalize prec emax m e false)
  end.
Proof.
  destruct m as [|p|p]; simpl; try reflexivity.
  - apply (binary_round_opp false).
  - change false with (negb true) at 1. rewrite binary_round_opp.
    now destruct (binary_round prec emax true p e).
Qed.

(** Swapping the operands of a subtraction negates the result, except that
    both orders give [+0] on equal finite operands. *)
Lemma SF64sub_swap x y :
  SF64sub y x = SFopp (SF64sub x y) \/ SF64sub y x = SF64sub x y.
Proof.
  destruct x as [sx|sx| |sx mx ex], y as [sy|sy| |sy my ey];
    try (destruct sx; try destruct sy; simpl; auto; fail);
    try (destruct sy; simpl; auto; fail); auto.
  unfold SF64sub, SFsub. rewrite (Z.min_comm ey ex).
  set (A := cond_Zopp sx _). set (B := cond_Zopp sy _).
  replace (B - A) with (- (A - B)) by lia.
  rewrite binary_normalize_opp.
  destruct (A - B); auto.
Qed.

Lemma sub_swap (x y : float) :
  (y - x = - (x - y))%float \/ (y - x = x - y)%float.
Proof.
  destruct (SF64sub_swap (Prim2SF x) (Prim2SF y)) as [H|H]; [left|right];
    apply Prim2SF_inj; rewrite ?opp_spec, !sub_spec; exact H.
Qed.

Lemma SF64sub_diag x : sf_is_finite x = true -> SF64sub x x = S754_zero false.
Proof.
  destruct x as [[]|[]| |s m e]; simpl; try discriminate; try reflexivity.
  intros _. unfold SF64sub, SFsub. now rewrite Z.sub_diag.
Qed.

Lemma sub_diag_finite (x : float) : f_isfinite x = true -> (x - x)%float = 0%float.
Proof.
  intros H. apply Prim2SF_inj. rewrite sub_spec. now apply SF64sub_diag.
Qed.

Lemma SFcompare_refl x : sf_is_nan x = false -> SFcompare x x = Some Eq.
Proof.
  destruct x as [s|s| |s m e]; simpl; try discriminate; intros _; try reflexivity.
  - now destruct s.
  - destruct s; rewrite Z.compare_refl, Pos.compare_cont_refl; reflexivity.
Qed.

(** A number equals itself under Python's [==]; NaN does not. *)
Lemma eqb_refl_not_nan (d : float) : f_isnan d = false -> (d =? d)%float = true.
Proof.
  intros H. rewrite FloatAxioms.eqb_spec. unfold SFeqb. now rewrite SFcompare_refl.
Qed.

Lemma f_isnan_opp v : f_isnan (- v) = f_isnan v.
Proof. unfold f_isnan. rewrite opp_spec. now destruct (Prim2SF v). Qed.

Lemma f_isinf_opp v : f_isinf (- v) = f_isinf v.
Proof. unfold f_isinf. rewrite opp_spec. now destruct (Prim2SF v). Qed.

Lemma abs_opp v : abs (- v) = abs v.
Proof.
  apply Prim2SF_inj. rewrite !abs_spec, opp_spec. now destruct (Prim2SF v).
Qed.

Lemma opp_nan v : f_isnan v = true -> (- v)%float = v.
Proof.
  unfold f_isnan. intros H. apply Prim2SF_inj. rewrite opp_spec.
  now destruct (Prim2SF v).
Qed.

Lemma eqb_zero_opp v : (- v =? 0)%float = (v =? 0)%float.
Proof.
  rewrite !FloatAxioms.eqb_spec, opp_spec.
  change (Prim2SF 0) with (S754_zero false).
  now destruct (Prim2SF v) as [[]|[]| |[] m e].
Qed.

(** *** The distance (conj.py) *)

Section Distance.
Variable rt : runtime.

Lemma py_pow2_opp v : py_pow2 rt (- v) = py_pow2 rt v.
Proof.
  unfold py_pow2.
  rewrite f_isnan_opp, f_isinf_opp, abs_opp, eqb_zero_opp.
  destruct (f_isnan v) eqn:E; [|reflexivity].
  now rewrite opp_nan.
Qed.

Lemma py_pow2_sub_swap x y : py_pow2 rt (y - x) = py_pow2 rt (x - y).
Proof.
  destruct (sub_swap x y) as [-> | ->]; [apply py_pow2_opp | reflexivity].
Qed.

Lemma valid_point_ecef lat lon alt :
  valid_point rt lat lon alt = true ->
  exists x y z, to_ecef rt lat lon alt = Ok (x, y, z)
    /\ f_isfinite x = true /\ f_isfinite y = true /\ f_isfinite z = true.
Proof.
  unfold valid_point. destruct (to_ecef rt lat lon alt) as [[[x y] z]|]; [|discriminate].
  intros H. apply andb_prop in H as [H Hz]. apply andb_prop in H as [Hx Hy].
  now exists x, y, z.
Qed.

Lemma euclidean_swap lat1 lon1 alt1 lat2 lon2 alt2 :
  is_ok (to_ecef rt lat1 lon1 alt1) = true ->
  is_ok (to_ecef rt lat2 lon2 alt2) = true ->
  euclidean_km_from_latlonalt rt lat1 lon1 alt1 lat2 lon2 alt2 =
  euclidean_km_from_latlonalt rt lat2 lon2 alt2 lat1 lon1 alt1.
Proof.
  unfold euclidean_km_from_latlonalt.
  destruct (to_ecef rt lat1 lon1 alt1) as [[[x1 y1] z1]|]; [|discriminate].
  destruct (to_ecef rt lat2 lon2 alt2) as [[[x2 y2] z2]|]; [|discriminate].
  intros _ _. simpl.
  now rewrite (py_pow2_sub_swap x1 x2), (py_pow2_sub_swap y1 y2), (py_pow2_sub_swap z1 z2).
Qed.

Lemma euclidean_self lat lon alt :
  valid_point rt lat lon alt = true ->
  euclidean_km_from_latlonalt rt lat lon alt lat lon alt = Ok 0%float.
Proof.
  intros H. apply valid_point_ecef in H as (x & y & z & E & Hx & Hy & Hz).
  unfold euclidean_km_from_latlonalt. rewrite E. simpl.
  rewrite !sub_diag_finite by assumption.
  reflexivity.
Qed.

(** C3. For valid geodetic points A and B, the distance from A to B and the
    distance from B to A are the same outcome, and when that outcome is a
    number the two compare equal under Python's [==]; the distance from a
    valid point to itself is zero. *)
Theorem distance_symmetric_and_zero lat1 lon1 alt1 lat2 lon2 alt2 :
  valid_point rt lat1 lon1 alt1 = true ->
  valid_point rt lat2 lon2 alt2 = true ->
  euclidean_km_from_latlonalt rt lat1 lon1 alt1 lat2 lon2 alt2 =
    euclidean_km_from_latlonalt rt lat2 lon2 alt2 lat1 lon1 alt1
  /\ (forall d, euclidean_km_from_latlonalt rt lat1 lon1 alt1 lat2 lon2 alt2 = Ok d ->
        f_isnan d = false ->
        exists d', euclidean_km_from_latlonalt rt lat2 lon2 alt2 lat1 lon1 alt1 = Ok d'
                   /\ (d =? d')%float = true)
  /\ (exists d0, euclidean_km_from_latlonalt rt lat1 lon1 alt1 lat1 lon1 alt1 = Ok d0
                 /\ (d0 =? 0)%float = true).
Proof.
  intros H1 H2.
  assert (Hsw : euclidean_km_from_latlonalt rt lat1 lon1 alt1 lat2 lon2 alt2 =
                euclidean_km_from_latlonalt rt lat2 lon2 alt2 lat1 lon1 alt1).
  { apply euclidean_swap.
    - apply valid_point_ecef in H1 as (x & y & z & -> & _). reflexivity.
    - apply valid_point_ecef in H2 as (x & y & z & -> & _). reflexivity. }
  split; [exact Hsw|]. split.
  - intros d Hd Hnan. exists d. split; [now rewrite <- Hsw|].
    now apply eqb_refl_not_nan.
  - exists 0%float. split; [now apply euclidean_self|reflexivity].
Qed.

End Distance.

(** *** The proximity screen (conj.py) *)

Lemma index_pairs_S n :
  index_pairs (S n) =
  ((fun j => (O, S j)) <$> seq 0 n)
  ++ ((fun ij : nat * nat => (S ij.1, S ij.2)) <$> index_pairs n).
Proof.
  unfold index_pairs. rewrite <- cons_seq, bind_cons.
  f_equal.
  - rewrite Nat.sub_succ, Nat.sub_0_r, <- fmap_S_seq, <- list_fmap_compose.
    reflexivity.
  - rewrite <- fmap_S_seq, list_fmap_bind.
    induction (seq 0 n) as [|i l IH]; [reflexivity|].
    rewrite !bind_cons, fmap_app, IH. f_equal. simpl.
    rewrite <- fmap_S_seq, <- !list_fmap_compose. reflexivity.
Qed.

Lemma omap_fmap {A B C} (g : A -> B) (f : B -> option C) (l : list A) :
  omap f (g <$> l) = omap (fun x => f (g x)) l.
Proof.
  induction l as [|x l IH]; [reflexivity|].
  csimpl. rewrite IH. reflexivity.
Qed.

Lemma omap_lookup_seq {A B} (f : A -> B) (l : list A) :
  omap (fun j => f <$> l !! j) (seq 0 (length l)) = f <$> l.
Proof.
  induction l as [|x l IH]; [reflexivity|].
  simpl. f_equal. rewrite <- fmap_S_seq, omap_fmap. exact IH.
Qed.

Lemma pairs_of_cons {A} (a : A) (l : list A) :
  pairs_of (a :: l) = ((fun b => (a, b)) <$> l) ++ pairs_of l.
Proof.
  unfold pairs_of. simpl length. rewrite index_pairs_S, omap_app. f_equal.
  - rewrite omap_fmap. simpl. apply (omap_lookup_seq (fun b => (a, b))).
  - rewrite omap_fmap. reflexivity.
Qed.

Lemma elem_of_pairs_of {A} (l : list A) (a b : A) :
  (a, b) ∈ pairs_of l <->
  exists i j, (i < j)%nat /\ l !! i = Some a /\ l !! j = Some b.
Proof.
  induction l as [|x l IH].
  - split; [intros H; inversion H|]. intros (i & j & _ & H & _). discriminate.
  - rewrite pairs_of_cons, elem_of_app, list_elem_of_fmap, IH. split.
    + intros [(b' & E & Hb) | (i & j & Hij & Hi & Hj)].
      * inversion E; subst. apply list_elem_of_lookup in Hb as [j Hj].
        exists O, (S j). split; [lia|]. split; [reflexivity|exact Hj].
      * exists (S i), (S j). split; [lia|]. split; assumption.
    + intros (i & j & Hij & Hi & Hj).
      destruct j as [|j]; [lia|]. simpl in Hj.
      destruct i as [|i].
      * left. simpl in Hi. inversion Hi; subst. exists b. split; [reflexivity|].
        apply list_elem_of_lookup. now exists j.
      * right. exists i, j. split; [lia|]. split; assumption.
Qed.

Section Scan.
Variable rt : runtime.

Lemma scan_from_spec a later thr acc :
  coords_absent a = false ->
  forallb (fun b => (coords_absent b || is_ok (pair_distance rt a b))%bool) later = true ->
  scan_from rt a later thr acc = Ok (acc ++ (((fun b => (a, b)) <$> later) ≫= emit rt thr)).
Proof.
  intros Ha. revert acc. induction later as [|b later IH]; intros acc H.
  - simpl. now rewrite app_nil_r.
  - simpl in H. apply andb_prop in H as [Hb H].
    rewrite fmap_cons, bind_cons. simpl. rewrite Ha. simpl.
    destruct (coords_absent b) eqn:Eb.
    + simpl. now apply IH.
    + simpl in Hb. destruct (pair_distance rt a b) as [d|e]; [|discriminate].
      simpl. rewrite IH by assumption.
      destruct (d <=? thr)%float; simpl; [now rewrite <- app_assoc | reflexivity].
Qed.

Lemma emit_absent_l a later thr :
  coords_absent a = true -> ((fun b => (a, b)) <$> later) ≫= emit rt thr = [].
Proof.
  intros Ha. induction later as [|b later IH]; [reflexivity|].
  rewrite fmap_cons, bind_cons, IH. simpl. now rewrite Ha.
Qed.

Lemma scan_all_spec l thr acc :
  distances_defined rt l = true ->
  scan_all rt l thr acc = Ok (acc ++ close_pairs_spec rt l thr).
Proof.
  unfold distances_defined, close_pairs_spec. revert acc.
  induction l as [|a l IH]; intros acc H.
  - simpl. now rewrite app_nil_r.
  - rewrite pairs_of_cons in H |- *. rewrite forallb_app in H.
    apply andb_prop in H as [Ha H]. rewrite bind_app. simpl.
    destruct (coords_absent a) eqn:Ea.
    + rewrite emit_absent_l by assumption. simpl. now apply IH.
    + rewrite (scan_from_spec a l thr acc Ea).
      * simpl. rewrite IH by assumption. now rewrite <- app_assoc.
      * rewrite forallb_forall in Ha |- *. intros b Hb.
        specialize (Ha (a, b)). simpl in Ha. rewrite Ea in Ha. simpl in Ha.
        apply Ha. apply in_map_iff. now exists b.
Qed.

Lemma elem_of_close_pairs_spec l thr a b d :
  (a, b, d) ∈ close_pairs_spec rt l thr <->
  exists i j, (i < j)%nat /\ l !! i = Some a /\ l !! j = Some b
    /\ coords_absent a = false /\ coords_absent b = false
    /\ pair_distance rt a b = Ok d /\ (d <=? thr)%float = true.
Proof.
  unfold close_pairs_spec. rewrite list_elem_of_bind. split.
  - intros ([a' b'] & Hin & Hp). apply elem_of_pairs_of in Hp as (i & j & Hij & Hi & Hj).
    simpl in Hin.
    destruct (coords_absent a') eqn:Ea; [inversion Hin|].
    destruct (coords_absent b') eqn:Eb; [inversion Hin|]. simpl in Hin.
    destruct (pair_distance rt a' b') as [d'|] eqn:Ed; [|inversion Hin].
    destruct (d' <=? thr)%float eqn:El; [|inversion Hin].
    apply list_elem_of_singleton in Hin. inversion Hin; subst.
    exists i, j. repeat split; assumption.
  - intros (i & j & Hij & Hi & Hj & Ea & Eb & Ed & El).
    exists (a, b). split.
    + simpl. rewrite Ea, Eb, Ed, El. simpl. apply list_elem_of_singleton. reflexivity.
    + apply elem_of_pairs_of. now exists i, j.
Qed.

End Scan.

(** *** The catalog: references and merges (main.py) *)

(** Expose the sequencing of two programs. *)
Ltac unfold_bind := unfold mbind, prog_bind, pbind.

Lemma tracked_get_elem tr k l : tracked_get tr k = Some l -> (k, l) ∈ tr.
Proof.
  induction tr as [|[k' l'] tr IH]; simpl; [discriminate|].
  destruct (k' =? k) eqn:E.
  - intros [= ->]. apply Z.eqb_eq in E as ->. left.
  - intros H. right. auto.
Qed.

Lemma tracked_get_snoc tr k k' l' :
  tracked_get (tr ++ [(k', l')]) k =
  match tracked_get tr k with
  | Some l => Some l
  | None => if k' =? k then Some l' else None
  end.
Proof.
  induction tr as [|[k0 l0] tr IH]; simpl; [reflexivity|].
  destruct (k0 =? k); [reflexivity|exact IH].
Qed.

Lemma tracked_get_None tr k : tracked_get tr k = None <-> k ∉ tr.*1.
Proof.
  induction tr as [|[k' l'] tr IH]; simpl.
  - split; [intros _ H; inversion H|reflexivity].
  - destruct (k' =? k) eqn:E.
    + apply Z.eqb_eq in E as ->. split; [discriminate|]. intros H. exfalso. apply H. left.
    + apply Z.eqb_neq in E. rewrite IH, not_elem_of_cons. intuition congruence.
Qed.

Lemma wf_lookup st k l :
  wf_state st -> tracked_get (tracked st) k = Some l -> is_Some (heap st !! l).
Proof.
  intros [Hr _] H. apply tracked_get_elem in H.
  rewrite Forall_forall in Hr. apply lookup_lt_is_Some. exact (Hr _ H).
Qed.

Lemma tracked_get_inj st k1 k2 l :
  wf_state st ->
  tracked_get (tracked st) k1 = Some l -> tracked_get (tracked st) k2 = Some l -> k1 = k2.
Proof.
  intros [_ Hn] H1 H2. apply tracked_get_elem in H1, H2.
  apply list_elem_of_lookup in H1 as [i1 H1], H2 as [i2 H2].
  assert (i1 = i2) as ->.
  { eapply NoDup_lookup; [exact Hn| |]; rewrite list_lookup_fmap.
    - rewrite H1. reflexivity.
    - rewrite H2. reflexivity. }
  congruence.
Qed.

Lemma entry_of_None st k :
  wf_state st -> (entry_of st k = None <-> tracked_get (tracked st) k = None).
Proof.
  intros Hwf. unfold entry_of. destruct (tracked_get (tracked st) k) as [l|] eqn:E; simpl.
  - destruct (wf_lookup st k l Hwf E) as [d ->]. split; discriminate.
  - split; reflexivity.
Qed.

(** [tracked[satid].update(updates)] on a known id. *)
Lemma tracked_update_spec st satid updates old :
  wf_state st -> entry_of st satid = Some old ->
  exists st', tracked_update satid updates st = (st', Ok tt)
    /\ wf_state st'
    /\ tracked st' = tracked st
    /\ length (heap st') = length (heap st)
    /\ clients st' = clients st
    /\ entry_of st' satid = Some (updates ∪ old)
    /\ forall k, k <> satid -> entry_of st' k = entry_of st k.
Proof.
  intros Hwf H. unfold entry_of in H. unfold tracked_update.
  destruct (tracked_get (tracked st) satid) as [l|] eqn:E; [|discriminate].
  simpl in H. eexists. split; [reflexivity|].
  assert (Hlen : length (alter (fun d => updates ∪ d) l (heap st)) = length (heap st))
    by apply length_alter.
  split; [|split; [reflexivity|split; [exact Hlen|split; [reflexivity|split]]]].
  - destruct Hwf as [Hr Hn]. split; [|exact Hn]. simpl. now rewrite Hlen.
  - unfold entry_of. simpl. rewrite E. simpl.
    rewrite list_lookup_alter_eq, H. reflexivity.
  - intros k Hk. unfold entry_of. simpl.
    destruct (tracked_get (tracked st) k) as [l'|] eqn:E'; [|reflexivity]. simpl.
    apply list_lookup_alter_ne. intros ->. apply Hk. symmetry.
    eapply tracked_get_inj; eauto.
Qed.

(** [tracked.setdefault(satid, {})]: afterwards the id has an entry. *)
Lemma setdefault_empty_spec st satid :
  wf_state st ->
  exists st', setdefault_empty satid st = (st', Ok tt)
    /\ wf_state st'
    /\ clients st' = clients st
    /\ entry_of st' satid = Some (default ∅ (entry_of st satid))
    /\ (forall k, k <> satid -> entry_of st' k = entry_of st k)
    /\ (tracked_get (tracked st) satid = None ->
          tracked st' = tracked st ++ [(satid, length (heap st))])
    /\ (is_Some (tracked_get (tracked st) satid) -> st' = st).
Proof.
  intros Hwf. unfold setdefault_empty.
  destruct (tracked_get (tracked st) satid) as [l|] eqn:E.
  - exists st. split; [reflexivity|]. split; [exact Hwf|]. split; [reflexivity|].
    split; [|split; [reflexivity|split; [discriminate|reflexivity]]].
    unfold entry_of. rewrite E. simpl.
    destruct (wf_lookup st satid l Hwf E) as [d ->]. reflexivity.
  - eexists. split; [reflexivity|].
    assert (Hfresh : length (heap st) ∉ (tracked st).*2).
    { intros Hin. apply list_elem_of_fmap in Hin as ([k l] & Heq & Hin).
      destruct Hwf as [Hr _]. rewrite Forall_forall in Hr.
      specialize (Hr _ Hin). simpl in Hr, Heq. lia. }
    split; [|split; [reflexivity|split; [|split; [|split; [reflexivity|]]]]].
    + destruct Hwf as [Hr Hn]. split; simpl.
      * rewrite length_app. simpl. apply Forall_app. split.
        -- eapply Forall_impl; [exact Hr|]. simpl. intros; lia.
        -- constructor; [simpl; lia|constructor].
      * rewrite fmap_app. apply NoDup_app. split; [exact Hn|]. split.
        -- intros x Hx Hx'. simpl in Hx'. apply list_elem_of_singleton in Hx'. now subst.
        -- simpl. apply NoDup_singleton.
    + unfold entry_of. simpl. rewrite tracked_get_snoc, E, Z.eqb_refl. simpl.
      apply list_lookup_middle. reflexivity.
    + intros k Hk. unfold entry_of. simpl. rewrite tracked_get_snoc.
      destruct (tracked_get (tracked st) k) as [l'|] eqn:E'; simpl.
      * apply lookup_app_l. destruct (wf_lookup st k l' Hwf E') as [d Hd].
        eapply lookup_lt_Some; eauto.
      * apply Z.eqb_neq in Hk. rewrite Z.eqb_sym, Hk. reflexivity.
    + intros [? [=]].
Qed.

(** The catalog merge never fails; it leaves a well-formed state in which
    the entry of the id is the update laid over what was known (nothing for
    an unseen id) and every other entry is as before. *)
Lemma merge_spec st satid updates :
  wf_state st ->
  exists st', merge satid updates st = (st', Ok tt)
    /\ wf_state st'
    /\ clients st' = clients st
    /\ entry_of st' satid = Some (updates ∪ default ∅ (entry_of st satid))
    /\ forall k, k <> satid -> entry_of st' k = entry_of st k.
Proof.
  intros Hwf.
  destruct (setdefault_empty_spec st satid Hwf) as (st1 & E1 & Hwf1 & Hc1 & He1 & Ho1 & _).
  destruct (tracked_update_spec st1 satid updates _ Hwf1 He1)
    as (st2 & E2 & Hwf2 & _ & _ & Hc2 & He2 & Ho2).
  exists st2. unfold merge, mbind, prog_bind, pbind. rewrite E1, E2.
  split; [reflexivity|]. split; [exact Hwf2|]. split; [congruence|]. split; [exact He2|].
  intros k Hk. rewrite Ho2, Ho1 by exact Hk. reflexivity.
Qed.

(** The guarded merge does the same on a known id and nothing on an unseen one. *)
Lemma merge_existing_known st satid updates :
  is_Some (tracked_get (tracked st) satid) ->
  merge_existing satid updates st = merge satid updates st.
Proof.
  intros [l E]. unfold merge_existing, tracked_mem, merge, mbind, prog_bind, pbind,
    setdefault_empty. rewrite E. reflexivity.
Qed.

Lemma merge_existing_unseen st satid updates :
  tracked_get (tracked st) satid = None ->
  merge_existing satid updates st = (st, Ok tt).
Proof. intros E. unfold merge_existing, tracked_mem. now rewrite E. Qed.

(** C2. Two merges on one id whose field sets are disjoint apart from the
    timestamp leave an entry holding every field of both, with the timestamp
    of the second call; the second merge may as well be the guarded one of the
    per-object refresh. A merge on an unseen id creates an entry with exactly
    the supplied fields. *)
Theorem merge_twice_union st satid (u1 u2 : dict) (t2 : float) :
  wf_state st ->
  (forall k, k <> "last_update" -> u1 !! k = None \/ u2 !! k = None) ->
  u2 !! "last_update" = Some (PFloat t2) ->
  exists st1 st2 e,
    merge satid u1 st = (st1, Ok tt)
    /\ merge satid u2 st1 = (st2, Ok tt)
    /\ merge_existing satid u2 st1 = (st2, Ok tt)
    /\ entry_of st2 satid = Some e
    /\ (forall k v, k <> "last_update" -> u1 !! k = Some v -> e !! k = Some v)
    /\ (forall k v, u2 !! k = Some v -> e !! k = Some v)
    /\ e !! "last_update" = Some (PFloat t2)
    /\ (entry_of st satid = None -> entry_of st1 satid = Some u1 /\ e = u2 ∪ u1).
Proof.
  intros Hwf Hdisj Ht2.
  destruct (merge_spec st satid u1 Hwf) as (st1 & E1 & Hwf1 & _ & He1 & _).
  destruct (merge_spec st1 satid u2 Hwf1) as (st2 & E2 & Hwf2 & _ & He2 & _).
  exists st1, st2, (u2 ∪ (u1 ∪ default ∅ (entry_of st satid))).
  split; [exact E1|]. split; [exact E2|]. split.
  { rewrite merge_existing_known; [exact E2|].
    destruct (tracked_get (tracked st1) satid) eqn:E; [eauto|].
    apply (entry_of_None st1 satid Hwf1) in E. congruence. }
  split; [rewrite He2, He1; reflexivity|]. split; [|split; [|split]].
  - intros k v Hk Hv. destruct (Hdisj k Hk) as [H|H]; [congruence|].
    rewrite lookup_union_r by exact H. now apply lookup_union_Some_l.
  - intros k v Hv. now apply lookup_union_Some_l.
  - now apply lookup_union_Some_l.
  - intros Hnone. rewrite He1, Hnone. simpl. now rewrite (right_id_L ∅ (∪)).
Qed.

(** *** The per-object refresh (main.py, [positions_loop]) *)

Section Refresh.
Variable rt : runtime.

Lemma position_updates_fields latest now updates :
  position_updates rt latest now = Ok updates ->
  updates !! "last_update" = Some (PFloat now)
  /\ (forall k, is_Some (updates !! k) <-> k ∈ position_fields).
Proof.
  unfold position_updates.
  destruct (float_or_None rt latest "satlatitude") as [lat|]; [|discriminate].
  destruct (float_or_None rt latest "satlongitude") as [lng|]; [|discriminate].
  simpl.
  destruct (py_get_or latest "sataltitude" (PFloat 0)) as [v|]; [|discriminate].
  simpl. destruct (py_float rt v) as [alt|]; [|discriminate].
  simpl. intros [= <-]. split; [reflexivity|].
  intros k. unfold position_fields. simpl.
  rewrite !lookup_insert_is_Some, lookup_empty, !elem_of_cons, elem_of_nil.
  split.
  - intros H. repeat (destruct H as [H|[_ H]]; [auto|]). now destruct H.
  - intros H.
    destruct (decide ("satlat" = k)); [auto|right; split; [assumption|]].
    destruct (decide ("satlng" = k)); [auto|right; split; [assumption|]].
    destruct (decide ("satalt" = k)); [auto|right; split; [assumption|]].
    destruct (decide ("last_update" = k)); [auto|].
    exfalso. intuition congruence.
Qed.

(** What a successful [update_position] returns: the id it was called with,
    and the dictionary built from the first element of ["positions"]; the
    state is not touched. *)
Lemma update_position_Some net now satid st st1 satid' updates :
  update_position rt net now satid st = (st1, Some (satid', updates)) ->
  st1 = st /\ satid' = satid
  /\ exists resp pos_arr latest,
       net satid = NetReturns resp
       /\ py_get_or resp "positions" (PList []) = Ok pos_arr
       /\ py_index0 pos_arr = Ok latest
       /\ position_updates rt latest now = Ok updates.
Proof.
  unfold update_position. destruct (net satid) as [|resp]; [intros [=]|].
  destruct (has_error_payload resp).
  { destruct resp; intros [=]. }
  unfold position_result.
  destruct (py_get_or resp "positions" (PList [])) as [pos_arr|] eqn:Ep; [|intros [=]].
  simpl. destruct (py_truthy pos_arr); [|intros [=]].
  destruct (py_index0 pos_arr) as [latest|] eqn:El; [|intros [=]].
  simpl. destruct (position_updates rt latest now) as [u|] eqn:Eu; [|intros [=]].
  simpl. intros [= <- <- <-]. split; [reflexivity|]. split; [reflexivity|].
  now exists resp, pos_arr, latest.
Qed.

(** What [float(v) if v is not None else None] leaves for a field of a
    position, in terms of the dictionary read and the conversion. *)
Lemma float_or_None_value latest k r :
  float_or_None rt latest k = Ok r ->
  exists v, py_get latest k = Ok v
    /\ if is_None v then r = PNone
       else exists f, py_float rt v = Ok f /\ r = PFloat f.
Proof.
  unfold float_or_None.
  destruct (py_get latest k) as [v|] eqn:Ev; [|discriminate]. cbn [mbind res_bind].
  intros H. exists v. split; [reflexivity|]. revert H.
  destruct (is_None v); [now intros [= <-]|].
  destruct (py_float rt v) as [f|]; [|discriminate].
  cbn [mbind res_bind]. intros [= <-]. now exists f.
Qed.

Lemma position_updates_values latest now updates :
  position_updates rt latest now = Ok updates ->
  exists vlat vlng valt alt,
    py_get latest "satlatitude" = Ok vlat
    /\ py_get latest "satlongitude" = Ok vlng
    /\ py_get_or latest "sataltitude" (PFloat 0) = Ok valt
    /\ (if is_None vlat then updates !! "satlat" = Some PNone
        else exists f, py_float rt vlat = Ok f /\ updates !! "satlat" = Some (PFloat f))
    /\ (if is_None vlng then updates !! "satlng" = Some PNone
        else exists f, py_float rt vlng = Ok f /\ updates !! "satlng" = Some (PFloat f))
    /\ py_float rt valt = Ok alt
    /\ updates !! "satalt" = Some (PFloat alt)
    /\ updates !! "last_update" = Some (PFloat now).
Proof.
  unfold position_updates.
  destruct (float_or_None rt latest "satlatitude") as [lat|] eqn:Elat; [|discriminate].
  destruct (float_or_None rt latest "satlongitude") as [lng|] eqn:Elng; [|discriminate].
  cbn [mbind res_bind].
  destruct (py_get_or latest "sataltitude" (PFloat 0)) as [valt|] eqn:Ev; [|discriminate].
  cbn [mbind res_bind]. destruct (py_float rt valt) as [alt|] eqn:Ea; [|discriminate].
  cbn [mbind res_bind]. intros [= <-].
  destruct (float_or_None_value _ _ _ Elat) as (vlat & Hvlat & Hlat).
  destruct (float_or_None_value _ _ _ Elng) as (vlng & Hvlng & Hlng).
  exists vlat, vlng, valt, alt.
  split; [exact Hvlat|]. split; [exact Hvlng|]. split; [reflexivity|].
  split; [|split; [|split; [exact Ea|split; reflexivity]]].
  - destruct (is_None vlat); [now subst|].
    destruct Hlat as (f & Hf & ->). now exists f.
  - destruct (is_None vlng); [now subst|].
    destruct Hlng as (f & Hf & ->). now exists f.
Qed.

(** C7, as the code has it. A successful position fetch for a catalogued
    object yields the id and a dictionary of exactly four keys, read off the
    first reported position: [satlat] and [satlng] are [float()] of its
    [satlatitude] and [satlongitude], or [None] where the position lacks the
    field or holds [None]; [satalt] is [float()] of its [sataltitude], of
    [0.0] where the position lacks it; [last_update] is the clock reading of
    the pass. Applying it sets those four keys of that object's entry to
    these values, whatever they held (so a position without a latitude
    replaces a known latitude by [None]), and changes nothing else: the other
    keys (name, category, id) keep their values, the other entries are
    untouched and no entry is created. *)
Theorem refresh_updates_position_only net now satid st st1 satid' updates old :
  wf_state st ->
  entry_of st satid = Some old ->
  update_position rt net now satid st = (st1, Some (satid', updates)) ->
  st1 = st /\ satid' = satid
  /\ (exists resp pos_arr latest vlat vlng valt alt,
        net satid = NetReturns resp
        /\ py_get_or resp "positions" (PList []) = Ok pos_arr
        /\ py_index0 pos_arr = Ok latest
        /\ py_get latest "satlatitude" = Ok vlat
        /\ py_get latest "satlongitude" = Ok vlng
        /\ py_get_or latest "sataltitude" (PFloat 0) = Ok valt
        /\ (if is_None vlat then updates !! "satlat" = Some PNone
            else exists f, py_float rt vlat = Ok f /\ updates !! "satlat" = Some (PFloat f))
        /\ (if is_None vlng then updates !! "satlng" = Some PNone
            else exists f, py_float rt vlng = Ok f /\ updates !! "satlng" = Some (PFloat f))
        /\ py_float rt valt = Ok alt
        /\ updates !! "satalt" = Some (PFloat alt))
  /\ updates !! "last_update" = Some (PFloat now)
  /\ (forall k, is_Some (updates !! k) <-> k ∈ position_fields)
  /\ exists st2 new,
       apply_result (Some (satid', updates)) st1 = (st2, Ok tt)
       /\ entry_of st2 satid = Some new
       /\ (forall k, k ∈ position_fields -> new !! k = updates !! k)
       /\ (forall k, k ∉ position_fields -> new !! k = old !! k)
       /\ new !! "satname" = old !! "satname"
       /\ new !! "category" = old !! "category"
       /\ (forall k, k <> satid -> entry_of st2 k = entry_of st k)
       /\ tracked st2 = tracked st.
Proof.
  intros Hwf Hold Hup.
  apply update_position_Some in Hup as (-> & -> & resp & pos_arr & latest & Hn & Hp & Hl & Hu).
  destruct (position_updates_fields _ _ _ Hu) as [Hts Hdom].
  destruct (position_updates_values _ _ _ Hu)
    as (vlat & vlng & valt & alt & H1 & H2 & H3 & H4 & H5 & H6 & H7 & _).
  split; [reflexivity|]. split; [reflexivity|].
  split; [exists resp, pos_arr, latest, vlat, vlng, valt, alt; auto 12|].
  split; [exact Hts|]. split; [exact Hdom|].
  destruct (tracked_update_spec st satid updates old Hwf Hold)
    as (st2 & E2 & Hwf2 & Htr & _ & _ & He2 & Ho2).
  assert (Hnot : forall k, k ∉ position_fields -> (updates ∪ old) !! k = old !! k).
  { intros k Hk. apply lookup_union_r.
    destruct (updates !! k) eqn:E; [|reflexivity].
    exfalso. apply Hk, Hdom. eauto. }
  exists st2, (updates ∪ old). split.
  { simpl. unfold merge_existing, tracked_mem.
    destruct (tracked_get (tracked st) satid) eqn:E; [exact E2|].
    apply (entry_of_None st satid Hwf) in E. congruence. }
  split; [exact He2|]. split; [|split; [exact Hnot|split; [|split; [|split]]]].
  - intros k Hk. apply Hdom in Hk as [v Hv].
    rewrite Hv. now apply lookup_union_Some_l.
  - apply Hnot. unfold position_fields. rewrite !elem_of_cons, elem_of_nil.
    intuition discriminate.
  - apply Hnot. unfold position_fields. rewrite !elem_of_cons, elem_of_nil.
    intuition discriminate.
  - exact Ho2.
  - exact Htr.
Qed.

End Refresh.

Section RefreshPass.
Variable rt : runtime.

Lemma refresh_frame_refl st : wf_state st -> refresh_frame st st.
Proof. intros Hwf. split; [exact Hwf|]. split; [reflexivity|]. eauto. Qed.

Lemma refresh_frame_trans st1 st2 st3 :
  refresh_frame st1 st2 -> refresh_frame st2 st3 -> refresh_frame st1 st3.
Proof.
  intros (_ & Ht1 & He1) (Hwf & Ht2 & He2). split; [exact Hwf|].
  split; [congruence|]. intros satid old Hold.
  destruct (He1 _ _ Hold) as (mid & Hmid & Hk1).
  destruct (He2 _ _ Hmid) as (new & Hnew & Hk2).
  exists new. split; [exact Hnew|]. intros k Hk. rewrite Hk2, Hk1 by exact Hk. reflexivity.
Qed.

Lemma with_error_frame e st : wf_state st -> refresh_frame st (with_error e st).
Proof.
  intros Hwf. split; [exact Hwf|]. split; [reflexivity|].
  intros satid old Hold. exists old. split; [exact Hold|reflexivity].
Qed.

Lemma update_position_frame net now satid st :
  wf_state st ->
  refresh_frame st (update_position rt net now satid st).1
  /\ position_result_ok (update_position rt net now satid st).2.
Proof.
  intros Hwf.
  destruct (update_position rt net now satid st) as [st1 [[satid' u]|]] eqn:E.
  - apply update_position_Some in E as (-> & -> & resp & pos_arr & latest & _ & _ & _ & Hu).
    split; [now apply refresh_frame_refl|]. simpl.
    intros k Hk. now apply (position_updates_fields rt _ _ _ Hu).
  - split; [|exact I]. simpl. unfold update_position in E.
    destruct (net satid) as [|resp]; [injection E as <-; now apply refresh_frame_refl|].
    destruct (has_error_payload resp).
    + destruct resp; injection E as <-;
        first [now apply with_error_frame | now apply refresh_frame_refl].
    + destruct (position_result rt resp now satid) as [r|];
        injection E as <-; now apply refresh_frame_refl.
Qed.

Lemma apply_result_frame r st :
  wf_state st -> position_result_ok r ->
  exists st', apply_result r st = (st', Ok tt) /\ refresh_frame st st'.
Proof.
  intros Hwf Hr. destruct r as [[satid u]|]; simpl.
  - destruct (tracked_get (tracked st) satid) as [l|] eqn:E.
    + destruct (wf_lookup st satid l Hwf E) as [old Hold].
      assert (He : entry_of st satid = Some old) by (unfold entry_of; now rewrite E).
      destruct (tracked_update_spec st satid u old Hwf He)
        as (st' & E' & Hwf' & Htr & _ & _ & Hnew & Hother).
      exists st'. split.
      { unfold merge_existing, tracked_mem. now rewrite E. }
      split; [exact Hwf'|]. split; [exact Htr|].
      intros k old' Hold'. destruct (decide (k = satid)) as [->|Hne].
      * exists (u ∪ old). split; [exact Hnew|]. intros f Hf.
        assert (old' = old) as -> by congruence.
        apply lookup_union_r. destruct (u !! f) eqn:Eu; [|reflexivity].
        exfalso. apply Hf, Hr. eauto.
      * exists old'. split; [now rewrite Hother|reflexivity].
    + exists st. split; [now apply merge_existing_unseen|now apply refresh_frame_refl].
  - exists st. split; [reflexivity|now apply refresh_frame_refl].
Qed.

Lemma gather_positions_frame net now batch st :
  wf_state st ->
  refresh_frame st (gather_positions rt net now batch st).1
  /\ Forall position_result_ok (gather_positions rt net now batch st).2.
Proof.
  revert st. induction batch as [|satid batch IH]; intros st Hwf; simpl.
  - split; [now apply refresh_frame_refl|constructor].
  - destruct (update_position_frame net now satid st Hwf) as [Hf Hr].
    destruct (update_position rt net now satid st) as [st1 r]. simpl in Hf, Hr.
    destruct (IH st1 (proj1 Hf)) as [Hf' Hrs].
    destruct (gather_positions rt net now batch st1) as [st2 rs]. simpl in *.
    split; [eapply refresh_frame_trans; eauto|now constructor].
Qed.

Lemma for_each_apply_frame rs st :
  wf_state st -> Forall position_result_ok rs ->
  exists st', for_each apply_result rs st = (st', Ok tt) /\ refresh_frame st st'.
Proof.
  intros Hwf Hrs. revert st Hwf. induction Hrs as [|r rs Hr _ IH]; intros st Hwf.
  - exists st. split; [reflexivity|now apply refresh_frame_refl].
  - destruct (apply_result_frame r st Hwf Hr) as (st1 & E1 & Hf1).
    destruct (IH st1 (proj1 Hf1)) as (st2 & E2 & Hf2).
    exists st2. split; [|eapply refresh_frame_trans; eauto].
    simpl. unfold_bind. now rewrite E1.
Qed.

Lemma position_batches_frame net now sats batch_size starts st :
  wf_state st ->
  exists st', position_batches rt net now sats batch_size starts st = (st', Ok tt)
    /\ refresh_frame st st'.
Proof.
  revert st. induction starts as [|i starts IH]; intros st Hwf.
  - exists st. split; [reflexivity|now apply refresh_frame_refl].
  - simpl.
    destruct (gather_positions_frame net now (take batch_size (drop i sats)) st Hwf)
      as [Hf Hrs].
    destruct (gather_positions rt net now (take batch_size (drop i sats)) st)
      as [st1 results]. simpl in Hf, Hrs.
    destruct (for_each_apply_frame results st1 (proj1 Hf) Hrs) as (st2 & E2 & Hf2).
    destruct (IH st2 (proj1 Hf2)) as (st3 & E3 & Hf3).
    exists st3. split.
    + unfold_bind. now rewrite E2.
    + eapply refresh_frame_trans; [exact Hf|].
      eapply refresh_frame_trans; eauto.
Qed.

(** X3. A whole refresh pass, whatever the network answers: it ends normally,
    creates and removes no entry, and leaves every key outside
    [position_fields] of every entry as it was. *)
Theorem positions_pass_frame net now st :
  wf_state st ->
  exists st', positions_pass rt net now st = (st', Ok tt) /\ refresh_frame st st'.
Proof. intros Hwf. unfold positions_pass. now apply position_batches_frame. Qed.

End RefreshPass.

(** *** The broadcast tick (main.py, [broadcast_snapshot]) *)

Section Broadcast.
Variable rt : runtime.

Lemma send_loop_spec send p targets dead sent :
  send_loop send p targets dead sent =
  (dead ++ filter (fun ws => send ws p = false) targets,
   sent ++ filter (fun ws => send ws p = true) targets).
Proof.
  revert dead sent. induction targets as [|ws rest IH]; intros dead sent.
  - simpl. now rewrite !app_nil_r.
  - simpl. rewrite !filter_cons.
    destruct (send ws p) eqn:E; rewrite IH; repeat case_decide; try congruence;
      now rewrite <- app_assoc.
Qed.

Lemma elem_of_discard_all dead (c : gset nat) ws :
  ws ∈ discard_all dead c <-> ws ∈ c /\ ws ∉ dead.
Proof.
  revert c. induction dead as [|d dead IH]; intros c; simpl.
  - rewrite elem_of_nil. tauto.
  - rewrite IH, elem_of_difference, elem_of_singleton, not_elem_of_cons. tauto.
Qed.

(** C8. In a tick whose payload was built, every subscriber whose own send
    succeeds receives that payload exactly once, whatever happens to the
    sends of the others, and afterwards the subscriber set holds exactly the
    subscribers whose send succeeded: each failing one has been removed. *)
Theorem broadcast_failure_isolated send stamp st p :
  snapshot_payload rt stamp st = Ok p ->
  (forall ws, ws ∈ clients st -> send ws p = true ->
     (ws, p) ∈ (broadcast_tick rt send stamp st).2)
  /\ (forall ws q, (ws, q) ∈ (broadcast_tick rt send stamp st).2 ->
        q = p /\ ws ∈ clients st /\ send ws p = true)
  /\ NoDup (broadcast_tick rt send stamp st).2
  /\ (forall ws, ws ∈ clients (broadcast_tick rt send stamp st).1 <->
        ws ∈ clients st /\ send ws p = true)
  /\ (forall ws, ws ∈ clients st -> send ws p = false ->
        ws ∉ clients (broadcast_tick rt send stamp st).1).
Proof.
  intros Hp. unfold broadcast_tick. rewrite Hp, send_loop_spec. simpl.
  assert (Hmem : forall ws, ws ∈ clients (with_clients
             (discard_all (filter (fun ws => send ws p = false) (elements (clients st)))
                (clients st)) st) <-> ws ∈ clients st /\ send ws p = true).
  { intros ws. simpl. rewrite elem_of_discard_all, list_elem_of_filter, elem_of_elements.
    destruct (send ws p); intuition congruence. }
  split; [|split; [|split; [|split]]].
  - intros ws Hin Hs. apply list_elem_of_fmap. exists ws. split; [reflexivity|].
    apply list_elem_of_filter. split; [exact Hs|]. now apply elem_of_elements.
  - intros ws q Hin. apply list_elem_of_fmap in Hin as (ws' & [= -> ->] & Hin).
    apply list_elem_of_filter in Hin as [Hs Hin]. apply elem_of_elements in Hin. auto.
  - apply NoDup_fmap_2; [intros x y [=]; assumption|].
    apply NoDup_filter, NoDup_elements.
  - exact Hmem.
  - intros ws Hin Hs Hc. apply Hmem in Hc as [_ Hc]. congruence.
Qed.

End Broadcast.

(** *** The fetch schedule of the regional sweep (main.py, [tracker_loop]) *)

Lemma range_from_spec fuel start stop step :
  (0 < step)%nat -> (stop <= start + fuel * step)%nat ->
  forall i, i ∈ range_from fuel start stop step <->
    (i < stop)%nat /\ exists k, i = (start + k * step)%nat.
Proof.
  intros Hstep. revert start. induction fuel as [|fuel IH]; intros start Hfuel i; simpl.
  - rewrite elem_of_nil. split; [tauto|]. intros [Hi [k ->]]. nia.
  - destruct (start <? stop)%nat eqn:E.
    + apply Nat.ltb_lt in E. rewrite elem_of_cons, IH by lia. split.
      * intros [-> | [Hi [k ->]]].
        -- split; [exact E|]. exists O. lia.
        -- split; [exact Hi|]. exists (S k). lia.
      * intros [Hi [k ->]]. destruct k as [|k]; [left; lia|].
        right. split; [exact Hi|]. exists k. lia.
    + apply Nat.ltb_ge in E. rewrite elem_of_nil. split; [tauto|].
      intros [Hi [k ->]]. nia.
Qed.

(** The fuel of [py_range] is enough: for a positive step it lists exactly
    the multiples of the step below the bound. *)
Lemma py_range_spec stop step :
  (0 < step)%nat ->
  forall i, i ∈ py_range 0 stop step <-> (i < stop)%nat /\ exists k, i = (k * step)%nat.
Proof.
  intros Hstep i. unfold py_range. rewrite range_from_spec by nia. reflexivity.
Qed.

Lemma peak_in_flight_app cur evs1 evs2 :
  peak_in_flight cur (evs1 ++ evs2) =
  Nat.max (peak_in_flight cur evs1) (peak_in_flight (final_in_flight cur evs1) evs2).
Proof.
  revert cur. induction evs1 as [|e evs1 IH]; intros cur; simpl.
  - destruct evs2; simpl; lia.
  - rewrite IH. unfold final_in_flight. simpl. lia.
Qed.

Lemma final_in_flight_app cur evs1 evs2 :
  final_in_flight cur (evs1 ++ evs2) = final_in_flight (final_in_flight cur evs1) evs2.
Proof. unfold final_in_flight. apply foldl_app. Qed.

Lemma final_in_flight_cons cur e evs :
  final_in_flight cur (e :: evs) = final_in_flight (in_flight_step cur e) evs.
Proof. reflexivity. Qed.

Lemma issue_all k batch cur :
  final_in_flight cur (EvIssue k <$> batch) = (cur + length batch)%nat
  /\ peak_in_flight cur (EvIssue k <$> batch) = (cur + length batch)%nat.
Proof.
  revert cur. induction batch as [|s batch IH]; intros cur.
  - split; simpl; [unfold final_in_flight; simpl|]; lia.
  - destruct (IH (S cur)) as [H1 H2].
    rewrite fmap_cons, final_in_flight_cons. cbn [peak_in_flight in_flight_step].
    rewrite H1, H2. simpl. lia.
Qed.

Lemma done_all k batch cur :
  final_in_flight cur (EvDone k <$> batch) = (cur - length batch)%nat
  /\ peak_in_flight cur (EvDone k <$> batch) = cur.
Proof.
  revert cur. induction batch as [|s batch IH]; intros cur.
  - split; simpl; [unfold final_in_flight; simpl|]; lia.
  - destruct (IH (pred cur)) as [H1 H2].
    rewrite fmap_cons, final_in_flight_cons. cbn [peak_in_flight in_flight_step].
    rewrite H1, H2. simpl. lia.
Qed.

(** One group starts and ends with nothing in flight and peaks at its size. *)
Lemma group_events_in_flight batch :
  final_in_flight 0 (group_events batch) = O
  /\ peak_in_flight 0 (group_events batch) = length batch.
Proof.
  unfold group_events.
  destruct (issue_all FetchGeo batch 0) as [F1 P1].
  destruct (done_all FetchGeo batch (length batch)) as [F2 P2].
  destruct (issue_all FetchAll batch 0) as [F3 P3].
  destruct (done_all FetchAll batch (length batch)) as [F4 P4].
  simpl in F1, P1, F3, P3. rewrite Nat.sub_diag in F2, F4.
  repeat rewrite ?final_in_flight_app, ?peak_in_flight_app.
  repeat rewrite ?F1, ?P1, ?F2, ?P2, ?F3, ?P3, ?F4, ?P4.
  split; [reflexivity|lia].
Qed.

Section Schedule.
Variable net : fetch_kind -> seed -> net_outcome.

Lemma gather_events k batch : (gather net k batch).1 = (EvIssue k <$> batch) ++ (EvDone k <$> batch).
Proof. reflexivity. Qed.

(** The trace of a sweep is the trace of its groups, one after the other,
    with a pause after each group but the last. *)
Lemma fetch_batches_events seeds cap starts acc :
  events (fetch_batches net seeds cap starts acc) =
  events acc ++ schedule seeds cap starts.
Proof.
  unfold schedule. revert acc. induction starts as [|i starts IH]; intros acc.
  - simpl. now rewrite app_nil_r.
  - rewrite bind_cons. cbn [fetch_batches gather]. rewrite IH. cbn [events].
    unfold group_events. now rewrite <- !app_assoc.
Qed.

Lemma schedule_cons seeds cap i starts :
  schedule seeds cap (i :: starts) =
  group_events (take cap (drop i seeds))
  ++ (if (i + cap <? length seeds)%nat then [EvSleep] else [])
  ++ schedule seeds cap starts.
Proof. unfold schedule. rewrite bind_cons. now rewrite <- app_assoc. Qed.

Lemma schedule_in_flight seeds cap starts :
  final_in_flight 0 (schedule seeds cap starts) = O
  /\ (peak_in_flight 0 (schedule seeds cap starts) <= cap)%nat.
Proof.
  induction starts as [|i starts [IHf IHp]].
  - split; [reflexivity|simpl; lia].
  - destruct (group_events_in_flight (take cap (drop i seeds))) as [F P].
    assert (length (take cap (drop i seeds)) <= cap)%nat by (rewrite length_take; lia).
    rewrite schedule_cons.
    repeat rewrite ?final_in_flight_app, ?peak_in_flight_app.
    rewrite ?F, ?P.
    destruct (i + cap <? length seeds)%nat.
    + change (final_in_flight 0 [EvSleep]) with O.
      change (peak_in_flight 0 [EvSleep]) with O. split; [exact IHf|lia].
    + change (final_in_flight 0 []) with O.
      change (peak_in_flight 0 []) with O. split; [exact IHf|lia].
Qed.

(** X1. Whatever the region list and the cap, a sweep never has more fetches
    in flight than the cap, and ends with none. *)
Lemma fetch_phase_in_flight seeds cap :
  final_in_flight 0 (events (fetch_phase net seeds cap)) = O
  /\ (peak_in_flight 0 (events (fetch_phase net seeds cap)) <= cap)%nat.
Proof.
  unfold fetch_phase. rewrite fetch_batches_events. cbn [events app].
  apply schedule_in_flight.
Qed.

End Schedule.

Section SweepSchedule.
Variable rt : runtime.

(** The fetches of a pass do not depend on what the network answers. *)
Lemma tracker_pass_events net now st :
  (tracker_pass rt net now st).1.2 =
  schedule ABOVE_SEEDS MAX_PARALLEL_REQUESTS
    (py_range 0 (length ABOVE_SEEDS) MAX_PARALLEL_REQUESTS).
Proof.
  unfold tracker_pass.
  match goal with |- context [let '(_, _) := ?x in _] => destruct x as [st1 r] end.
  cbn [fst snd].
  unfold fetch_phase. now rewrite fetch_batches_events.
Qed.

(** Every pass of the loop runs, and issues the full schedule, however the
    passes before it ended. *)
Lemma tracker_loop_events passes st :
  length (tracker_loop rt passes st).2 = length passes
  /\ Forall (fun evs => evs = schedule ABOVE_SEEDS MAX_PARALLEL_REQUESTS
                             (py_range 0 (length ABOVE_SEEDS) MAX_PARALLEL_REQUESTS))
            (tracker_loop rt passes st).2.
Proof.
  revert st. induction passes as [|[net now] passes IH]; intros st; simpl.
  - split; [reflexivity|constructor].
  - pose proof (tracker_pass_events net now st) as He.
    destruct (tracker_pass rt net now st) as [[st1 evs] r]. cbn [fst snd] in He.
    specialize (IH st1). destruct (tracker_loop rt passes st1) as [st2 later].
    cbn [fst snd] in *. destruct IH as [IHl IHf]. split; [simpl; now rewrite IHl|].
    constructor; assumption.
Qed.

(** C9. A pass over the 6 query regions with the cap of 4 visits the start
    positions 0 and 4: it issues the fetches of the first 4 regions (the GEO
    fetches awaited together, then the unfiltered ones), pauses, and only
    then issues those of the last 2 regions. No fetch of the second group
    starts while one of the first is in flight, and at no point are more than
    4 fetches in flight. *)
Theorem sweep_issues_two_groups net now st :
  py_range 0 (length ABOVE_SEEDS) MAX_PARALLEL_REQUESTS = [0; 4]%nat
  /\ (tracker_pass rt net now st).1.2 =
       group_events (take 4 ABOVE_SEEDS) ++ [EvSleep] ++ group_events (drop 4 ABOVE_SEEDS)
  /\ length (take 4 ABOVE_SEEDS) = 4%nat
  /\ length (drop 4 ABOVE_SEEDS) = 2%nat
  /\ final_in_flight 0 (group_events (take 4 ABOVE_SEEDS)) = O
  /\ peak_in_flight 0 (tracker_pass rt net now st).1.2 = 4%nat.
Proof.
  rewrite tracker_pass_events.
  split; [reflexivity|]. split; [reflexivity|]. split; [reflexivity|].
  split; [reflexivity|]. split; reflexivity.
Qed.

End SweepSchedule.

(** *** Records of a sweep answer (main.py, [tracker_loop]) *)

Lemma for_each_app {A} (body : A -> prog unit) l1 l2 st :
  for_each body (l1 ++ l2) st =
  match for_each body l1 st with
  | (st', Ok _) => for_each body l2 st'
  | (st', Raise e) => (st', Raise e)
  end.
Proof.
  revert st. induction l1 as [|x l1 IH]; intros st; [reflexivity|].
  simpl. unfold_bind.
  destruct (body x st) as [st1 [[]|e]]; [apply IH|reflexivity].
Qed.

Section Records.
Variable rt : runtime.

(** A record without the id field raises before anything is written. *)
Lemma merge_geo_item_no_id now (bad : dict) st :
  bad !! "satid" = None ->
  merge_geo_item rt now (PDict bad) st = (st, Raise KeyError).
Proof.
  intros H. unfold merge_geo_item, mbind, prog_bind, pbind, lift. simpl.
  unfold dict_getitem. now rewrite H.
Qed.

(** A record that carries only the id is merged, with [None] for the name
    and the coordinates and [0.0] for the altitude. *)
Lemma merge_geo_item_id_only now n st :
  wf_state st ->
  exists st', merge_geo_item rt now (PDict {[ "satid" := PInt n ]}) st = (st', Ok tt)
    /\ wf_state st'
    /\ entry_of st' n =
       Some (list_to_map
               [ ("satid", PInt n); ("satname", PNone); ("satlat", PNone);
                 ("satlng", PNone); ("satalt", PFloat 0); ("category", PStr "GEO");
                 ("last_update", PFloat now) ]
             ∪ default ∅ (entry_of st n)).
Proof.
  intros Hwf.
  destruct (merge_spec st n
              (list_to_map
                 [ ("satid", PInt n); ("satname", PNone); ("satlat", PNone);
                   ("satlng", PNone); ("satalt", PFloat 0); ("category", PStr "GEO");
                   ("last_update", PFloat now) ]) Hwf)
    as (st' & E & Hwf' & _ & He & _).
  exists st'. split; [|split; assumption].
  unfold merge, mbind, prog_bind, pbind in E.
  unfold merge_geo_item, mbind, prog_bind, pbind, lift.
  change (py_getitem (PDict {[ "satid" := PInt n ]}) "satid") with (Ok (PInt n)).
  cbn [py_int].
  destruct (setdefault_empty n st) as [st1 [[]|e]]; [|discriminate].
  change (sweep_updates rt n (PDict {[ "satid" := PInt n ]})
            (item_alt rt (PDict {[ "satid" := PInt n ]})) "GEO" now)
    with (Ok (list_to_map
                [ ("satid", PInt n); ("satname", PNone); ("satlat", PNone);
                  ("satlng", PNone); ("satalt", PFloat 0); ("category", PStr "GEO");
                  ("last_update", PFloat now) ] : dict)).
  exact E.
Qed.

(** In the unfiltered family the altitude is read before the id. *)
Lemma merge_all_item_no_id now (bad : dict) alt st :
  bad !! "satid" = None ->
  item_alt rt (PDict bad) = Ok alt ->
  merge_all_item rt now (PDict bad) st
  = if (alt <? LEO_MAX_ALT)%float then (st, Raise KeyError) else (st, Ok tt).
Proof.
  intros H Ha. unfold merge_all_item. unfold_bind. unfold lift. rewrite Ha.
  destruct (alt <? LEO_MAX_ALT)%float; [|reflexivity].
  cbn [py_getitem]. unfold dict_getitem. now rewrite H.
Qed.

Lemma merge_all_item_bad_alt now item e st :
  item_alt rt item = Raise e -> merge_all_item rt now item st = (st, Raise e).
Proof. intros Ha. unfold merge_all_item. unfold_bind. unfold lift. now rewrite Ha. Qed.

(** The head of the loop body on an answer without an error payload. *)
Lemma process_responses_items body (d : dict) items rest st :
  py_truthy (dict_get d "error") = false ->
  d !! "above" = Some (PList items) ->
  process_responses body (RVal (PDict d) :: rest) st
  = match for_each body items st with
    | (st', Ok _) => process_responses body rest st'
    | (st', Raise e) => (st', Raise e)
    end.
Proof.
  intros Herr Habove. cbn [process_responses]. unfold mbind at 1, prog_bind, pbind at 1.
  unfold check_error. rewrite Herr. cbn [pret].
  unfold mbind at 1, prog_bind, pbind at 1, lift, above_items, dict_get_or.
  rewrite Habove. cbn [default from_option id py_iter].
  unfold mbind, prog_bind, pbind at 1.
  destruct (for_each body items st) as [st' [[]|e]]; reflexivity.
Qed.

(** A record that raises ends the loop over its answer and every later answer. *)
Lemma process_responses_stopped body (d : dict) pre bad post rest e st :
  py_truthy (dict_get d "error") = false ->
  d !! "above" = Some (PList (pre ++ bad :: post)) ->
  (forall st0, body bad st0 = (st0, Raise e)) ->
  process_responses body (RVal (PDict d) :: rest) st = stopped_after body pre e st.
Proof.
  intros Herr Habove Hbad. rewrite (process_responses_items _ _ _ _ _ Herr Habove).
  unfold stopped_after. rewrite for_each_app.
  destruct (for_each body pre st) as [st' [[]|e']]; [|reflexivity].
  cbn [for_each]. unfold_bind. now rewrite Hbad.
Qed.

(** A record that is passed over leaves the loop as it is without it. *)
Lemma process_responses_skipped body (d : dict) pre bad post rest st :
  py_truthy (dict_get d "error") = false ->
  d !! "above" = Some (PList (pre ++ bad :: post)) ->
  (forall st0, body bad st0 = (st0, Ok tt)) ->
  process_responses body (RVal (PDict d) :: rest) st
  = process_responses body (RVal (PDict (<["above" := PList (pre ++ post)]> d)) :: rest) st.
Proof.
  intros Herr Habove Hbad. rewrite (process_responses_items _ _ _ _ _ Herr Habove).
  rewrite (process_responses_items body (<["above" := PList (pre ++ post)]> d)
             (pre ++ post) rest st).
  - rewrite !for_each_app.
    destruct (for_each body pre st) as [st' [[]|e']]; [|reflexivity].
    cbn [for_each]. unfold_bind. now rewrite Hbad.
  - unfold dict_get. rewrite lookup_insert_ne by discriminate. exact Herr.
  - apply lookup_insert_eq.
Qed.

(** What the dictionary of a sweep holds for the fields a record lacks. *)
Lemma sweep_updates_values satid (r : dict) alt category now u :
  sweep_updates rt satid (PDict r) alt category now = Ok u ->
  u !! "satid" = Some (PInt satid)
  /\ u !! "satname" = Some (dict_get r "satname")
  /\ (is_None (dict_get r "satlat") = true -> u !! "satlat" = Some PNone)
  /\ (is_None (dict_get r "satlng") = true -> u !! "satlng" = Some PNone)
  /\ (exists a, alt = Ok a /\ u !! "satalt" = Some (PFloat a))
  /\ u !! "category" = Some (PStr category)
  /\ u !! "last_update" = Some (PFloat now).
Proof.
  assert (Hnone : forall k, is_None (dict_get r k) = true ->
            float_or_None rt (PDict r) k = Ok PNone).
  { intros k Hk. unfold float_or_None, py_get, py_get_or, dict_get_or.
    fold (dict_get r k). cbn [mbind res_bind]. now rewrite Hk. }
  unfold sweep_updates.
  change (py_get (PDict r) "satname") with (Ok (dict_get r "satname")).
  cbn [mbind res_bind].
  destruct (float_or_None rt (PDict r) "satlat") as [lat|] eqn:Elat; [|discriminate].
  destruct (float_or_None rt (PDict r) "satlng") as [lng|] eqn:Elng; [|discriminate].
  cbn [mbind res_bind]. destruct alt as [alt0|]; [|discriminate].
  cbn [mbind res_bind]. intros [= <-].
  split; [reflexivity|]. split; [reflexivity|].
  split; [intros H; rewrite (Hnone _ H) in Elat; now injection Elat as <-|].
  split; [intros H; rewrite (Hnone _ H) in Elng; now injection Elng as <-|].
  split; [now exists alt0|]. split; reflexivity.
Qed.

(** A record with an id that is merged in the filtered family. *)
Lemma merge_geo_item_values now (r : dict) n st st' :
  wf_state st ->
  r !! "satid" = Some (PInt n) ->
  merge_geo_item rt now (PDict r) st = (st', Ok tt) ->
  exists e, entry_of st' n = Some e
    /\ e !! "satname" = Some (dict_get r "satname")
    /\ (is_None (dict_get r "satlat") = true -> e !! "satlat" = Some PNone)
    /\ (is_None (dict_get r "satlng") = true -> e !! "satlng" = Some PNone)
    /\ (r !! "satalt" = None -> e !! "satalt" = Some (PFloat 0))
    /\ e !! "category" = Some (PStr "GEO").
Proof.
  intros Hwf Hid. unfold merge_geo_item, mbind, prog_bind, pbind, lift.
  cbn [py_getitem]. unfold dict_getitem. rewrite Hid. cbn [py_int].
  destruct (setdefault_empty_spec st n Hwf) as (st1 & E1 & Hwf1 & _ & He1 & _).
  rewrite E1.
  destruct (sweep_updates rt n (PDict r) (item_alt rt (PDict r)) "GEO" now) as [u|] eqn:Eu;
    [|discriminate].
  destruct (sweep_updates_values _ _ _ _ _ _ Eu) as (_ & Hn & Hlat & Hlng & (a & Ha & Hua) & Hc & _).
  destruct (tracked_update_spec st1 n u _ Hwf1 He1) as (st2 & E2 & _ & _ & _ & _ & He2 & _).
  rewrite E2. intros [= <-].
  exists (u ∪ default ∅ (entry_of st n)). split; [exact He2|].
  split; [now apply lookup_union_Some_l|].
  split; [intros H; now apply lookup_union_Some_l, Hlat|].
  split; [intros H; now apply lookup_union_Some_l, Hlng|].
  split; [|now apply lookup_union_Some_l].
  intros Hno. apply lookup_union_Some_l. rewrite Hua. revert Ha.
  unfold item_alt, py_get_or, dict_get_or. rewrite Hno. cbn. now intros [= <-].
Qed.

(** The same in the unfiltered family, for a record below the ceiling. *)
Lemma merge_all_item_values now (r : dict) n alt st st' :
  wf_state st ->
  r !! "satid" = Some (PInt n) ->
  item_alt rt (PDict r) = Ok alt ->
  (alt <? LEO_MAX_ALT)%float = true ->
  merge_all_item rt now (PDict r) st = (st', Ok tt) ->
  exists e, entry_of st' n = Some e
    /\ e !! "satname" = Some (dict_get r "satname")
    /\ (is_None (dict_get r "satlat") = true -> e !! "satlat" = Some PNone)
    /\ (is_None (dict_get r "satlng") = true -> e !! "satlng" = Some PNone)
    /\ e !! "satalt" = Some (PFloat alt)
    /\ (r !! "satalt" = None -> alt = 0%float)
    /\ e !! "category" = Some (PStr "LEO").
Proof.
  intros Hwf Hid Halt Hlt. unfold merge_all_item, mbind, prog_bind, pbind, lift.
  rewrite Halt, Hlt.
  cbn [py_getitem]. unfold dict_getitem. rewrite Hid. cbn [py_int].
  destruct (setdefault_empty_spec st n Hwf) as (st1 & E1 & Hwf1 & _ & He1 & _).
  rewrite E1.
  destruct (sweep_updates rt n (PDict r) (Ok alt) "LEO" now) as [u|] eqn:Eu;
    [|discriminate].
  destruct (sweep_updates_values _ _ _ _ _ _ Eu) as (_ & Hn & Hlat & Hlng & (a & Ha & Hua) & Hc & _).
  injection Ha as <-.
  destruct (tracked_update_spec st1 n u _ Hwf1 He1) as (st2 & E2 & _ & _ & _ & _ & He2 & _).
  rewrite E2. intros [= <-].
  exists (u ∪ default ∅ (entry_of st n)). split; [exact He2|].
  split; [now apply lookup_union_Some_l|].
  split; [intros H; now apply lookup_union_Some_l, Hlat|].
  split; [intros H; now apply lookup_union_Some_l, Hlng|].
  split; [now apply lookup_union_Some_l|].
  split; [|now apply lookup_union_Some_l].
  intros Hno. revert Halt.
  unfold item_alt, py_get_or, dict_get_or. rewrite Hno. cbn. now intros [= <-].
Qed.

(** A record that carries only the id is merged in either family: in the
    unfiltered one its altitude reads [0.0], below the ceiling. *)
Lemma merge_item_id_only now n st :
  wf_state st ->
  (exists st', merge_geo_item rt now (PDict {[ "satid" := PInt n ]}) st = (st', Ok tt)
     /\ entry_of st' n = Some (bare_update n "GEO" now ∪ default ∅ (entry_of st n)))
  /\ (exists st', merge_all_item rt now (PDict {[ "satid" := PInt n ]}) st = (st', Ok tt)
     /\ entry_of st' n = Some (bare_update n "LEO" now ∪ default ∅ (entry_of st n))).
Proof.
  intros Hwf. split.
  - destruct (merge_geo_item_id_only now n st Hwf) as (st' & E & _ & He). eauto.
  - destruct (merge_spec st n (bare_update n "LEO" now) Hwf) as (st' & E & _ & _ & He & _).
    exists st'. split; [|exact He].
    unfold merge, mbind, prog_bind, pbind in E.
    unfold merge_all_item, mbind, prog_bind, pbind, lift.
    change (item_alt rt (PDict {[ "satid" := PInt n ]})) with (Ok 0%float : res float).
    cbn beta iota. change (0 <? LEO_MAX_ALT)%float with true. cbn beta iota.
    change (py_getitem (PDict {[ "satid" := PInt n ]}) "satid") with (Ok (PInt n)).
    cbn [py_int].
    destruct (setdefault_empty n st) as [st1 [[]|e]]; [|discriminate].
    change (sweep_updates rt n (PDict {[ "satid" := PInt n ]}) (Ok 0%float) "LEO" now)
      with (Ok (bare_update n "LEO" now) : res dict).
    exact E.
Qed.

(** An exception while the dictionary is built comes after [setdefault]. *)
Lemma merge_geo_item_build_fails now item v satid e st :
  py_getitem item "satid" = Ok v -> py_int rt v = Ok satid ->
  sweep_updates rt satid item (item_alt rt item) "GEO" now = Raise e ->
  merge_geo_item rt now item st = ((setdefault_empty satid st).1, Raise e).
Proof.
  intros Hv Hn He. unfold merge_geo_item, mbind, prog_bind, pbind, lift.
  rewrite Hv, Hn.
  assert (Hs : exists st1, setdefault_empty satid st = (st1, Ok tt)).
  { unfold setdefault_empty. destruct (tracked_get (tracked st) satid); eauto. }
  destruct Hs as [st1 Hs]. rewrite Hs, He. reflexivity.
Qed.

(** C4, as the code has it. A record without the id field is not skipped
    because it is malformed. In the category-filtered family it raises
    [KeyError] where it stands; in the unfiltered family the altitude is read
    first: an altitude that cannot be converted raises, an altitude below the
    ceiling leads to the same [KeyError], and at or above the ceiling the
    record is passed over like any other such record. An exception ends the
    loop: the records before it in the answer are merged, the records after
    it and every later answer of the pass are left unprocessed, whatever they
    hold. A record that has the id is merged with [None] for a name, a
    latitude or a longitude it lacks and [0.0] for a missing altitude, over
    whatever the entry held. The merge of a dictionary that has been built
    never fails; an exception while it is built comes after [setdefault].
    The loop runs every later pass. *)
Theorem missing_id_stops_the_pass now (d bad : dict) (pre post : list pyval)
    (rest : list response) st :
  py_truthy (dict_get d "error") = false ->
  d !! "above" = Some (PList (pre ++ PDict bad :: post)) ->
  bad !! "satid" = None ->
  process_responses (merge_geo_item rt now) (RVal (PDict d) :: rest) st
    = stopped_after (merge_geo_item rt now) pre KeyError st
  /\ match item_alt rt (PDict bad) with
     | Raise e =>
         process_responses (merge_all_item rt now) (RVal (PDict d) :: rest) st
         = stopped_after (merge_all_item rt now) pre e st
     | Ok alt =>
         if (alt <? LEO_MAX_ALT)%float then
           process_responses (merge_all_item rt now) (RVal (PDict d) :: rest) st
           = stopped_after (merge_all_item rt now) pre KeyError st
         else
           process_responses (merge_all_item rt now) (RVal (PDict d) :: rest) st
           = process_responses (merge_all_item rt now)
               (RVal (PDict (<["above" := PList (pre ++ post)]> d)) :: rest) st
     end
  /\ (forall n st0, wf_state st0 ->
        (exists st1, merge_geo_item rt now (PDict {[ "satid" := PInt n ]}) st0 = (st1, Ok tt)
           /\ entry_of st1 n
              = Some (bare_update n "GEO" now ∪ default ∅ (entry_of st0 n)))
        /\ (exists st1, merge_all_item rt now (PDict {[ "satid" := PInt n ]}) st0 = (st1, Ok tt)
           /\ entry_of st1 n
              = Some (bare_update n "LEO" now ∪ default ∅ (entry_of st0 n))))
  /\ (forall (r : dict) n st0 st1, wf_state st0 -> r !! "satid" = Some (PInt n) ->
        merge_geo_item rt now (PDict r) st0 = (st1, Ok tt) ->
        exists e, entry_of st1 n = Some e
          /\ e !! "satname" = Some (dict_get r "satname")
          /\ (is_None (dict_get r "satlat") = true -> e !! "satlat" = Some PNone)
          /\ (is_None (dict_get r "satlng") = true -> e !! "satlng" = Some PNone)
          /\ (r !! "satalt" = None -> e !! "satalt" = Some (PFloat 0))
          /\ e !! "category" = Some (PStr "GEO"))
  /\ (forall (r : dict) n alt st0 st1, wf_state st0 -> r !! "satid" = Some (PInt n) ->
        item_alt rt (PDict r) = Ok alt -> (alt <? LEO_MAX_ALT)%float = true ->
        merge_all_item rt now (PDict r) st0 = (st1, Ok tt) ->
        exists e, entry_of st1 n = Some e
          /\ e !! "satname" = Some (dict_get r "satname")
          /\ (is_None (dict_get r "satlat") = true -> e !! "satlat" = Some PNone)
          /\ (is_None (dict_get r "satlng") = true -> e !! "satlng" = Some PNone)
          /\ e !! "satalt" = Some (PFloat alt)
          /\ (r !! "satalt" = None -> alt = 0%float)
          /\ e !! "category" = Some (PStr "LEO"))
  /\ (forall satid updates st0, wf_state st0 ->
        exists st1, merge satid updates st0 = (st1, Ok tt) /\ wf_state st1)
  /\ (forall item v satid e st0,
        py_getitem item "satid" = Ok v -> py_int rt v = Ok satid ->
        sweep_updates rt satid item (item_alt rt item) "GEO" now = Raise e ->
        merge_geo_item rt now item st0 = ((setdefault_empty satid st0).1, Raise e))
  /\ (forall passes st0, length (tracker_loop rt passes st0).2 = length passes).
Proof.
  intros Herr Habove Hbad.
  split; [|split; [|split; [|split; [|split; [|split; [|split]]]]]].
  - apply (process_responses_stopped _ _ _ _ _ _ _ _ Herr Habove).
    intros st0. now apply merge_geo_item_no_id.
  - destruct (item_alt rt (PDict bad)) as [alt|e] eqn:Ea.
    + pose proof (fun st0 => merge_all_item_no_id now bad alt st0 Hbad Ea) as Hb.
      destruct (alt <? LEO_MAX_ALT)%float.
      * now apply (process_responses_stopped _ _ _ _ _ _ _ _ Herr Habove).
      * now apply (process_responses_skipped _ _ _ _ _ _ _ Herr Habove).
    + apply (process_responses_stopped _ _ _ _ _ _ _ _ Herr Habove).
      intros st0. now apply merge_all_item_bad_alt.
  - intros n st0 Hwf. now apply merge_item_id_only.
  - intros r n st0 st1. apply merge_geo_item_values.
  - intros r n alt st0 st1. apply merge_all_item_values.
  - intros satid updates st0 Hwf.
    destruct (merge_spec st0 satid updates Hwf) as (st1 & E & Hwf1 & _). eauto.
  - intros item v satid e st0. apply merge_geo_item_build_fails.
  - intros passes st0. apply tracker_loop_events.
Qed.

End Records.

(** *** Snapshots share the catalog's objects (main.py) *)

Lemma heap_only_refl st : heap_only st st.
Proof. now split. Qed.

Lemma heap_only_trans st1 st2 st3 :
  heap_only st1 st2 -> heap_only st2 st3 -> heap_only st1 st3.
Proof. intros (? & ? & ?) (? & ? & ?). repeat split; congruence. Qed.

Lemma heap_only_wf st st' : heap_only st st' -> wf_state st -> wf_state st'.
Proof.
  intros (Ht & Hl & _) [Hr Hn]. split; rewrite Ht; [|exact Hn]. now rewrite Hl.
Qed.

Lemma keeps_refs_pret {A} (a : A) : keeps_refs (pret a).
Proof. intros st. apply heap_only_refl. Qed.

Lemma keeps_refs_lift {A} (r : res A) : keeps_refs (lift r).
Proof. intros st. apply heap_only_refl. Qed.

Lemma keeps_refs_bind {A B} (m : prog A) (k : A -> prog B) :
  keeps_refs m -> (forall a, keeps_refs (k a)) -> keeps_refs (m ≫= k).
Proof.
  intros Hm Hk st. unfold_bind. specialize (Hm st).
  destruct (m st) as [st1 [a|e]]; simpl in *; [|exact Hm].
  eapply heap_only_trans; [exact Hm|apply Hk].
Qed.

Lemma keeps_refs_setitem l k v : keeps_refs (dict_setitem l k v).
Proof.
  intros st. unfold dict_setitem. simpl. split; [reflexivity|].
  split; [apply length_alter|reflexivity].
Qed.

Lemma keeps_refs_for_each {A} (body : A -> prog unit) l :
  (forall x, keeps_refs (body x)) -> keeps_refs (for_each body l).
Proof.
  intros Hb. induction l as [|x l IH]; [apply keeps_refs_pret|].
  simpl. apply keeps_refs_bind; [apply Hb|intros _; exact IH].
Qed.

Section Sharing.
Variable rt : runtime.

Lemma keeps_refs_demo_step_entry now l : keeps_refs (demo_step_entry rt now l).
Proof.
  intros st. unfold demo_step_entry.
  match goal with |- heap_only st (?m st).1 => enough (keeps_refs m) as H by apply H end.
  apply keeps_refs_bind; [apply keeps_refs_lift|intros last].
  apply keeps_refs_bind; [apply keeps_refs_lift|intros lng0].
  apply keeps_refs_bind; [|intros _; apply keeps_refs_setitem].
  destruct (py_eq_str _ _).
  - apply keeps_refs_bind; [apply keeps_refs_lift|intros lng].
    apply keeps_refs_bind; [apply keeps_refs_setitem|intros _; apply keeps_refs_setitem].
  - apply keeps_refs_bind; [apply keeps_refs_lift|intros lng].
    apply keeps_refs_bind; [apply keeps_refs_setitem|intros _].
    apply keeps_refs_bind; [apply keeps_refs_lift|intros t].
    apply keeps_refs_bind; [apply keeps_refs_lift|intros sn].
    apply keeps_refs_setitem.
Qed.

Lemma keeps_refs_demo_step now : keeps_refs (_demo_step rt now).
Proof.
  intros st. unfold _demo_step.
  apply (keeps_refs_for_each (demo_step_entry rt now) (snapshot st)).
  intros l. apply keeps_refs_demo_step_entry.
Qed.

Lemma merge_tracked st satid updates :
  wf_state st ->
  wf_state (merge satid updates st).1
  /\ tracked st `prefix_of` tracked (merge satid updates st).1.
Proof.
  intros Hwf.
  destruct (setdefault_empty_spec st satid Hwf) as (st1 & E1 & Hwf1 & _ & He1 & _ & Hnew & Hold).
  destruct (tracked_update_spec st1 satid updates _ Hwf1 He1)
    as (st2 & E2 & Hwf2 & Htr & _).
  unfold merge, mbind, prog_bind, pbind. rewrite E1, E2. simpl.
  split; [exact Hwf2|]. rewrite Htr.
  destruct (tracked_get (tracked st) satid) eqn:E.
  - rewrite (Hold (ltac:(eauto))). reflexivity.
  - rewrite (Hnew eq_refl). now apply prefix_app_r.
Qed.

Lemma run_op_tracked o st :
  wf_state st ->
  wf_state (run_op rt o st).1
  /\ tracked st `prefix_of` tracked (run_op rt o st).1.
Proof.
  intros Hwf. destruct o as [satid u|satid u|now]; simpl.
  - now apply merge_tracked.
  - destruct (tracked_get (tracked st) satid) eqn:E.
    + rewrite merge_existing_known by eauto. now apply merge_tracked.
    + rewrite merge_existing_unseen by exact E. now split.
  - pose proof (keeps_refs_demo_step now st) as H. split.
    + eapply heap_only_wf; eauto.
    + destruct H as [-> _]. reflexivity.
Qed.

Lemma run_ops_tracked ops st :
  wf_state st ->
  wf_state (run_ops rt ops st)
  /\ tracked st `prefix_of` tracked (run_ops rt ops st).
Proof.
  revert st. induction ops as [|o ops IH]; intros st Hwf; simpl.
  - now split.
  - destruct (run_op_tracked o st Hwf) as [Hwf1 Hp1].
    destruct (IH _ Hwf1) as [Hwf2 Hp2]. split; [exact Hwf2|].
    now transitivity (tracked (run_op rt o st).1).
Qed.

(** C6, as the code has it. The snapshot is a list of references to the
    catalog's own objects. Whatever merges, refreshes and demo steps follow,
    the list taken before is an initial segment of the list taken after,
    reference for reference, so reading it afterwards shows the current
    contents of its entries; in particular a merge into a listed entry shows
    through it, whole. *)
Theorem snapshot_shares_entries ops st :
  wf_state st ->
  wf_state (run_ops rt ops st)
  /\ snapshot st `prefix_of` snapshot (run_ops rt ops st)
  /\ view (heap (run_ops rt ops st)) (snapshot st)
     = take (length (snapshot st))
            (view (heap (run_ops rt ops st)) (snapshot (run_ops rt ops st)))
  /\ (forall satid updates l old,
        tracked_get (tracked st) satid = Some l ->
        heap st !! l = Some old ->
        l ∈ snapshot st
        /\ heap (run_ops rt [OpMerge satid updates] st) !! l = Some (updates ∪ old)
        /\ heap (run_ops rt [OpRefresh satid updates] st) !! l = Some (updates ∪ old)).
Proof.
  intros Hwf. destruct (run_ops_tracked ops st Hwf) as [Hwf' [k Hk]].
  split; [exact Hwf'|].
  assert (Hs : snapshot (run_ops rt ops st) = snapshot st ++ k.*2).
  { unfold snapshot. now rewrite Hk, fmap_app. }
  split; [rewrite Hs; now apply prefix_app_r|]. split.
  - rewrite Hs. unfold view. rewrite fmap_app, take_app_length'; [reflexivity|].
    now rewrite length_fmap.
  - intros satid updates l old Hl Ho. split.
    + apply list_elem_of_fmap. exists (satid, l). split; [reflexivity|].
      now apply tracked_get_elem.
    + assert (He : entry_of st satid = Some old) by (unfold entry_of; rewrite Hl; exact Ho).
      assert (Hm : heap (merge satid updates st).1 !! l = Some (updates ∪ old)).
      { unfold merge, mbind, prog_bind, pbind, setdefault_empty. rewrite Hl.
        unfold tracked_update. rewrite Hl. simpl.
        now rewrite list_lookup_alter_eq, Ho. }
      split; simpl; [exact Hm|].
      rewrite merge_existing_known by eauto. exact Hm.
Qed.

End Sharing.

(** *** The counts of a payload (main.py, [api_snapshot], [broadcast_snapshot]) *)

Lemma count_category_le objs :
  (count_category "LEO" objs + count_category "GEO" objs <= length objs)%nat.
Proof.
  induction objs as [|s objs IH]; simpl; [lia|].
  destruct (dict_get s "category") as [| | | |c| |]; simpl; try lia.
  destruct (String.eqb c "LEO") eqn:E1; destruct (String.eqb c "GEO") eqn:E2; try lia.
  apply String.eqb_eq in E1, E2. congruence.
Qed.

Lemma count_category_all objs :
  Forall (fun s => py_eq_str (dict_get s "category") "LEO"
                   || py_eq_str (dict_get s "category") "GEO" = true) objs ->
  (count_category "LEO" objs + count_category "GEO" objs = length objs)%nat.
Proof.
  induction 1 as [|s objs Hs _ IH]; simpl; [reflexivity|].
  destruct (dict_get s "category") as [| | | |c| |]; simpl in *; try discriminate.
  destruct (String.eqb c "LEO") eqn:E1; destruct (String.eqb c "GEO") eqn:E2;
    try discriminate; try lia.
  apply String.eqb_eq in E1, E2. congruence.
Qed.

(** X2. The counts of every payload agree with its lists; the two category
    counts never exceed the total, and add up to it when every listed entry is
    labelled LEO or GEO. *)
Lemma snapshot_counts rt stamp st p :
  snapshot_payload rt stamp st = Ok p ->
  total (p_counts p) = length (sats p)
  /\ alerts (p_counts p) = length (p_alerts p)
  /\ (leo (p_counts p) + geo (p_counts p) <= total (p_counts p))%nat
  /\ (Forall (fun s => py_eq_str (dict_get s "category") "LEO"
                       || py_eq_str (dict_get s "category") "GEO" = true)
             (view (heap st) (snapshot st)) ->
      (leo (p_counts p) + geo (p_counts p) = total (p_counts p))%nat).
Proof.
  unfold snapshot_payload.
  destruct (find_close_pairs rt _ _) as [pairs|]; [|discriminate].
  simpl. intros [= <-]. simpl.
  assert (Hl : length (snapshot st) = length (view (heap st) (snapshot st)))
    by (unfold view; now rewrite length_fmap).
  split; [reflexivity|]. split; [reflexivity|]. split.
  - rewrite Hl. apply count_category_le.
  - intros H. rewrite Hl. now apply count_category_all.
Qed.

Section Labels.
Variable rt : runtime.

Lemma sweep_updates_fields satid item alt category now u :
  sweep_updates rt satid item alt category now = Ok u ->
  u !! "satid" = Some (PInt satid)
  /\ u !! "category" = Some (PStr category)
  /\ u !! "last_update" = Some (PFloat now).
Proof.
  unfold sweep_updates.
  destruct (py_get item "satname") as [name|]; [|discriminate]. simpl.
  destruct (float_or_None rt item "satlat") as [lat|]; [|discriminate]. simpl.
  destruct (float_or_None rt item "satlng") as [lng|]; [|discriminate]. simpl.
  destruct alt as [a|]; [|discriminate]. simpl.
  intros [= <-]. repeat split; reflexivity.
Qed.

(** X4. A merge of a record of the category-filtered answer that completes
    leaves, under the id of the record ([int(item["satid"])]), an entry that
    carries that id, the category GEO and the timestamp of the pass; the
    entries of all other ids are as they were. *)
Theorem completed_sweep_merge_labels now item st st' :
  wf_state st ->
  merge_geo_item rt now item st = (st', Ok tt) ->
  exists v satid e,
    py_getitem item "satid" = Ok v
    /\ py_int rt v = Ok satid
    /\ entry_of st' satid = Some e
    /\ e !! "satid" = Some (PInt satid)
    /\ e !! "category" = Some (PStr "GEO")
    /\ e !! "last_update" = Some (PFloat now)
    /\ forall k, k <> satid -> entry_of st' k = entry_of st k.
Proof.
  intros Hwf. unfold merge_geo_item, mbind, prog_bind, pbind, lift.
  destruct (py_getitem item "satid") as [v|] eqn:Ev; [|discriminate].
  destruct (py_int rt v) as [satid|] eqn:En; [|discriminate].
  destruct (setdefault_empty_spec st satid Hwf) as (st1 & E1 & Hwf1 & _ & He1 & Ho1 & _).
  rewrite E1.
  destruct (sweep_updates rt satid item (item_alt rt item) "GEO" now) as [u|] eqn:Eu;
    [|discriminate].
  destruct (sweep_updates_fields _ _ _ _ _ _ Eu) as (Hid & Hcat & Hts).
  destruct (tracked_update_spec st1 satid u _ Hwf1 He1)
    as (st2 & E2 & _ & _ & _ & _ & He2 & Ho2).
  rewrite E2. intros [= <-].
  exists v, satid, (u ∪ default ∅ (entry_of st satid)).
  split; [reflexivity|]. split; [exact En|]. split; [exact He2|].
  split; [now apply lookup_union_Some_l|]. split; [now apply lookup_union_Some_l|].
  split; [now apply lookup_union_Some_l|].
  intros k Hk. rewrite Ho2, Ho1 by exact Hk. reflexivity.
Qed.

(** X5. A record of the unfiltered answer below the LEO ceiling whose merge
    completes labels its entry LEO; a record at or above the ceiling is
    passed over without a change. *)
Theorem completed_unfiltered_merge_labels now item alt st st' :
  wf_state st ->
  item_alt rt item = Ok alt ->
  merge_all_item rt now item st = (st', Ok tt) ->
  if (alt <? LEO_MAX_ALT)%float then
    exists satid e,
      entry_of st' satid = Some e
      /\ e !! "satalt" = Some (PFloat alt)
      /\ e !! "category" = Some (PStr "LEO")
      /\ e !! "last_update" = Some (PFloat now)
  else st' = st.
Proof.
  intros Hwf Halt. unfold merge_all_item, mbind, prog_bind, pbind, lift.
  rewrite Halt. destruct (alt <? LEO_MAX_ALT)%float; [|now intros [= <-]].
  destruct (py_getitem item "satid") as [v|]; [|discriminate].
  destruct (py_int rt v) as [satid|]; [|discriminate].
  destruct (setdefault_empty_spec st satid Hwf) as (st1 & E1 & Hwf1 & _ & He1 & _).
  rewrite E1.
  destruct (sweep_updates rt satid item (Ok alt) "LEO" now) as [u|] eqn:Eu;
    [|discriminate].
  destruct (sweep_updates_fields _ _ _ _ _ _ Eu) as (Hid & Hcat & Hts).
  assert (Ha : u !! "satalt" = Some (PFloat alt)).
  { revert Eu. unfold sweep_updates.
    destruct (py_get item "satname") as [name|]; [|discriminate]. simpl.
    destruct (float_or_None rt item "satlat") as [lat|]; [|discriminate]. simpl.
    destruct (float_or_None rt item "satlng") as [lng|]; [|discriminate]. simpl.
    now intros [= <-]. }
  destruct (tracked_update_spec st1 satid u _ Hwf1 He1) as (st2 & E2 & _ & _ & _ & _ & He2 & _).
  rewrite E2. intros [= <-].
  exists satid, (u ∪ default ∅ (entry_of st satid)). split; [exact He2|].
  repeat split; now apply lookup_union_Some_l.
Qed.

(** X6. A fetch that fails is answered by the empty dictionary, and the loop
    over the answers passes over it to the answers of the other fetches. *)
Theorem failed_fetch_is_skipped (body : pyval -> prog unit) k s rest st :
  process_responses body (RVal (fetch (fun _ _ => NetRaises) k s) :: rest) st
  = process_responses body rest st.
Proof.
  cbn [fetch process_responses]. unfold_bind.
  change (check_error (PDict ∅) st) with (st, Ok Continue : res loop_ctl).
  cbn iota. unfold lift.
  change (above_items (PDict ∅)) with (Ok [] : res (list pyval)).
  cbn [for_each pret]. reflexivity.
Qed.

End Labels.

(** X7. On an empty catalog the demo generator creates 42 entries, 12
    labelled GEO and 30 labelled LEO, whatever the clock says. *)
Theorem demo_catalog_labelled now :
  length (snapshot (_ensure_demo_catalog now initial_state).1) = 42%nat
  /\ count_category "GEO"
       (view (heap (_ensure_demo_catalog now initial_state).1)
             (snapshot (_ensure_demo_catalog now initial_state).1)) = 12%nat
  /\ count_category "LEO"
       (view (heap (_ensure_demo_catalog now initial_state).1)
             (snapshot (_ensure_demo_catalog now initial_state).1)) = 30%nat.
Proof. repeat split; vm_compute; reflexivity. Qed.

(** *** More on the proximity screen (conj.py) *)

Section ScanMore.
Variable rt : runtime.

Lemma scan_from_located a later thr acc :
  scan_from rt a (filter (fun s => coords_absent s = false) later) thr acc
  = scan_from rt a later thr acc.
Proof.
  revert acc. induction later as [|b later IH]; intros acc; [reflexivity|].
  rewrite filter_cons. simpl. destruct (coords_absent b) eqn:Eb.
  - case_decide; [congruence|]. apply IH.
  - case_decide; [|congruence]. simpl. rewrite Eb.
    destruct (pair_distance rt a b) as [d|e]; [|reflexivity]. simpl. apply IH.
Qed.

Lemma scan_all_located l thr acc :
  scan_all rt (filter (fun s => coords_absent s = false) l) thr acc
  = scan_all rt l thr acc.
Proof.
  revert acc. induction l as [|a l IH]; intros acc; [reflexivity|].
  rewrite filter_cons. simpl. destruct (coords_absent a) eqn:Ea.
  - case_decide; [congruence|]. apply IH.
  - case_decide; [|congruence]. simpl. rewrite Ea, scan_from_located.
    destruct (scan_from rt a l thr acc) as [p|e]; [|reflexivity]. simpl. apply IH.
Qed.

(** X8. Objects without latitude or longitude play no role in the screen:
    leaving them out of the list gives the same result, the same exception
    included. *)
Theorem find_close_pairs_ignores_unlocated (sat_list : list dict) (threshold_km : float) :
  find_close_pairs rt (filter (fun s => coords_absent s = false) sat_list) threshold_km
  = find_close_pairs rt sat_list threshold_km.
Proof. apply scan_all_located. Qed.

Lemma scan_from_ok a later thr acc :
  is_ok (scan_from rt a later thr acc)
  = forallb (fun b => (coords_absent b || is_ok (pair_distance rt a b))%bool) later.
Proof.
  revert acc. induction later as [|b later IH]; intros acc; [reflexivity|].
  simpl. destruct (coords_absent b); simpl; [apply IH|].
  destruct (pair_distance rt a b) as [d|e]; simpl; [apply IH|reflexivity].
Qed.

Lemma forallb_pairs_left a l :
  coords_absent a = false ->
  forallb (fun ab : dict * dict =>
             (coords_absent ab.1 || coords_absent ab.2
              || is_ok (pair_distance rt ab.1 ab.2))%bool)
          ((fun b => (a, b)) <$> l)
  = forallb (fun b => (coords_absent b || is_ok (pair_distance rt a b))%bool) l.
Proof.
  intros Ea. induction l as [|b l IH]; [reflexivity|].
  rewrite fmap_cons. simpl. rewrite Ea, IH. reflexivity.
Qed.

Lemma scan_all_ok l thr acc :
  is_ok (scan_all rt l thr acc) = distances_defined rt l.
Proof.
  unfold distances_defined. revert acc. induction l as [|a l IH]; intros acc; [reflexivity|].
  rewrite pairs_of_cons, forallb_app. simpl.
  destruct (coords_absent a) eqn:Ea.
  - rewrite IH. symmetry.
    replace (forallb _ ((fun b => (a, b)) <$> l)) with true; [reflexivity|].
    symmetry. apply forallb_forall. intros [a' b] Hin.
    apply in_map_iff in Hin as (b' & [= <- <-] & _). simpl. now rewrite Ea.
  - rewrite forallb_pairs_left by exact Ea. rewrite <- (scan_from_ok a l thr acc).
    destruct (scan_from rt a l thr acc) as [p|e]; simpl; [apply IH|reflexivity].
Qed.

(** The screen raises exactly when some pair of located objects has no distance. *)
Lemma distances_defined_false l :
  distances_defined rt l = false <->
  exists i j a b, (i < j)%nat /\ l !! i = Some a /\ l !! j = Some b
    /\ coords_absent a = false /\ coords_absent b = false
    /\ is_ok (pair_distance rt a b) = false.
Proof.
  unfold distances_defined. split.
  - intros H. apply not_true_iff_false in H.
    destruct (Exists_dec
                (fun ab : dict * dict =>
                   (coords_absent ab.1 || coords_absent ab.2
                    || is_ok (pair_distance rt ab.1 ab.2))%bool = false)
                (pairs_of l)) as [He|Hn].
    + apply Exists_exists in He as ([a b] & Hin & Hab). simpl in Hab.
      apply elem_of_pairs_of in Hin as (i & j & Hij & Hi & Hj).
      apply orb_false_elim in Hab as [Hab Hd]. apply orb_false_elim in Hab as [Ha Hb].
      exists i, j, a, b. auto 10.
    + exfalso. apply H. apply forallb_forall. intros ab Hin.
      destruct (_ || _ || _)%bool eqn:E; [reflexivity|]. exfalso. apply Hn.
      apply Exists_exists. exists ab. split; [now apply list_elem_of_In|exact E].
  - intros (i & j & a & b & Hij & Hi & Hj & Ha & Hb & Hd).
    apply not_true_iff_false. intros H. rewrite forallb_forall in H.
    assert (Hin : (a, b) ∈ pairs_of l) by (apply elem_of_pairs_of; eauto).
    apply list_elem_of_In in Hin. specialize (H _ Hin). simpl in H.
    rewrite Ha, Hb, Hd in H. discriminate.
Qed.

(** X9. The screen raises exactly when some pair of positions [i < j] holds
    two objects that both have coordinates and whose distance cannot be
    computed. *)
Theorem find_close_pairs_raises_iff (sat_list : list dict) (threshold_km : float) :
  (exists e, find_close_pairs rt sat_list threshold_km = Raise e) <->
  exists i j a b e', (i < j)%nat
    /\ sat_list !! i = Some a /\ sat_list !! j = Some b
    /\ coords_absent a = false /\ coords_absent b = false
    /\ pair_distance rt a b = Raise e'.
Proof.
  pose proof (scan_all_ok sat_list threshold_km []) as Hok.
  fold (find_close_pairs rt sat_list threshold_km) in Hok. split.
  - intros [e He]. rewrite He in Hok. simpl in Hok. symmetry in Hok.
    apply distances_defined_false in Hok as (i & j & a & b & Hij & Hi & Hj & Ha & Hb & Hd).
    destruct (pair_distance rt a b) as [d|e'] eqn:Ed; [discriminate|].
    exists i, j, a, b, e'. auto 10.
  - intros (i & j & a & b & e' & Hij & Hi & Hj & Ha & Hb & Hd).
    assert (Hf : distances_defined rt sat_list = false).
    { apply distances_defined_false. exists i, j, a, b. rewrite Hd. auto 10. }
    rewrite Hf in Hok.
    destruct (find_close_pairs rt sat_list threshold_km) as [p|e]; [discriminate|].
    now exists e.
Qed.

End ScanMore.

(** *** The screen, exactly (conj.py) *)

Section ScanExact.
Variable rt : runtime.

(** The exception of the inner loop is that of one of its distances. *)
Lemma scan_from_raise_pair a later thr acc e :
  scan_from rt a later thr acc = Raise e ->
  exists j b, later !! j = Some b /\ coords_absent b = false
    /\ pair_distance rt a b = Raise e.
Proof.
  revert acc. induction later as [|b later IH]; intros acc; simpl; [discriminate|].
  destruct (coords_absent b) eqn:Eb.
  - intros H. destruct (IH _ H) as (j & b' & Hj & Hb & Hd). now exists (S j), b'.
  - destruct (pair_distance rt a b) as [d|e'] eqn:Ed; simpl.
    + intros H. destruct (IH _ H) as (j & b' & Hj & Hb & Hd). now exists (S j), b'.
    + intros [= ->]. now exists O, b.
Qed.

Lemma scan_all_raise_pair l thr acc e :
  scan_all rt l thr acc = Raise e ->
  exists i j a b, (i < j)%nat /\ l !! i = Some a /\ l !! j = Some b
    /\ coords_absent a = false /\ coords_absent b = false
    /\ pair_distance rt a b = Raise e.
Proof.
  revert acc. induction l as [|a l IH]; intros acc; simpl; [discriminate|].
  assert (Hlater : forall acc', scan_all rt l thr acc' = Raise e ->
            exists i j a0 b, (i < j)%nat /\ (a :: l) !! i = Some a0 /\ (a :: l) !! j = Some b
              /\ coords_absent a0 = false /\ coords_absent b = false
              /\ pair_distance rt a0 b = Raise e).
  { intros acc' H. destruct (IH _ H) as (i & j & a0 & b & Hij & Hi & Hj & Ha & Hb & Hd).
    exists (S i), (S j), a0, b. split; [lia|]. auto 10. }
  destruct (coords_absent a) eqn:Ea; [apply Hlater|].
  destruct (scan_from rt a l thr acc) as [p|e'] eqn:E; simpl; [apply Hlater|].
  intros [= ->]. destruct (scan_from_raise_pair _ _ _ _ _ E) as (j & b & Hj & Hb & Hd).
  exists O, (S j), a, b. split; [lia|]. auto 10.
Qed.

(** C1, as the code has it. The screen either returns or raises. When every
    pair of objects with coordinates has a distance it returns the list the
    specification describes: one triple for each pair of positions [i < j],
    in input order, whose two objects carry latitude and longitude and lie
    within the threshold, with that distance; so every such pair is emitted,
    no pair farther than the threshold is, and no emitted pair has an object
    with an absent coordinate. Otherwise it raises the exception of a pair of
    objects with coordinates whose distance cannot be computed, and returns
    no pair at all. The two cases are told apart by the distances alone. *)
Theorem find_close_pairs_exact (sat_list : list dict) (threshold_km : float) :
  (distances_defined rt sat_list = true ->
     find_close_pairs rt sat_list threshold_km
     = Ok (close_pairs_spec rt sat_list threshold_km))
  /\ (forall a b d,
        (a, b, d) ∈ close_pairs_spec rt sat_list threshold_km <->
        exists i j, (i < j)%nat
          /\ sat_list !! i = Some a /\ sat_list !! j = Some b
          /\ coords_absent a = false /\ coords_absent b = false
          /\ pair_distance rt a b = Ok d
          /\ (d <=? threshold_km)%float = true)
  /\ (distances_defined rt sat_list = false ->
        exists e i j a b,
          find_close_pairs rt sat_list threshold_km = Raise e
          /\ (i < j)%nat
          /\ sat_list !! i = Some a /\ sat_list !! j = Some b
          /\ coords_absent a = false /\ coords_absent b = false
          /\ pair_distance rt a b = Raise e)
  /\ (distances_defined rt sat_list = false <->
        exists i j a b, (i < j)%nat
          /\ sat_list !! i = Some a /\ sat_list !! j = Some b
          /\ coords_absent a = false /\ coords_absent b = false
          /\ is_ok (pair_distance rt a b) = false).
Proof.
  split; [|split; [|split]].
  - intros H. unfold find_close_pairs. now rewrite scan_all_spec.
  - intros a b d. apply elem_of_close_pairs_spec.
  - intros H. pose proof (scan_all_ok rt sat_list threshold_km []) as Hok.
    fold (find_close_pairs rt sat_list threshold_km) in Hok. rewrite H in Hok.
    destruct (find_close_pairs rt sat_list threshold_km) as [p|e] eqn:E; [discriminate|].
    destruct (scan_all_raise_pair _ _ _ _ E) as (i & j & a & b & Hp).
    now exists e, i, j, a, b.
  - apply distances_defined_false.
Qed.

End ScanExact.

(** *** IEEE binary64: the order and the square root *)

Lemma SFleb_trans x y z : SFleb x y = true -> SFleb y z = true -> SFleb x z = true.
Proof.
  unfold SFleb.
  destruct x as [sx|sx| |sx mx ex], y as [sy|sy| |sy my ey], z as [sz|sz| |sz mz ez];
    simpl; try discriminate; try reflexivity;
    try (destruct sx; try discriminate; try reflexivity; fail);
    try (destruct sy; try discriminate; try reflexivity; fail);
    try (destruct sz; try discriminate; try reflexivity; fail);
    try (destruct sx, sy; try discriminate; try reflexivity; fail);
    try (destruct sy, sz; try discriminate; try reflexivity; fail);
    try (destruct sx, sz; try discriminate; try reflexivity; fail);
    try (destruct sx, sy, sz; try discriminate; try reflexivity; fail).
  change (PosDef.Pos.compare_cont Eq) with Pos.compare.
  destruct sx, sy, sz; try discriminate; try reflexivity;
    destruct (Z.compare_spec ex ey), (Z.compare_spec ey ez), (Z.compare_spec ex ez);
    try discriminate; try reflexivity; try lia; subst;
    destruct (Pos.compare_spec mx my), (Pos.compare_spec my mz), (Pos.compare_spec mx mz);
    simpl; try discriminate; try reflexivity; try lia.
Qed.

Lemma leb_trans (x y z : float) :
  (x <=? y)%float = true -> (y <=? z)%float = true -> (x <=? z)%float = true.
Proof. rewrite !FloatAxioms.leb_spec. apply SFleb_trans. Qed.

Lemma binary_round_aux_nonneg m e l :
  match binary_round_aux prec emax false m e l with
  | S754_zero true | S754_infinity true | S754_finite true _ _ => False
  | _ => True
  end.
Proof.
  unfold binary_round_aux.
  destruct (shr_fexp prec emax m e l) as [mrs' e'].
  destruct (shr_fexp prec emax _ e' loc_Exact) as [mrs'' e''].
  destruct (shr_m mrs''); simpl; try exact I.
  destruct (Z.leb e'' _); exact I.
Qed.

(** An IEEE square root is never below zero. *)
Lemma SF64sqrt_not_neg x : SFltb (SF64sqrt x) (S754_zero false) = false.
Proof.
  unfold SF64sqrt, SFsqrt, SFltb.
  destruct x as [s|[]| |[] m e]; try reflexivity.
  destruct (SFsqrt_core_binary prec emax (Z.pos m) e) as [[mz ez] lz].
  pose proof (binary_round_aux_nonneg mz ez lz) as H.
  destruct (binary_round_aux prec emax false mz ez lz) as [[]|[]| |[] m' e'];
    try reflexivity; destruct H.
Qed.

Lemma SFleb_zero_of_not_nan x :
  SFltb x (S754_zero false) = false -> sf_is_nan x = false ->
  SFleb (S754_zero false) x = true.
Proof.
  unfold SFltb, SFleb.
  destruct x as [[]|[]| |[] m e]; simpl; try discriminate; reflexivity.
Qed.

Lemma leb_zero_of_not_nan (d : float) :
  (d <? 0)%float = false -> f_isnan d = false -> (0 <=? d)%float = true.
Proof.
  unfold f_isnan. rewrite FloatAxioms.ltb_spec, FloatAxioms.leb_spec.
  change (Prim2SF 0) with (S754_zero false). apply SFleb_zero_of_not_nan.
Qed.

Lemma sqrt_not_neg (x : float) : (PrimFloat.sqrt x <? 0)%float = false.
Proof. rewrite FloatAxioms.ltb_spec, sqrt_spec. apply SF64sqrt_not_neg. Qed.

(** *** The distance is never negative (conj.py) *)

Section DistanceMore.
Variable rt : runtime.

Lemma math_sqrt_not_neg x d : math_sqrt x = Ok d -> (d <? 0)%float = false.
Proof.
  unfold math_sqrt, math_1.
  destruct (_ && _)%bool; [discriminate|]. destruct (_ && _)%bool; [discriminate|].
  intros [= <-]. apply sqrt_not_neg.
Qed.

Lemma euclidean_not_neg lat1 lon1 alt1 lat2 lon2 alt2 d :
  euclidean_km_from_latlonalt rt lat1 lon1 alt1 lat2 lon2 alt2 = Ok d ->
  (d <? 0)%float = false.
Proof.
  unfold euclidean_km_from_latlonalt.
  destruct (to_ecef rt lat1 lon1 alt1) as [[[x1 y1] z1]|]; [|discriminate].
  destruct (to_ecef rt lat2 lon2 alt2) as [[[x2 y2] z2]|]; [|discriminate].
  simpl.
  destruct (py_pow2 rt (x1 - x2)) as [dx|]; [|discriminate].
  destruct (py_pow2 rt (y1 - y2)) as [dy|]; [|discriminate].
  destruct (py_pow2 rt (z1 - z2)) as [dz|]; [|discriminate].
  simpl. apply math_sqrt_not_neg.
Qed.

Lemma pair_distance_not_neg a b d :
  pair_distance rt a b = Ok d -> (d <? 0)%float = false.
Proof.
  unfold pair_distance.
  repeat match goal with
  | |- context [@mbind res _ _ _ _ ?m] =>
      match m with
      | euclidean_km_from_latlonalt _ _ _ _ _ _ _ => fail 1
      | _ => destruct m; cbn [mbind res_bind]; [|discriminate]
      end
  end.
  apply euclidean_not_neg.
Qed.

(** X12. A distance that is computed is never below zero: it is NaN, or it
    compares at least zero. *)
Theorem distance_is_never_negative lat1 lon1 alt1 lat2 lon2 alt2 d :
  euclidean_km_from_latlonalt rt lat1 lon1 alt1 lat2 lon2 alt2 = Ok d ->
  (d <? 0)%float = false
  /\ (f_isnan d = false -> (0 <=? d)%float = true).
Proof.
  intros H. pose proof (euclidean_not_neg _ _ _ _ _ _ _ H) as Hn.
  split; [exact Hn|]. intros Hnan. now apply leb_zero_of_not_nan.
Qed.

End DistanceMore.

(** *** The screen and its threshold (conj.py) *)

Section ScanThreshold.
Variable rt : runtime.

Lemma scan_from_raise a later t1 t2 acc1 acc2 e :
  scan_from rt a later t1 acc1 = Raise e -> scan_from rt a later t2 acc2 = Raise e.
Proof.
  revert acc1 acc2. induction later as [|b later IH]; intros acc1 acc2; simpl; [discriminate|].
  destruct (coords_absent b); [apply IH|].
  destruct (pair_distance rt a b) as [d|e']; simpl; [apply IH|auto].
Qed.

Lemma scan_from_is_ok a later t1 t2 acc1 acc2 p1 :
  scan_from rt a later t1 acc1 = Ok p1 -> exists p2, scan_from rt a later t2 acc2 = Ok p2.
Proof.
  intros H. pose proof (scan_from_ok rt a later t1 acc1) as H1.
  pose proof (scan_from_ok rt a later t2 acc2) as H2.
  rewrite H in H1. rewrite <- H1 in H2.
  destruct (scan_from rt a later t2 acc2); [eauto|discriminate].
Qed.

Lemma scan_all_raise l t1 t2 acc1 acc2 e :
  scan_all rt l t1 acc1 = Raise e -> scan_all rt l t2 acc2 = Raise e.
Proof.
  revert acc1 acc2. induction l as [|a l IH]; intros acc1 acc2; simpl; [discriminate|].
  destruct (coords_absent a); [apply IH|].
  destruct (scan_from rt a l t1 acc1) as [p1|e1] eqn:E1; simpl.
  - destruct (scan_from_is_ok _ _ _ t2 _ acc2 _ E1) as [p2 ->]. simpl. apply IH.
  - intros [= ->]. now rewrite (scan_from_raise _ _ _ t2 _ acc2 _ E1).
Qed.

Lemma emit_sublist t1 t2 ab :
  (t1 <=? t2)%float = true -> emit rt t1 ab `sublist_of` emit rt t2 ab.
Proof.
  intros Ht. destruct ab as [a b]. simpl.
  destruct (_ || _)%bool; [reflexivity|].
  destruct (pair_distance rt a b) as [d|]; [|reflexivity].
  destruct (d <=? t1)%float eqn:E1; [|apply sublist_nil_l].
  now rewrite (leb_trans d t1 t2 E1 Ht).
Qed.

Lemma close_pairs_spec_sublist l t1 t2 :
  (t1 <=? t2)%float = true ->
  close_pairs_spec rt l t1 `sublist_of` close_pairs_spec rt l t2.
Proof.
  intros Ht. unfold close_pairs_spec.
  induction (pairs_of l) as [|ab ps IH]; [reflexivity|].
  rewrite !bind_cons. apply sublist_app; [now apply emit_sublist|exact IH].
Qed.

(** X10. Raising the threshold loses no alert: when the screen returns for
    a threshold, it returns for any larger one with a list that contains the
    first as a sublist, in order; when it raises, it raises the same
    exception for every threshold. *)
Theorem find_close_pairs_threshold_monotone (sat_list : list dict) (t1 t2 : float) :
  (t1 <=? t2)%float = true ->
  match find_close_pairs rt sat_list t1 with
  | Ok p1 => exists p2, find_close_pairs rt sat_list t2 = Ok p2 /\ p1 `sublist_of` p2
  | Raise e => find_close_pairs rt sat_list t2 = Raise e
  end.
Proof.
  intros Ht. destruct (find_close_pairs rt sat_list t1) as [p1|e] eqn:E1.
  - pose proof (scan_all_ok rt sat_list t1 []) as Hok.
    fold (find_close_pairs rt sat_list t1) in Hok. rewrite E1 in Hok. simpl in Hok.
    symmetry in Hok. unfold find_close_pairs in *.
    rewrite scan_all_spec in E1 by exact Hok. injection E1 as <-.
    rewrite scan_all_spec by exact Hok. eexists. split; [reflexivity|].
    simpl. now apply close_pairs_spec_sublist.
  - unfold find_close_pairs in *. now apply (scan_all_raise _ t1 t2 [] []).
Qed.

(** X11. A list with at most one object that has coordinates gives the
    empty list and no exception, whatever the fields of its objects hold. *)
Theorem find_close_pairs_needs_two_located (sat_list : list dict) (threshold_km : float) :
  (length (filter (fun s => coords_absent s = false) sat_list) <= 1)%nat ->
  find_close_pairs rt sat_list threshold_km = Ok [].
Proof.
  intros H. unfold find_close_pairs. rewrite <- scan_all_located.
  destruct (filter _ sat_list) as [|a [|b l]]; [reflexivity| |simpl in H; lia].
  simpl. now destruct (coords_absent a).
Qed.

End ScanThreshold.

(** *** Programs that respect a relation on states

    A relation [R] between the state before and the state after that is
    reflexive and transitive and that the primitive writes respect
    ([setdefault], [update] with an allowed dictionary [U], the assignment of
    the last error, the three item assignments of a demo step) is respected
    by every writer of the catalog, however it ends. The invariants below are
    instances. *)

Section Writers.
Variable rt : runtime.
Variable R : state -> state -> Prop.
Variable U : Z -> dict -> Prop.

Hypothesis R_refl : forall st, R st st.
Hypothesis R_trans : forall a b c, R a b -> R b c -> R a c.
Hypothesis R_setdefault : forall satid st, R st (setdefault_empty satid st).1.
Hypothesis R_update : forall satid u st, U satid u -> R st (tracked_update satid u st).1.
Hypothesis R_error : forall e st, R st (with_error e st).
Hypothesis R_setitem : forall l k f st,
  k ∈ ["satlng"; "satlat"; "last_update"] -> R st (dict_setitem l k (PFloat f) st).1.
Hypothesis U_sweep : forall satid item alt category now u,
  category = "GEO" \/ category = "LEO" ->
  sweep_updates rt satid item alt category now = Ok u -> U satid u.
Hypothesis U_position : forall satid latest now u,
  position_updates rt latest now = Ok u -> U satid u.

Lemma respects_pret {A} (a : A) : respects R (pret a).
Proof. intros st. apply R_refl. Qed.

Lemma respects_lift {A} (r : res A) : respects R (lift r).
Proof. intros st. apply R_refl. Qed.

Lemma respects_bind {A B} (m : prog A) (k : A -> prog B) :
  respects R m -> (forall a, respects R (k a)) -> respects R (m ≫= k).
Proof.
  intros Hm Hk st. unfold_bind. specialize (Hm st).
  destruct (m st) as [st1 [a|e]]; simpl in *; [|exact Hm].
  eapply R_trans; [exact Hm|apply Hk].
Qed.

Lemma respects_for_each {A} (body : A -> prog unit) l :
  (forall x, respects R (body x)) -> respects R (for_each body l).
Proof.
  intros Hb. induction l as [|x l IH]; [apply respects_pret|].
  simpl. apply respects_bind; [apply Hb|intros _; exact IH].
Qed.

Lemma respects_sweep_update satid item alt category now :
  category = "GEO" \/ category = "LEO" ->
  respects R (updates ← lift (sweep_updates rt satid item alt category now);
              tracked_update satid updates).
Proof.
  intros Hc st. unfold_bind. unfold lift.
  destruct (sweep_updates rt satid item alt category now) as [u|e] eqn:Eu; [|apply R_refl].
  apply R_update. eapply U_sweep; eauto.
Qed.

Lemma respects_merge_geo_item now item : respects R (merge_geo_item rt now item).
Proof.
  unfold merge_geo_item.
  apply respects_bind; [apply respects_lift|intros v].
  apply respects_bind; [apply respects_lift|intros satid].
  apply respects_bind; [intros st; apply R_setdefault|intros _].
  apply respects_sweep_update. now left.
Qed.

Lemma respects_merge_all_item now item : respects R (merge_all_item rt now item).
Proof.
  unfold merge_all_item.
  apply respects_bind; [apply respects_lift|intros alt].
  destruct (alt <? LEO_MAX_ALT)%float; [|apply respects_pret].
  apply respects_bind; [apply respects_lift|intros v].
  apply respects_bind; [apply respects_lift|intros satid].
  apply respects_bind; [intros st; apply R_setdefault|intros _].
  apply respects_sweep_update. now right.
Qed.

Lemma respects_check_error resp : respects R (check_error resp).
Proof.
  unfold check_error. destruct resp as [| | | | |l|d]; try apply respects_pret.
  destruct (py_truthy _); [|apply respects_pret].
  apply respects_bind; [intros st; apply R_error|intros _].
  destruct (dict_get_or d "error" (PStr "")); first [apply respects_pret|apply respects_lift].
Qed.

Lemma respects_process_responses body resps :
  (forall x, respects R (body x)) -> respects R (process_responses body resps).
Proof.
  intros Hb. induction resps as [|[|v] rest IH]; simpl; [apply respects_pret|exact IH|].
  apply respects_bind; [apply respects_check_error|intros [|]]; [|apply respects_pret].
  apply respects_bind; [apply respects_lift|intros items].
  apply respects_bind; [now apply respects_for_each|intros _; exact IH].
Qed.

Lemma respects_load_responses body resps :
  (forall x, respects R (body x)) -> respects R (load_responses body resps).
Proof.
  intros Hb. induction resps as [|[|v] rest IH]; simpl; [apply respects_pret|exact IH|].
  destruct v as [| | | | |l|d]; try exact IH.
  destruct (py_truthy _); [exact IH|].
  apply respects_bind; [apply respects_lift|intros items].
  apply respects_bind; [now apply respects_for_each|intros _; exact IH].
Qed.

Lemma tracker_pass_respects net now st : R st (tracker_pass rt net now st).1.1.
Proof.
  unfold tracker_pass.
  match goal with |- context [let '(_, _) := ?m ?s in _] =>
    assert (Hm : respects R m);
      [|specialize (Hm s); destruct (m s) as [st1 r]]
  end.
  { apply respects_bind; [|intros _];
      apply respects_process_responses;
      [apply respects_merge_geo_item|apply respects_merge_all_item]. }
  cbn [fst snd] in *. eapply R_trans; [apply R_error|exact Hm].
Qed.

Lemma tracker_loop_respects passes st : R st (tracker_loop rt passes st).1.
Proof.
  revert st. induction passes as [|[net now] passes IH]; intros st; simpl; [apply R_refl|].
  pose proof (tracker_pass_respects net now st) as H1.
  destruct (tracker_pass rt net now st) as [[st1 evs] r]. cbn [fst snd] in H1.
  specialize (IH st1). destruct (tracker_loop rt passes st1) as [st2 later].
  cbn [fst snd] in *. eapply R_trans; eauto.
Qed.

Lemma load_all_respects demo_mode has_api_key net now st :
  R st (load_all_satellites rt demo_mode has_api_key net now st).1.1.
Proof.
  unfold load_all_satellites.
  destruct demo_mode; [apply R_refl|]. destruct (negb has_api_key); [apply R_refl|].
  match goal with |- context [let '(_, _) := ?m ?s in _] =>
    assert (Hm : respects R m);
      [|specialize (Hm s); destruct (m s) as [st1 r]]
  end.
  { apply respects_bind; [|intros _];
      apply respects_load_responses;
      [apply respects_merge_geo_item|apply respects_merge_all_item]. }
  exact Hm.
Qed.

Lemma update_position_respects net now satid st :
  R st (update_position rt net now satid st).1
  /\ result_allowed U (update_position rt net now satid st).2.
Proof.
  unfold update_position. destruct (net satid) as [|resp]; [split; [apply R_refl|exact I]|].
  destruct (has_error_payload resp).
  { destruct resp; (split; [first [apply R_error|apply R_refl]|exact I]). }
  unfold position_result.
  destruct (py_get_or resp "positions" (PList [])) as [pos_arr|]; [|split; [apply R_refl|exact I]].
  simpl. destruct (py_truthy pos_arr); [|split; [apply R_refl|exact I]].
  destruct (py_index0 pos_arr) as [latest|]; [|split; [apply R_refl|exact I]].
  simpl. destruct (position_updates rt latest now) as [u|] eqn:Eu; [|split; [apply R_refl|exact I]].
  simpl. split; [apply R_refl|]. eapply U_position; eauto.
Qed.

Lemma apply_result_respects r : result_allowed U r -> respects R (apply_result r).
Proof.
  intros Hr st. destruct r as [[satid u]|]; simpl; [|apply R_refl].
  unfold merge_existing. destruct (tracked_mem st satid); [|apply R_refl].
  now apply R_update.
Qed.

Lemma gather_positions_respects net now batch st :
  R st (gather_positions rt net now batch st).1
  /\ Forall (result_allowed U) (gather_positions rt net now batch st).2.
Proof.
  revert st. induction batch as [|satid batch IH]; intros st; simpl.
  - split; [apply R_refl|constructor].
  - destruct (update_position_respects net now satid st) as [H1 H2].
    destruct (update_position rt net now satid st) as [st1 r]. simpl in H1, H2.
    destruct (IH st1) as [H3 H4].
    destruct (gather_positions rt net now batch st1) as [st2 rs]. simpl in *.
    split; [eapply R_trans; eauto|now constructor].
Qed.

Lemma for_each_apply_respects rs st :
  Forall (result_allowed U) rs -> R st (for_each apply_result rs st).1.
Proof.
  intros Hrs. revert st. induction Hrs as [|r rs Hr _ IH]; intros st; [apply R_refl|].
  simpl. unfold_bind. pose proof (apply_result_respects r Hr st) as H1.
  destruct (apply_result r st) as [st1 [[]|e]]; simpl in *; [|exact H1].
  eapply R_trans; [exact H1|apply IH].
Qed.

Lemma position_batches_respects net now sats batch_size starts :
  respects R (position_batches rt net now sats batch_size starts).
Proof.
  induction starts as [|i starts IH]; intros st; [apply R_refl|].
  simpl.
  destruct (gather_positions_respects net now (take batch_size (drop i sats)) st) as [H1 H2].
  destruct (gather_positions rt net now (take batch_size (drop i sats)) st) as [st1 results].
  simpl in H1, H2. unfold_bind.
  pose proof (for_each_apply_respects results st1 H2) as H3.
  destruct (for_each apply_result results st1) as [st2 [[]|e]]; simpl in *.
  - eapply R_trans; [exact H1|]. eapply R_trans; [exact H3|apply IH].
  - eapply R_trans; eauto.
Qed.

Lemma positions_pass_respects net now st : R st (positions_pass rt net now st).1.
Proof. unfold positions_pass. apply position_batches_respects. Qed.

Lemma setitem_respects l k f :
  k ∈ ["satlng"; "satlat"; "last_update"] -> respects R (dict_setitem l k (PFloat f)).
Proof. intros Hk st. now apply R_setitem. Qed.

Lemma demo_step_entry_respects now l : respects R (demo_step_entry rt now l).
Proof.
  intros st. unfold demo_step_entry.
  match goal with |- R st (?m st).1 => enough (respects R m) as H by apply H end.
  apply respects_bind; [apply respects_lift|intros last].
  apply respects_bind; [apply respects_lift|intros lng0].
  apply respects_bind; [|intros _; apply setitem_respects; repeat constructor].
  destruct (py_eq_str _ _).
  - apply respects_bind; [apply respects_lift|intros lng].
    apply respects_bind; [|intros _]; apply setitem_respects; repeat constructor.
  - apply respects_bind; [apply respects_lift|intros lng].
    apply respects_bind; [apply setitem_respects; repeat constructor|intros _].
    apply respects_bind; [apply respects_lift|intros t].
    apply respects_bind; [apply respects_lift|intros sn].
    apply setitem_respects; repeat constructor.
Qed.

Lemma demo_step_respects now : respects R (_demo_step rt now).
Proof.
  intros st. unfold _demo_step.
  apply (respects_for_each (demo_step_entry rt now) (snapshot st)).
  intros l. apply demo_step_entry_respects.
Qed.

Lemma demo_steps_respects nows : respects R (demo_steps rt nows).
Proof.
  induction nows as [|now nows IH]; [apply respects_pret|].
  simpl. apply respects_bind; [apply demo_step_respects|intros _; exact IH].
Qed.

End Writers.

(** *** The catalog only grows (main.py) *)

Lemma grows_refl st : grows st st.
Proof.
  intros Hwf. split; [exact Hwf|]. split; [reflexivity|]. split; [reflexivity|].
  intros l old H. exists old. split; [exact H|split; auto].
Qed.

Lemma grows_trans a b c : grows a b -> grows b c -> grows a c.
Proof.
  intros Hab Hbc Hwf. destruct (Hab Hwf) as (Hwfb & Hp1 & Hc1 & Hk1).
  destruct (Hbc Hwfb) as (Hwfc & Hp2 & Hc2 & Hk2).
  split; [exact Hwfc|]. split; [now transitivity (tracked b)|]. split; [congruence|].
  intros l old H. destruct (Hk1 _ _ H) as (mid & Hm & Hkm & Hvm).
  destruct (Hk2 _ _ Hm) as (new & Hn & Hkn & Hvn). exists new.
  split; [exact Hn|]. split; [auto|].
  intros k Hk. now rewrite Hvn, Hvm.
Qed.

Lemma grows_setdefault satid st : grows st (setdefault_empty satid st).1.
Proof.
  intros Hwf.
  destruct (setdefault_empty_spec st satid Hwf) as (st' & E & Hwf' & Hc & _ & _ & Hnew & Hold).
  rewrite E. simpl. split; [exact Hwf'|].
  destruct (tracked_get (tracked st) satid) as [l|] eqn:Eg.
  - rewrite (Hold ltac:(eauto)). apply grows_refl, Hwf.
  - split; [rewrite (Hnew eq_refl); now apply prefix_app_r|]. split; [exact Hc|].
    intros l old H. exists old. split; [|split; auto].
    unfold setdefault_empty in E. rewrite Eg in E. injection E as <-. simpl.
    now apply lookup_app_l_Some.
Qed.

Lemma alter_keeps_keys (f : dict -> dict) l (h : list dict) :
  (forall d k, is_Some (d !! k) -> is_Some (f d !! k)) ->
  (forall d k, k ∉ sweep_fields -> f d !! k = d !! k) ->
  forall l' old, h !! l' = Some old ->
    exists new, alter f l h !! l' = Some new
      /\ (forall k, is_Some (old !! k) -> is_Some (new !! k))
      /\ (forall k, k ∉ sweep_fields -> new !! k = old !! k).
Proof.
  intros Hf Hv l' old H. destruct (decide (l = l')) as [->|Hne].
  - exists (f old). split; [|split; auto]. now rewrite list_lookup_alter_eq, H.
  - exists old. split; [|split; auto]. now rewrite list_lookup_alter_ne.
Qed.

Lemma grows_with_heap_alter (f : dict -> dict) l st :
  (forall d k, is_Some (d !! k) -> is_Some (f d !! k)) ->
  (forall d k, k ∉ sweep_fields -> f d !! k = d !! k) ->
  grows st (with_heap (alter f l (heap st)) st).
Proof.
  intros Hf Hv [Hr Hn]. split; [|split; [reflexivity|split; [reflexivity|]]].
  - split; [|exact Hn]. simpl. now rewrite length_alter.
  - simpl. now apply alter_keeps_keys.
Qed.

Lemma grows_update satid u st :
  (forall k, is_Some (u !! k) -> k ∈ sweep_fields) ->
  grows st (tracked_update satid u st).1.
Proof.
  intros Hu. unfold tracked_update.
  destruct (tracked_get (tracked st) satid) as [l|]; simpl; [|apply grows_refl].
  apply grows_with_heap_alter.
  - intros d k [v Hv]. destruct (u !! k) as [w|] eqn:Eu.
    + exists w. now apply lookup_union_Some_l.
    + exists v. rewrite lookup_union_r; assumption.
  - intros d k Hk. apply lookup_union_r.
    destruct (u !! k) eqn:Eu; [|reflexivity]. exfalso. apply Hk, Hu. eauto.
Qed.

Lemma grows_error e st : grows st (with_error e st).
Proof.
  intros Hwf. split; [exact Hwf|]. split; [reflexivity|]. split; [reflexivity|].
  intros l old H. exists old. split; [exact H|split; auto].
Qed.

Lemma tracked_get_app_l tr tr' k l :
  tracked_get tr k = Some l -> tracked_get (tr ++ tr') k = Some l.
Proof.
  induction tr as [|[k0 l0] tr IH]; simpl; [discriminate|].
  destruct (k0 =? k); [auto|exact IH].
Qed.

(** What [catalog_grows] means for the entries and the snapshot. *)
Lemma catalog_grows_entries st st' :
  catalog_grows st st' ->
  snapshot st `prefix_of` snapshot st'
  /\ (tracked st).*1 `prefix_of` (tracked st').*1
  /\ (length (tracked st) <= length (tracked st'))%nat
  /\ forall satid old, entry_of st satid = Some old ->
       exists new, entry_of st' satid = Some new
         /\ (forall k, is_Some (old !! k) -> is_Some (new !! k))
         /\ (forall k, k ∉ sweep_fields -> new !! k = old !! k).
Proof.
  intros (Hwf & [more Hp] & Hc & Hk). unfold snapshot. rewrite Hp, !fmap_app.
  split; [now apply prefix_app_r|]. split; [now apply prefix_app_r|].
  split; [rewrite length_app; lia|].
  intros satid old. unfold entry_of.
  destruct (tracked_get (tracked st) satid) as [l|] eqn:E; [|discriminate]. simpl.
  intros H. rewrite Hp, (tracked_get_app_l _ more _ _ E). simpl. now apply Hk.
Qed.

Section Grows.
Variable rt : runtime.

(** The dictionary of a sweep has the seven keys of [sweep_fields] and no other. *)
Lemma sweep_updates_keys satid item alt category now u :
  sweep_updates rt satid item alt category now = Ok u ->
  forall k, is_Some (u !! k) -> k ∈ sweep_fields.
Proof.
  unfold sweep_updates.
  destruct (py_get item "satname") as [name|]; [|discriminate]. simpl.
  destruct (float_or_None rt item "satlat") as [lat|]; [|discriminate]. simpl.
  destruct (float_or_None rt item "satlng") as [lng|]; [|discriminate]. simpl.
  destruct alt as [a|]; [|discriminate]. simpl.
  intros [= <-] k. unfold sweep_fields.
  rewrite !lookup_insert_is_Some, lookup_empty, !elem_of_cons, elem_of_nil.
  intros H. repeat (destruct H as [H|[_ H]]; [auto 10|]). now destruct H.
Qed.

Lemma tracker_loop_grows passes st : grows st (tracker_loop rt passes st).1.
Proof.
  apply (tracker_loop_respects rt grows
           (fun _ u => forall k, is_Some (u !! k) -> k ∈ sweep_fields));
    auto using grows_refl, grows_setdefault, grows_update, grows_error.
  - apply grows_trans.
  - intros satid item alt category now' u _. apply sweep_updates_keys.
Qed.

Lemma load_all_grows demo_mode has_api_key net now st :
  grows st (load_all_satellites rt demo_mode has_api_key net now st).1.1.
Proof.
  apply (load_all_respects rt grows
           (fun _ u => forall k, is_Some (u !! k) -> k ∈ sweep_fields));
    auto using grows_refl, grows_setdefault, grows_update.
  - apply grows_trans.
  - intros satid item alt category now' u _. apply sweep_updates_keys.
Qed.

(** X14. However many passes of the sweep run, whatever the network answers
    and however each pass ends: the state stays well formed, every entry
    stays in the catalog at its place (new ones come after), no key of an
    entry is removed, the value of every key other than the seven a sweep
    writes is as it was, and the subscribers are not touched. The values of
    the seven keys are not kept: a record overwrites them, with [None] and
    [0.0] where it lacks a field. *)
Theorem sweeps_only_add passes st :
  wf_state st ->
  wf_state (tracker_loop rt passes st).1
  /\ snapshot st `prefix_of` snapshot (tracker_loop rt passes st).1
  /\ (tracked st).*1 `prefix_of` (tracked (tracker_loop rt passes st).1).*1
  /\ clients (tracker_loop rt passes st).1 = clients st
  /\ forall satid old, entry_of st satid = Some old ->
       exists new, entry_of (tracker_loop rt passes st).1 satid = Some new
         /\ (forall k, is_Some (old !! k) -> is_Some (new !! k))
         /\ (forall k, k ∉ sweep_fields -> new !! k = old !! k).
Proof.
  intros Hwf. pose proof (tracker_loop_grows passes st Hwf) as Hg.
  destruct (catalog_grows_entries _ _ Hg) as (Hs & Hk & _ & He).
  destruct Hg as (Hwf' & _ & Hc & _). auto.
Qed.

(** X18. The manual load, when it is not refused: whatever the answers and
    however it ends, every entry stays in the catalog at its place, no key
    of an entry is removed, only the seven keys a load writes can change
    value (they are overwritten, with [None] and [0.0] where a record lacks
    a field) and the subscribers are not touched; when it completes, its
    reply counts the catalog as it then is, [newly_loaded] is the number of
    entries it added (never negative), and the two category counts do not
    exceed the total. *)
Theorem load_all_reply_counts net now st :
  wf_state st ->
  catalog_grows st (load_all_satellites rt false true net now st).1.1
  /\ match (load_all_satellites rt false true net now st).2 with
     | LoadDone total_tracked newly_loaded leo_count geo_count =>
         total_tracked = length (snapshot (load_all_satellites rt false true net now st).1.1)
         /\ newly_loaded
            = Z.of_nat (length (tracked (load_all_satellites rt false true net now st).1.1)
                        - length (tracked st))
         /\ 0 <= newly_loaded
         /\ (leo_count + geo_count <= total_tracked)%nat
     | LoadFailed _ => True
     | LoadRefused _ => False
     end.
Proof.
  intros Hwf. pose proof (load_all_grows false true net now st Hwf) as Hg.
  unfold load_all_satellites in *. cbn [negb] in *.
  match goal with |- context [let '(_, _) := ?m ?s in _] => destruct (m s) as [st1 [[]|e]] end;
    cbn [fst snd] in *; (split; [exact Hg|]); [|exact I].
  destruct (catalog_grows_entries _ _ Hg) as (_ & _ & Hlen & _).
  unfold snapshot, view. rewrite !length_fmap. split; [reflexivity|].
  split; [lia|]. split; [lia|].
  pose proof (count_category_le (deref (heap st1) <$> (tracked st1).*2)) as Hc.
  rewrite !length_fmap in Hc. exact Hc.
Qed.

End Grows.

(** *** The manual load and the sweep (main.py) *)

Lemma load_all_fetch_in_flight net seeds :
  final_in_flight 0 (events (load_all_fetch net seeds)) = O
  /\ peak_in_flight 0 (events (load_all_fetch net seeds)) = (2 * length seeds)%nat.
Proof.
  cbn [load_all_fetch events].
  destruct (issue_all FetchGeo seeds 0) as [F1 P1].
  destruct (issue_all FetchAll seeds (length seeds)) as [F2 P2].
  destruct (done_all FetchGeo seeds (length seeds + length seeds)) as [F3 P3].
  destruct (done_all FetchAll seeds (length seeds)) as [F4 P4].
  simpl in F1, P1.
  replace (length seeds + length seeds - length seeds)%nat with (length seeds) in F3 by lia.
  rewrite Nat.sub_diag in F4.
  repeat rewrite ?final_in_flight_app, ?peak_in_flight_app.
  repeat rewrite ?F1, ?P1, ?F2, ?P2, ?F3, ?P3, ?F4, ?P4.
  split; [reflexivity|lia].
Qed.

Section LoadProps.
Variable rt : runtime.

(** X17. The manual load starts every fetch of both families before it awaits
    any: with [n] regions, [2 n] fetches are in flight at once, 12 for the 6
    regions of the configuration, three times [MAX_PARALLEL_REQUESTS]. *)
Theorem load_all_ignores_the_cap net now st :
  (forall seeds,
     final_in_flight 0 (events (load_all_fetch net seeds)) = O
     /\ peak_in_flight 0 (events (load_all_fetch net seeds)) = (2 * length seeds)%nat)
  /\ peak_in_flight 0 (load_all_satellites rt false true net now st).1.2 = 12%nat
  /\ count_issues (load_all_satellites rt false true net now st).1.2 = 12%nat
  /\ MAX_PARALLEL_REQUESTS = 4%nat.
Proof.
  split; [intros seeds; apply load_all_fetch_in_flight|].
  unfold load_all_satellites. cbn [negb].
  match goal with |- context [let '(_, _) := ?m ?s in _] => destruct (m s) as [st1 r] end.
  cbn [fst snd]. repeat split; reflexivity.
Qed.

Lemma keeps_error_refl st : keeps_error st st.
Proof. reflexivity. Qed.

Lemma keeps_error_trans a b c : keeps_error a b -> keeps_error b c -> keeps_error a c.
Proof. unfold keeps_error. congruence. Qed.

Lemma keeps_error_setdefault satid st : keeps_error st (setdefault_empty satid st).1.
Proof. unfold setdefault_empty. now destruct (tracked_get _ _). Qed.

Lemma keeps_error_update satid u st : keeps_error st (tracked_update satid u st).1.
Proof. unfold tracked_update. now destruct (tracked_get _ _). Qed.

Lemma load_responses_keep_error body resps :
  (forall x, respects keeps_error (body x)) -> respects keeps_error (load_responses body resps).
Proof.
  apply (respects_load_responses keeps_error); auto using keeps_error_refl.
  apply keeps_error_trans.
Qed.

Lemma load_all_keeps_error demo_mode has_api_key net now st :
  keeps_error st (load_all_satellites rt demo_mode has_api_key net now st).1.1.
Proof.
  apply (load_all_respects rt keeps_error (fun _ _ => True));
    auto using keeps_error_refl, keeps_error_setdefault, keeps_error_update.
  apply keeps_error_trans.
Qed.

(** The answers the manual load passes over change nothing. *)
Lemma load_responses_without_errors body net k seeds :
  load_responses body ((fun s => RVal (fetch (without_errors net) k s)) <$> seeds)
  = load_responses body ((fun s => RVal (fetch net k s)) <$> seeds).
Proof.
  induction seeds as [|s seeds IH]; [reflexivity|].
  rewrite !fmap_cons. unfold fetch at 1 3, without_errors at 1.
  destruct (net k s) as [|v]; [cbn; now rewrite IH|].
  destruct v as [| | | | |l|d].
  1-6: cbn; rewrite ?map_empty; cbn; unfold_bind; cbn; now rewrite IH.
  destruct (py_truthy (dict_get d "error")) eqn:E; cbn.
  - rewrite E. cbn. unfold_bind. cbn. now rewrite IH.
  - rewrite E. now rewrite IH.
Qed.

(** X19. For the manual load an answer with an error payload, or one that is
    not a dictionary, is the same as a failed fetch: it contributes nothing
    and stops nothing. The load never writes the last-error variable. *)
Theorem load_treats_errors_as_failures demo_mode has_api_key net now st :
  load_all_satellites rt demo_mode has_api_key (without_errors net) now st
  = load_all_satellites rt demo_mode has_api_key net now st
  /\ last_n2yo_error (load_all_satellites rt demo_mode has_api_key net now st).1.1
     = last_n2yo_error st.
Proof.
  split; [|apply load_all_keeps_error].
  unfold load_all_satellites. destruct demo_mode; [reflexivity|].
  destruct (negb has_api_key); [reflexivity|].
  cbn [load_all_fetch geo_responses all_responses events].
  now rewrite !load_responses_without_errors.
Qed.

Lemma process_responses_as_load body resps :
  Forall no_error_payload resps ->
  process_responses body resps = load_responses body resps.
Proof.
  induction 1 as [|r resps Hr _ IH]; [reflexivity|].
  destruct r as [|v]; [exact IH|]. simpl in Hr.
  destruct v as [| | | | |l|d]; cbn; try (unfold_bind; cbn; now rewrite IH).
  simpl in Hr. rewrite Hr. cbn. unfold_bind. cbn. now rewrite IH.
Qed.

Lemma fetch_phase_responses net :
  geo_responses (fetch_phase net ABOVE_SEEDS MAX_PARALLEL_REQUESTS)
  = geo_responses (load_all_fetch net ABOVE_SEEDS)
  /\ all_responses (fetch_phase net ABOVE_SEEDS MAX_PARALLEL_REQUESTS)
     = all_responses (load_all_fetch net ABOVE_SEEDS).
Proof. split; reflexivity. Qed.

(** X16. When no answer of a pass carries an error payload, the sweep merges
    exactly what the manual load would merge from the same answers, ends the
    same way, and leaves the last-error variable at [None], whatever it held
    before. *)
Theorem sweep_matches_load_without_errors net now st :
  (forall k s, has_error_payload (fetch net k s) = false) ->
  (tracker_pass rt net now st).1.1
  = (load_all_satellites rt false true net now (with_error PNone st)).1.1
  /\ last_n2yo_error (tracker_pass rt net now st).1.1 = PNone
  /\ match (tracker_pass rt net now st).2,
           (load_all_satellites rt false true net now (with_error PNone st)).2 with
     | Ok _, LoadDone _ _ _ _ => True
     | Raise e, LoadFailed e' => e = e'
     | _, _ => False
     end.
Proof.
  intros Hnet.
  pose proof (load_all_keeps_error false true net now (with_error PNone st)) as Herr.
  unfold keeps_error in Herr. cbn [with_error last_n2yo_error] in Herr.
  assert (E : (tracker_pass rt net now st).1.1
              = (load_all_satellites rt false true net now (with_error PNone st)).1.1
            /\ match (tracker_pass rt net now st).2,
                     (load_all_satellites rt false true net now (with_error PNone st)).2 with
               | Ok _, LoadDone _ _ _ _ => True
               | Raise e, LoadFailed e' => e = e'
               | _, _ => False
               end).
  { unfold tracker_pass, load_all_satellites. cbn [negb].
    destruct (fetch_phase_responses net) as [-> ->].
    rewrite !process_responses_as_load.
    - match goal with |- context [let '(_, _) := ?m ?s in _] =>
        destruct (m s) as [st1 [[]|e]] end; split; reflexivity.
    - cbn [load_all_fetch all_responses]. apply Forall_fmap, Forall_forall.
      intros s _. apply Hnet.
    - cbn [load_all_fetch geo_responses]. apply Forall_fmap, Forall_forall.
      intros s _. apply Hnet. }
  destruct E as [E1 E2]. split; [exact E1|]. split; [|exact E2].
  rewrite E1. exact Herr.
Qed.

End LoadProps.

(** X15. An answer of a sweep whose error payload is a string: a rate-limit
    message ends the loop over the answers of that family, and the later
    ones are not looked at; any other message is recorded and the answer is
    then processed as if it had no error field. A payload that is not a
    string is recorded and raises [AttributeError]. *)
Theorem sweep_error_answer (body : pyval -> prog unit) (d : dict) v rest st :
  d !! "error" = Some v ->
  py_truthy v = true ->
  process_responses body (RVal (PDict d) :: rest) st =
  match v with
  | PStr s =>
      if rate_limited s then (with_error v st, Ok tt)
      else process_responses body (RVal (PDict (delete "error" d)) :: rest)
             (with_error v st)
  | _ => (with_error v st, Raise AttributeError)
  end.
Proof.
  intros Hv Ht. cbn [process_responses check_error].
  unfold dict_get, dict_get_or. rewrite !lookup_delete_eq, Hv. cbn [default from_option id].
  rewrite Ht. cbn [py_truthy]. unfold_bind. cbn [set_last_error].
  destruct v as [| | | |s| |]; try reflexivity.
  cbn [pret]. destruct (rate_limited s); [reflexivity|].
  cbn [above_items lift]. unfold dict_get_or.
  rewrite lookup_delete_ne by discriminate. reflexivity.
Qed.

(** *** The catalog invariant (main.py) *)

Lemma stays_ok_refl st : stays_ok st st.
Proof. intros H. exact H. Qed.

Lemma stays_ok_trans a b c : stays_ok a b -> stays_ok b c -> stays_ok a c.
Proof. unfold stays_ok. auto. Qed.

Lemma NoDup_snd_inj {A B} (l : list (A * B)) a b x :
  NoDup l.*2 -> (a, x) ∈ l -> (b, x) ∈ l -> a = b.
Proof.
  intros Hn Ha Hb. apply list_elem_of_lookup in Ha as [i Hi], Hb as [j Hj].
  assert (i = j) as ->.
  { eapply NoDup_lookup; [exact Hn| |]; rewrite list_lookup_fmap.
    - rewrite Hi. reflexivity.
    - rewrite Hj. reflexivity. }
  congruence.
Qed.

Lemma entry_typed_union satid (u d : dict) :
  entry_typed satid u -> entry_typed satid d -> entry_typed satid (u ∪ d).
Proof.
  intros Hu Hd k v Hv. apply lookup_union_Some_raw in Hv as [Hv|[_ Hv]].
  - exact (Hu k v Hv).
  - exact (Hd k v Hv).
Qed.

Lemma entry_typed_insert satid k v (d : dict) :
  field_ok satid k v = true -> entry_typed satid d -> entry_typed satid (<[k := v]> d).
Proof. intros Hv Hd. now apply map_Forall_insert_2. Qed.

Lemma entry_typed_empty satid : entry_typed satid ∅.
Proof. apply map_Forall_empty. Qed.

Lemma entry_typed_list satid (l : list (string * pyval)) :
  Forall (fun kv => field_ok satid kv.1 kv.2 = true) l ->
  entry_typed satid (list_to_map l).
Proof.
  induction 1 as [|[k v] l Hkv _ IH]; [apply entry_typed_empty|].
  simpl. now apply entry_typed_insert.
Qed.

(** Writing into one object keeps the invariant when the object stays typed
    for the id that owns it. *)
Lemma stays_ok_alter (f : dict -> dict) l st :
  (forall satid d, (satid, l) ∈ tracked st -> entry_typed satid d -> entry_typed satid (f d)) ->
  stays_ok st (with_heap (alter f l (heap st)) st).
Proof.
  intros Hf ([Hr Hn] & Hk & Ht). split; [|split; [exact Hk|]].
  - split; [|exact Hn]. simpl. now rewrite length_alter.
  - simpl. rewrite Forall_forall in Ht |- *. intros [k l'] Hin. simpl.
    specialize (Ht _ Hin). simpl in Ht. unfold deref in *.
    destruct (decide (l = l')) as [<-|Hne].
    + rewrite list_lookup_alter_eq. destruct (heap st !! l) as [d|]; simpl in *; [|exact Ht].
      now apply Hf.
    + now rewrite list_lookup_alter_ne.
Qed.

Lemma stays_ok_setdefault satid st : stays_ok st (setdefault_empty satid st).1.
Proof.
  intros (Hwf & Hk & Ht).
  destruct (setdefault_empty_spec st satid Hwf) as (st' & E & Hwf' & _ & _ & _ & _ & Hold).
  rewrite E. simpl.
  destruct (tracked_get (tracked st) satid) as [l|] eqn:Eg.
  - rewrite (Hold ltac:(eauto)). now split.
  - split; [exact Hwf'|]. unfold setdefault_empty in E. rewrite Eg in E.
    injection E as <-. simpl. split.
    + rewrite fmap_app. apply NoDup_app. split; [exact Hk|]. split.
      * intros x Hx Hx'. simpl in Hx'. apply list_elem_of_singleton in Hx' as ->.
        now apply tracked_get_None in Eg.
      * simpl. apply NoDup_singleton.
    + apply Forall_app. split.
      * destruct Hwf as [Hr _]. rewrite Forall_forall in Hr, Ht |- *.
        intros [k l] Hin. specialize (Hr _ Hin). specialize (Ht _ Hin). simpl in *.
        unfold deref in *. now rewrite lookup_app_l.
      * constructor; [|constructor]. simpl. unfold deref.
        rewrite list_lookup_middle by reflexivity. apply entry_typed_empty.
Qed.

Lemma stays_ok_update satid u st :
  entry_typed satid u -> stays_ok st (tracked_update satid u st).1.
Proof.
  intros Hu. unfold tracked_update.
  destruct (tracked_get (tracked st) satid) as [l|] eqn:E; simpl; [|apply stays_ok_refl].
  intros Hok. apply stays_ok_alter; [|exact Hok].
  intros k d Hin Hd. destruct Hok as ([_ Hn] & _ & _).
  assert (k = satid) as ->
    by (eapply NoDup_snd_inj; [exact Hn|exact Hin|now apply tracked_get_elem]).
  now apply entry_typed_union.
Qed.

Lemma stays_ok_error e st : stays_ok st (with_error e st).
Proof. intros H. exact H. Qed.

Lemma stays_ok_setitem l k f st :
  k ∈ ["satlng"; "satlat"; "last_update"] ->
  stays_ok st (dict_setitem l k (PFloat f) st).1.
Proof.
  intros Hk. unfold dict_setitem. simpl. apply stays_ok_alter.
  intros satid d _ Hd. apply entry_typed_insert; [|exact Hd].
  rewrite !elem_of_cons, elem_of_nil in Hk.
  destruct Hk as [->|[->|[->|[]]]]; reflexivity.
Qed.

Section Typed.
Variable rt : runtime.

Lemma float_or_None_shape item k v :
  float_or_None rt item k = Ok v -> v = PNone \/ exists f, v = PFloat f.
Proof.
  unfold float_or_None. destruct (py_get item k) as [w|]; [|discriminate]. simpl.
  destruct (is_None w); [intros [= <-]; now left|].
  destruct (py_float rt w) as [f|]; [|discriminate]. simpl. intros [= <-]. eauto.
Qed.

Lemma sweep_updates_typed satid item alt category now u :
  category = "GEO" \/ category = "LEO" ->
  sweep_updates rt satid item alt category now = Ok u -> entry_typed satid u.
Proof.
  intros Hc. unfold sweep_updates.
  destruct (py_get item "satname") as [name|]; [|discriminate]. simpl.
  destruct (float_or_None rt item "satlat") as [lat|] eqn:Elat; [|discriminate]. simpl.
  destruct (float_or_None rt item "satlng") as [lng|] eqn:Elng; [|discriminate]. simpl.
  destruct alt as [a|]; [|discriminate]. cbn [mbind res_bind]. intros [= <-].
  apply float_or_None_shape in Elat, Elng.
  repeat match goal with
         | |- entry_typed _ (<[_:=_]> _) => apply entry_typed_insert
         | |- entry_typed _ ∅ => apply entry_typed_empty
         end; try reflexivity.
  - cbn. apply Z.eqb_refl.
  - destruct Elat as [->|[f ->]]; reflexivity.
  - destruct Elng as [->|[f ->]]; reflexivity.
  - destruct Hc as [->| ->]; reflexivity.
Qed.

Lemma position_updates_typed satid latest now u :
  position_updates rt latest now = Ok u -> entry_typed satid u.
Proof.
  unfold position_updates.
  destruct (float_or_None rt latest "satlatitude") as [lat|] eqn:Elat; [|discriminate].
  destruct (float_or_None rt latest "satlongitude") as [lng|] eqn:Elng; [|discriminate].
  simpl.
  destruct (py_get_or latest "sataltitude" (PFloat 0)) as [v|]; [|discriminate].
  simpl. destruct (py_float rt v) as [alt|]; [|discriminate].
  cbn [mbind res_bind]. intros [= <-].
  apply float_or_None_shape in Elat, Elng.
  repeat match goal with
         | |- entry_typed _ (<[_:=_]> _) => apply entry_typed_insert
         | |- entry_typed _ ∅ => apply entry_typed_empty
         end; try reflexivity.
  - destruct Elat as [->|[f ->]]; reflexivity.
  - destruct Elng as [->|[f ->]]; reflexivity.
Qed.

End Typed.

Lemma for_each_fmap {A B} (f : A -> B) (body : B -> prog unit) l :
  for_each body (f <$> l) = for_each (fun x => body (f x)) l.
Proof.
  induction l as [|x l IH]; [reflexivity|].
  rewrite fmap_cons. cbn [for_each]. now rewrite IH.
Qed.

Lemma for_each_ext {A} (body body' : A -> prog unit) l :
  (forall x, body x = body' x) -> for_each body l = for_each body' l.
Proof. intros H. induction l as [|x l IH]; [reflexivity|]. simpl. now rewrite H, IH. Qed.

(** Assigning fresh, distinct ids one after the other appends their objects
    to the heap and their references to the catalog. *)
Lemma assign_all (items : list (Z * dict)) st :
  NoDup items.*1 ->
  (forall k, k ∈ items.*1 -> k ∉ (tracked st).*1) ->
  for_each (fun p => tracked_assign p.1 p.2) items st
  = (with_tracked (heap st ++ items.*2)
       (tracked st ++ zip items.*1 (seq (length (heap st)) (length items))) st,
     Ok tt).
Proof.
  revert st. induction items as [|[k d] items IH]; intros st Hn Hfresh.
  - simpl. rewrite !app_nil_r. now destruct st.
  - rewrite fmap_cons in Hn. apply NoDup_cons in Hn as [Hk Hn].
    assert (Hnone : tracked_get (tracked st) k = None).
    { apply tracked_get_None, Hfresh. left. }
    cbn [for_each]. unfold_bind. unfold tracked_assign at 1. cbn [fst snd].
    rewrite Hnone. rewrite IH; [|exact Hn|].
    + cbn [with_tracked heap tracked clients last_n2yo_error].
      rewrite length_app. cbn [length]. rewrite Nat.add_1_r.
      rewrite <- !app_assoc. reflexivity.
    + intros k' Hk'. cbn [with_tracked tracked]. rewrite fmap_app, elem_of_app.
      intros [H|H].
      * revert H. apply Hfresh. now right.
      * simpl in H. apply list_elem_of_singleton in H as ->. contradiction.
Qed.

Lemma demo_ids_NoDup now : NoDup (demo_entries now).*1.
Proof. apply (bool_decide_unpack _). vm_compute. exact I. Qed.

(** On an empty catalog the demo generator appends its 42 objects, in
    order, whatever the heap holds. *)
Lemma ensure_demo_on_empty now st :
  tracked st = [] ->
  _ensure_demo_catalog now st
  = (with_tracked (heap st ++ (demo_entries now).*2)
       (zip (demo_entries now).*1 (seq (length (heap st)) 42)) st,
     Ok tt).
Proof.
  intros Hempty. unfold _ensure_demo_catalog. rewrite Hempty.
  pose proof (assign_all (demo_entries now) st (demo_ids_NoDup now)) as H.
  rewrite Hempty in H. cbn [app] in H.
  change (length (demo_entries now)) with 42%nat in H.
  rewrite <- H by (intros k _ Hk; inversion Hk).
  unfold demo_entries. rewrite for_each_app, !for_each_fmap. unfold_bind.
  rewrite (for_each_ext _ (fun x => tracked_assign (demo_geo now x).1 (demo_geo now x).2))
    by (intros x; now destruct (demo_geo now x)).
  destruct (for_each _ (seq 0 12) st) as [st1 [[]|e]]; [|reflexivity].
  rewrite (for_each_ext _ (fun x => tracked_assign (demo_leo now x).1 (demo_leo now x).2))
    by (intros x; now destruct (demo_leo now x)).
  reflexivity.
Qed.

Lemma ensure_demo_on_nonempty now st :
  tracked st <> [] -> _ensure_demo_catalog now st = (st, Ok tt).
Proof. unfold _ensure_demo_catalog. destruct (tracked st); [congruence|reflexivity]. Qed.

Lemma demo_entries_typed now :
  Forall (fun p : Z * dict => entry_typed p.1 p.2) (demo_entries now).
Proof.
  unfold demo_entries. apply Forall_app. split; apply Forall_fmap, Forall_forall.
  - intros i Hi. apply elem_of_seq in Hi. cbn [demo_geo fst snd compose].
    apply entry_typed_list. repeat constructor; cbn [fst snd]; try reflexivity.
    cbn. apply Z.eqb_refl.
  - intros i Hi. cbn [demo_leo fst snd compose].
    apply entry_typed_list. repeat constructor; cbn [fst snd]; try reflexivity.
    cbn. apply Z.eqb_refl.
Qed.

Lemma demo_entries_length now : length (demo_entries now) = 42%nat.
Proof. reflexivity. Qed.

Lemma ensure_demo_wf now st :
  wf_state st -> wf_state (_ensure_demo_catalog now st).1.
Proof.
  intros Hwf. destruct (tracked st) eqn:E.
  - rewrite ensure_demo_on_empty by exact E. cbn [fst]. split; cbn [with_tracked heap tracked].
    + rewrite Forall_forall. intros [k l] Hin.
      apply elem_of_zip_r, elem_of_seq in Hin. cbn [snd].
      rewrite length_app, !length_fmap, demo_entries_length. lia.
    + rewrite snd_zip by (rewrite length_seq, length_fmap, demo_entries_length; lia).
      apply NoDup_seq.
  - rewrite ensure_demo_on_nonempty by (rewrite E; discriminate). exact Hwf.
Qed.

Lemma stays_ok_ensure_demo now st : stays_ok st (_ensure_demo_catalog now st).1.
Proof.
  intros (Hwf & Hk & Ht). split; [now apply ensure_demo_wf|].
  destruct (tracked st) eqn:E.
  - rewrite ensure_demo_on_empty by exact E. cbn [fst with_tracked heap tracked]. split.
    + rewrite fst_zip by (rewrite length_seq, length_fmap, demo_entries_length; lia).
      apply demo_ids_NoDup.
    + apply Forall_lookup. intros i [k l] Hi.
      apply lookup_zip_with_Some in Hi as (k' & l' & [= <- <-] & Hk' & Hl').
      apply lookup_seq in Hl' as [-> Hlt]. cbn [fst snd].
      rewrite list_lookup_fmap in Hk'.
      destruct (demo_entries now !! i) as [[k0 d0]|] eqn:Ed; [|discriminate].
      injection Hk' as <-. unfold deref.
      rewrite lookup_app_r by lia.
      replace (length (heap st) + i - length (heap st))%nat with i by lia.
      rewrite list_lookup_fmap, Ed. cbn.
      pose proof (demo_entries_typed now) as Hty. rewrite Forall_lookup in Hty.
      exact (Hty _ _ Ed).
  - rewrite ensure_demo_on_nonempty by (rewrite E; discriminate). cbn [fst].
    rewrite E. now split.
Qed.

Lemma catalog_ok_entry st satid e :
  catalog_ok st -> entry_of st satid = Some e -> entry_typed satid e.
Proof.
  intros (Hwf & _ & Ht). unfold entry_of.
  destruct (tracked_get (tracked st) satid) as [l|] eqn:E; [|discriminate]. cbn.
  intros He. apply tracked_get_elem in E. rewrite Forall_forall in Ht.
  specialize (Ht _ E). cbn in Ht. unfold deref in Ht. now rewrite He in Ht.
Qed.

Section WritersTyped.
Variable rt : runtime.

Lemma run_writer_ok st w : catalog_ok st -> catalog_ok (run_writer rt st w).
Proof.
  destruct w as [net now|net now|net now|now|now]; cbn [run_writer].
  - apply (tracker_pass_respects rt stays_ok entry_typed);
      auto using stays_ok_refl, stays_ok_setdefault, stays_ok_update, stays_ok_error.
    + apply stays_ok_trans.
    + intros. eapply sweep_updates_typed; eauto.
  - apply (load_all_respects rt stays_ok entry_typed);
      auto using stays_ok_refl, stays_ok_setdefault, stays_ok_update.
    + apply stays_ok_trans.
    + intros. eapply sweep_updates_typed; eauto.
  - apply (positions_pass_respects rt stays_ok entry_typed);
      auto using stays_ok_refl, stays_ok_update, stays_ok_error.
    + apply stays_ok_trans.
    + intros. eapply position_updates_typed; eauto.
  - apply stays_ok_ensure_demo.
  - apply (demo_step_respects rt stays_ok);
      auto using stays_ok_refl, stays_ok_setitem.
    apply stays_ok_trans.
Qed.

Lemma run_writers_ok ws st : catalog_ok st -> catalog_ok (run_writers rt ws st).
Proof.
  unfold run_writers. revert st. induction ws as [|w ws IH]; intros st Hok; [exact Hok|].
  simpl. apply IH. now apply run_writer_ok.
Qed.

(** X21. The catalog invariant holds after any run of the writers, whatever
    the network answers: every entry has its catalog key as [satid] if it has
    one, coordinates that are numbers or [None], a float altitude and
    timestamp, and the category GEO or LEO, when those fields are present. *)
Theorem writers_keep_the_catalog_typed ws st :
  catalog_ok st ->
  catalog_ok (run_writers rt ws st)
  /\ forall satid e, entry_of (run_writers rt ws st) satid = Some e ->
       forall k v, e !! k = Some v -> field_ok satid k v = true.
Proof.
  intros Hok. pose proof (run_writers_ok ws st Hok) as Hok'. split; [exact Hok'|].
  intros satid e He. now apply (catalog_ok_entry _ _ _ Hok').
Qed.

End WritersTyped.


(** *** The demo loop (main.py) *)

Section DemoLoop.
Variable rt : runtime.

Lemma demo_steps_heap_only nows st : heap_only st (demo_steps rt nows st).1.
Proof.
  apply (demo_steps_respects rt heap_only); auto using heap_only_refl.
  - apply heap_only_trans.
  - intros l k f st0 _. apply keeps_refs_setitem.
Qed.

Lemma ensure_demo_result now st :
  exists st1, _ensure_demo_catalog now st = (st1, Ok tt)
    /\ (tracked st = [] -> (tracked st1).*1 = demo_ids /\ (tracked st1).*2 = seq (length (heap st)) 42)
    /\ (tracked st <> [] -> st1 = st).
Proof.
  destruct (tracked st) eqn:E.
  - eexists. split; [now apply ensure_demo_on_empty|]. split; [|congruence].
    intros _. cbn [with_tracked tracked]. split.
    + now rewrite fst_zip by (rewrite length_seq, length_fmap, demo_entries_length; lia).
    + now rewrite snd_zip by (rewrite length_seq, length_fmap, demo_entries_length; lia).
  - exists st. split; [apply ensure_demo_on_nonempty; rewrite E; discriminate|].
    split; [discriminate|reflexivity].
Qed.

(** X25. The demo loop fills an empty catalog with the 42 demo objects once;
    after that, however many steps run and however they end, the catalog
    lists the same references. A catalog that is not empty is left with the
    references it has. *)
Theorem demo_loop_catalog now_ensure nows st :
  wf_state st ->
  wf_state (demo_loop rt now_ensure nows st).1
  /\ clients (demo_loop rt now_ensure nows st).1 = clients st
  /\ (tracked st = [] ->
        (tracked (demo_loop rt now_ensure nows st).1).*1 = demo_ids
        /\ snapshot (demo_loop rt now_ensure nows st).1 = seq (length (heap st)) 42)
  /\ (tracked st <> [] ->
        tracked (demo_loop rt now_ensure nows st).1 = tracked st).
Proof.
  intros Hwf. pose proof (ensure_demo_wf now_ensure st Hwf) as Hwf1.
  assert (Hc1 : clients (_ensure_demo_catalog now_ensure st).1 = clients st).
  { destruct (tracked st) eqn:E.
    - now rewrite ensure_demo_on_empty by exact E.
    - now rewrite ensure_demo_on_nonempty by (rewrite E; discriminate). }
  destruct (ensure_demo_result now_ensure st) as (st1 & E1 & Hnew & Hold).
  unfold demo_loop. unfold_bind. rewrite E1 in *. cbn [fst] in *.
  pose proof (demo_steps_heap_only nows st1) as Hh.
  destruct (demo_steps rt nows st1) as [st2 r]. cbn [fst] in *.
  assert (Hwf2 : wf_state st2) by now apply (heap_only_wf st1).
  destruct Hh as (Ht & _ & Hc).
  split; [destruct r; exact Hwf2|]. split; [destruct r; congruence|].
  split.
  - intros Hempty. destruct (Hnew Hempty) as [Hids Hlocs].
    unfold snapshot. destruct r; cbn [fst]; rewrite Ht; auto.
  - intros Hne. rewrite (Hold Hne) in Ht. destruct r; exact Ht.
Qed.

End DemoLoop.

Section DemoStep.
Variable rt : runtime.

Lemma demo_stepped_inserts now old lng lat :
  (py_eq_str (dict_get old "category") "GEO" = true -> lat = 0%float) ->
  demo_stepped now old
    (<["last_update" := PFloat now]> (<["satlat" := PFloat lat]> (<["satlng" := PFloat lng]> old))).
Proof.
  intros Hgeo. split; [apply lookup_insert_eq|]. split.
  { exists lng. rewrite !lookup_insert_ne by discriminate. apply lookup_insert_eq. }
  split.
  { exists lat. split; [|exact Hgeo].
    rewrite lookup_insert_ne by discriminate. apply lookup_insert_eq. }
  intros k Hk. unfold demo_fields in Hk. rewrite !not_elem_of_cons in Hk.
  destruct Hk as (H1 & H2 & H3 & _).
  rewrite !lookup_insert_ne by congruence. reflexivity.
Qed.

(** A step of one object that completes rewrites that object and no other. *)
Lemma demo_step_entry_ok now l st st' :
  demo_step_entry rt now l st = (st', Ok tt) ->
  exists lng lat,
    st' = with_heap
            (alter (fun d => <["last_update" := PFloat now]>
                               (<["satlat" := PFloat lat]> (<["satlng" := PFloat lng]> d)))
                   l (heap st)) st
    /\ (py_eq_str (dict_get (deref (heap st) l) "category") "GEO" = true -> lat = 0%float).
Proof.
  unfold demo_step_entry. unfold_bind. unfold lift.
  destruct (py_float rt (py_or (dict_get (deref (heap st) l) "last_update") (PFloat now)))
    as [last|]; [|discriminate].
  destruct (py_float rt (py_or (dict_get (deref (heap st) l) "satlng") (PFloat 0)))
    as [lng0|]; [|discriminate].
  destruct (py_eq_str (dict_get (deref (heap st) l) "category") "GEO").
  - destruct (py_float_mod rt _ 360) as [lng|]; [|discriminate].
    cbn [dict_setitem with_heap heap].
    intros [= <-]. exists lng, 0%float. split; [|reflexivity].
    rewrite !list_alter_alter_eq. reflexivity.
  - destruct (py_float_mod rt _ 360) as [lng|]; [|discriminate].
    cbn [dict_setitem with_heap heap].
    destruct (py_float_mod rt now 5700) as [t|]; [|discriminate].
    destruct (math_sin rt _) as [sn|]; [|discriminate].
    cbn [dict_setitem with_heap heap].
    intros [= <-]. exists lng, (30 * sn)%float. split; [|discriminate].
    rewrite !list_alter_alter_eq. reflexivity.
Qed.

(** The objects after a run of steps over distinct references: a visited
    object is stepped, any other is as before. *)
Lemma demo_step_entries now locs st st' :
  NoDup locs ->
  for_each (demo_step_entry rt now) locs st = (st', Ok tt) ->
  tracked st' = tracked st
  /\ length (heap st') = length (heap st)
  /\ forall l old, heap st !! l = Some old ->
       exists new, heap st' !! l = Some new
         /\ (l ∈ locs -> demo_stepped now old new)
         /\ (l ∉ locs -> new = old).
Proof.
  intros Hn. revert st. induction Hn as [|l locs Hl Hn IH]; intros st.
  - intros [= <-]. split; [reflexivity|]. split; [reflexivity|].
    intros l old H. exists old. split; [exact H|]. split; [|reflexivity].
    intros Hin. inversion Hin.
  - cbn [for_each]. unfold_bind.
    destruct (demo_step_entry rt now l st) as [st1 [[]|e]] eqn:E1; [|discriminate].
    apply demo_step_entry_ok in E1 as (lng & lat & -> & Hgeo).
    intros E2. destruct (IH _ E2) as (Ht & Hlen & Hobj).
    cbn [with_heap tracked heap] in Ht, Hlen, Hobj. rewrite length_alter in Hlen.
    split; [exact Ht|]. split; [exact Hlen|].
    intros l' old Hold. destruct (decide (l' = l)) as [->|Hne].
    + destruct (Hobj l _ ltac:(rewrite list_lookup_alter_eq, Hold; reflexivity))
        as (new & Hnew & _ & Hsame).
      exists new. split; [exact Hnew|]. split; [|intros H; exfalso; apply H; left].
      intros _. rewrite (Hsame Hl). apply demo_stepped_inserts.
      unfold deref in Hgeo. now rewrite Hold in Hgeo.
    + destruct (Hobj l' old ltac:(rewrite list_lookup_alter_ne by congruence; exact Hold))
        as (new & Hnew & Hin & Hout).
      exists new. split; [exact Hnew|]. split.
      * intros H. apply elem_of_cons in H as [H|H]; [congruence|auto].
      * intros H. apply not_elem_of_cons in H as [_ H]. auto.
Qed.

(** X26. A demo step that completes stamps every entry with the time of the
    step and gives it a float longitude and latitude (latitude zero for a
    GEO object); it leaves every other field of every entry, the references
    and their order as they were. *)
Theorem demo_step_stamps_every_entry now st st' :
  wf_state st ->
  _demo_step rt now st = (st', Ok tt) ->
  tracked st' = tracked st
  /\ forall satid old, entry_of st satid = Some old ->
       exists new, entry_of st' satid = Some new /\ demo_stepped now old new.
Proof.
  intros [Hr Hn] E. unfold _demo_step in E.
  destruct (demo_step_entries now (snapshot st) st st' Hn E) as (Ht & _ & Hobj).
  split; [exact Ht|]. intros satid old. unfold entry_of. rewrite Ht.
  destruct (tracked_get (tracked st) satid) as [l|] eqn:Eg; [|discriminate]. cbn.
  intros Hold. destruct (Hobj l old Hold) as (new & Hnew & Hin & _).
  exists new. split; [exact Hnew|]. apply Hin.
  unfold snapshot. apply list_elem_of_fmap. exists (satid, l).
  split; [reflexivity|now apply tracked_get_elem].
Qed.

End DemoStep.

Lemma count_category_same_labels c (l1 l2 : list dict) :
  Forall2 (fun a b => b !! "category" = a !! "category") l1 l2 ->
  count_category c l2 = count_category c l1.
Proof.
  induction 1 as [|a b l1 l2 Hab _ IH]; [reflexivity|].
  cbn [count_category]. unfold dict_get. now rewrite Hab, IH.
Qed.

Lemma demo_entries_counts now :
  count_category "LEO" (demo_entries now).*2 = 30%nat
  /\ count_category "GEO" (demo_entries now).*2 = 12%nat.
Proof. split; vm_compute; reflexivity. Qed.

Lemma view_app_seq (h more : list dict) :
  view (h ++ more) (seq (length h) (length more)) = more.
Proof.
  unfold view. apply list_eq. intros i. rewrite list_lookup_fmap.
  destruct (more !! i) as [d|] eqn:E.
  - rewrite (lookup_seq_lt _ _ _ (lookup_lt_Some _ _ _ E)). cbn. unfold deref.
    rewrite lookup_app_r by lia.
    replace (length h + i - length h)%nat with i by lia. now rewrite E.
  - rewrite lookup_seq_ge; [reflexivity|]. now apply lookup_ge_None.
Qed.

Section DemoSnapshot.
Variable rt : runtime.

Lemma demo_step_keeps_labels now st st' :
  wf_state st ->
  _demo_step rt now st = (st', Ok tt) ->
  snapshot st' = snapshot st
  /\ Forall2 (fun a b => b !! "category" = a !! "category")
       (view (heap st) (snapshot st)) (view (heap st') (snapshot st)).
Proof.
  intros [Hr Hn] E. unfold _demo_step in E.
  destruct (demo_step_entries rt now (snapshot st) st st' Hn E) as (Ht & Hlen & Hobj).
  split; [unfold snapshot; now rewrite Ht|].
  unfold view. apply Forall2_fmap, Forall_Forall2_diag, Forall_forall.
  intros l Hl. unfold snapshot in Hl. apply list_elem_of_fmap in Hl as ([k l'] & -> & Hin).
  rewrite Forall_forall in Hr. specialize (Hr _ Hin). cbn in Hr.
  apply lookup_lt_is_Some in Hr as [old Hold].
  destruct (Hobj _ _ Hold) as (new & Hnew & Hin' & _).
  unfold deref. cbn. rewrite Hold, Hnew. cbn.
  destruct Hin' as (_ & _ & _ & Hk).
  { apply list_elem_of_fmap. exists (k, l'). now split. }
  apply Hk. unfold demo_fields. rewrite !not_elem_of_cons. repeat split; try discriminate.
  apply not_elem_of_nil.
Qed.

(** X27. In demo mode the REST snapshot of an empty catalog, when it is
    built, reports the 42 demo objects, 30 labelled LEO and 12 labelled GEO,
    whatever the heap held and whatever the clock readings. *)
Theorem demo_snapshot_counts now_ensure now_step stamp st st' p :
  wf_state st ->
  tracked st = [] ->
  api_snapshot rt true now_ensure now_step stamp st = (st', Ok p) ->
  (tracked st').*1 = demo_ids
  /\ total (p_counts p) = 42%nat
  /\ leo (p_counts p) = 30%nat
  /\ geo (p_counts p) = 12%nat.
Proof.
  intros Hwf Hempty. unfold api_snapshot. unfold_bind.
  pose proof (ensure_demo_wf now_ensure st Hwf) as Hwf1.
  rewrite ensure_demo_on_empty in * by exact Hempty. cbn [fst] in Hwf1.
  set (st1 := with_tracked _ _ st) in *.
  destruct (_demo_step rt now_step st1) as [st2 [[]|e]] eqn:E2; [|discriminate].
  destruct (demo_step_keeps_labels now_step st1 st2 Hwf1 E2) as [Hs Hl].
  unfold snapshot_payload.
  destruct (find_close_pairs rt _ _) as [pairs|]; [|discriminate].
  cbn [mbind res_bind]. intros [= <- <-]. cbn [p_counts total leo geo].
  assert (Hsnap : snapshot st1 = seq (length (heap st)) 42).
  { unfold snapshot, st1. cbn [with_tracked tracked].
    now rewrite snd_zip by (rewrite length_seq, length_fmap, demo_entries_length; lia). }
  assert (Hview : view (heap st1) (snapshot st1) = (demo_entries now_ensure).*2).
  { rewrite Hsnap. unfold st1. cbn [with_tracked heap].
    change 42%nat with (length (demo_entries now_ensure).*2). apply view_app_seq. }
  rewrite Hs. rewrite !(count_category_same_labels _ _ _ Hl), Hview.
  destruct (demo_entries_counts now_ensure) as [-> ->].
  split; [|split; [rewrite Hsnap; apply length_seq|split; reflexivity]].
  assert (Ht : (tracked st2).*2 = (tracked st1).*2) by exact Hs.
  destruct (demo_step_entries rt now_step (snapshot st1) st1 st2) as (Htr & _).
  { apply Hwf1. }
  { exact E2. }
  rewrite Htr. unfold st1. cbn [with_tracked tracked].
  now rewrite fst_zip by (rewrite length_seq, length_fmap, demo_entries_length; lia).
Qed.

End DemoSnapshot.

(** *** The refresh pass, entry by entry (main.py) *)

Lemma union_absorb (u d : dict) : u ∪ (u ∪ d) = u ∪ d.
Proof. now rewrite (assoc_L (∪)), (idemp_L (∪)). Qed.

Lemma refreshed_nil answer st : wf_state st -> refreshed answer [] st st.
Proof.
  intros Hwf. split; [exact Hwf|]. split; [reflexivity|].
  intros satid old H. unfold refreshed_entry.
  rewrite bool_decide_eq_false_2 by (intros Hin; inversion Hin). exact H.
Qed.

Lemma refreshed_app answer ids1 ids2 st st1 st2 :
  refreshed answer ids1 st st1 -> refreshed answer ids2 st1 st2 ->
  refreshed answer (ids1 ++ ids2) st st2.
Proof.
  intros (_ & Ht1 & He1) (Hwf & Ht2 & He2). split; [exact Hwf|]. split; [congruence|].
  intros satid old Hold. rewrite (He2 _ _ (He1 _ _ Hold)). f_equal.
  unfold refreshed_entry.
  destruct (bool_decide (satid ∈ ids1)) eqn:E1, (bool_decide (satid ∈ ids2)) eqn:E2;
    [rewrite bool_decide_eq_true_2|rewrite bool_decide_eq_true_2|
     rewrite bool_decide_eq_true_2|rewrite bool_decide_eq_false_2];
    try (apply bool_decide_eq_true in E1); try (apply bool_decide_eq_true in E2);
    try (apply bool_decide_eq_false in E1); try (apply bool_decide_eq_false in E2);
    rewrite ?elem_of_app; try tauto.
  destruct (answer satid); [apply union_absorb|reflexivity].
Qed.

Lemma refreshed_error answer e st : wf_state st -> refreshed answer [] st (with_error e st).
Proof.
  intros Hwf. split; [exact Hwf|]. split; [reflexivity|].
  intros satid old H. unfold refreshed_entry.
  rewrite bool_decide_eq_false_2 by (intros Hin; inversion Hin). exact H.
Qed.

Section RefreshAll.
Variable rt : runtime.
Variable net : Z -> net_outcome.
Variable now : float.

Lemma update_position_result satid st :
  (update_position rt net now satid st).2
  = (fun u => (satid, u)) <$> position_answer rt net now satid.
Proof.
  unfold position_answer, update_position. destruct (net satid) as [|resp]; [reflexivity|].
  destruct (has_error_payload resp); [now destruct resp|].
  unfold position_result.
  destruct (py_get_or resp "positions" (PList [])) as [pos_arr|]; [|reflexivity]. simpl.
  destruct (py_truthy pos_arr); [|reflexivity].
  destruct (py_index0 pos_arr) as [latest|]; [|reflexivity]. simpl.
  destruct (position_updates rt latest now) as [u|]; reflexivity.
Qed.

Lemma update_position_refreshed satid st :
  wf_state st ->
  refreshed (position_answer rt net now) [] st (update_position rt net now satid st).1.
Proof.
  intros Hwf. unfold update_position. destruct (net satid) as [|resp]; [now apply refreshed_nil|].
  destruct (has_error_payload resp).
  - destruct resp; first [now apply refreshed_error|now apply refreshed_nil].
  - destruct (position_result rt resp now satid); now apply refreshed_nil.
Qed.

Lemma gather_positions_results batch st :
  wf_state st ->
  refreshed (position_answer rt net now) [] st (gather_positions rt net now batch st).1
  /\ (gather_positions rt net now batch st).2
     = (fun k => (fun u => (k, u)) <$> position_answer rt net now k) <$> batch.
Proof.
  revert st. induction batch as [|k batch IH]; intros st Hwf; simpl.
  - split; [now apply refreshed_nil|reflexivity].
  - pose proof (update_position_refreshed k st Hwf) as H1.
    pose proof (update_position_result k st) as H2.
    destruct (update_position rt net now k st) as [st1 r]. simpl in H1, H2.
    destruct (IH st1 (proj1 H1)) as [H3 H4].
    destruct (gather_positions rt net now batch st1) as [st2 rs]. simpl in *.
    split; [exact (refreshed_app _ [] [] _ _ _ H1 H3)|]. now rewrite H2, H4.
Qed.

Lemma apply_result_refreshed k st :
  wf_state st ->
  exists st',
    apply_result ((fun u => (k, u)) <$> position_answer rt net now k) st = (st', Ok tt)
    /\ refreshed (position_answer rt net now) [k] st st'.
Proof.
  intros Hwf. destruct (position_answer rt net now k) as [u|] eqn:Ea; simpl.
  - destruct (tracked_get (tracked st) k) as [l|] eqn:E.
    + destruct (wf_lookup st k l Hwf E) as [old Hold].
      assert (He : entry_of st k = Some old) by (unfold entry_of; now rewrite E).
      destruct (tracked_update_spec st k u old Hwf He)
        as (st' & E' & Hwf' & Htr & _ & _ & Hnew & Hother).
      exists st'. split; [unfold merge_existing, tracked_mem; now rewrite E|].
      split; [exact Hwf'|]. split; [exact Htr|].
      intros k' old' Hold'. unfold refreshed_entry.
      destruct (decide (k' = k)) as [->|Hne].
      * rewrite bool_decide_eq_true_2 by left. rewrite Ea, Hnew. congruence.
      * rewrite bool_decide_eq_false_2
          by (intros Hin; apply list_elem_of_singleton in Hin; contradiction).
        now rewrite Hother.
    + exists st. split; [now apply merge_existing_unseen|].
      split; [exact Hwf|]. split; [reflexivity|].
      intros k' old' Hold'. unfold refreshed_entry.
      rewrite bool_decide_eq_false_2; [exact Hold'|].
      intros Hin. apply list_elem_of_singleton in Hin as ->.
      unfold entry_of in Hold'. now rewrite E in Hold'.
  - exists st. split; [reflexivity|]. split; [exact Hwf|]. split; [reflexivity|].
    intros k' old' Hold'. unfold refreshed_entry. rewrite Hold'. f_equal.
    destruct (bool_decide (k' ∈ [k])) eqn:Ek; [|reflexivity].
    apply bool_decide_eq_true, list_elem_of_singleton in Ek as ->. now rewrite Ea.
Qed.

Lemma for_each_apply_refreshed batch st :
  wf_state st ->
  exists st',
    for_each apply_result
      ((fun k => (fun u => (k, u)) <$> position_answer rt net now k) <$> batch) st
    = (st', Ok tt)
    /\ refreshed (position_answer rt net now) batch st st'.
Proof.
  revert st. induction batch as [|k batch IH]; intros st Hwf.
  - exists st. split; [reflexivity|now apply refreshed_nil].
  - destruct (apply_result_refreshed k st Hwf) as (st1 & E1 & H1).
    destruct (IH st1 (proj1 H1)) as (st2 & E2 & H2).
    exists st2. split; [|exact (refreshed_app _ [k] batch _ _ _ H1 H2)].
    rewrite fmap_cons. cbn [for_each]. unfold_bind. now rewrite E1.
Qed.

Lemma position_batches_refreshed sats batch_size starts st :
  wf_state st ->
  exists st', position_batches rt net now sats batch_size starts st = (st', Ok tt)
    /\ refreshed (position_answer rt net now)
         (i ← starts; take batch_size (drop i sats)) st st'.
Proof.
  revert st. induction starts as [|i starts IH]; intros st Hwf.
  - exists st. split; [reflexivity|now apply refreshed_nil].
  - cbn [position_batches].
    destruct (gather_positions_results (take batch_size (drop i sats)) st Hwf) as [H1 H2].
    destruct (gather_positions rt net now (take batch_size (drop i sats)) st)
      as [st1 results]. cbn [fst snd] in H1, H2. subst results.
    destruct (for_each_apply_refreshed (take batch_size (drop i sats)) st1 (proj1 H1))
      as (st2 & E2 & H3).
    destruct (IH st2 (proj1 H3)) as (st3 & E3 & H4).
    exists st3. split; [unfold_bind; now rewrite E2|].
    rewrite bind_cons.
    apply (refreshed_app _ _ _ _ st2); [|exact H4].
    exact (refreshed_app _ [] _ _ _ _ H1 H3).
Qed.

(** The batches of a pass cover the ids to refresh, and nothing else. *)
Lemma batches_cover (sats : list Z) batch_size k :
  (0 < batch_size)%nat ->
  k ∈ (i ← py_range 0 (length sats) batch_size; take batch_size (drop i sats))
  <-> k ∈ sats.
Proof.
  intros Hpos. rewrite list_elem_of_bind. split.
  - intros (i & Hk & _). apply elem_of_take in Hk as (j & Hj & _).
    rewrite lookup_drop in Hj. apply list_elem_of_lookup. eauto.
  - intros Hk. apply list_elem_of_lookup in Hk as [j Hj].
    pose proof (lookup_lt_Some _ _ _ Hj) as Hlt.
    exists ((j / batch_size) * batch_size)%nat. split.
    + apply list_elem_of_lookup. exists (j mod batch_size)%nat.
      rewrite lookup_take_lt by (apply Nat.mod_upper_bound; lia).
      rewrite lookup_drop.
      replace (j / batch_size * batch_size + j mod batch_size)%nat with j; [exact Hj|].
      rewrite (Nat.div_mod_eq j batch_size) at 1. lia.
    + apply py_range_spec; [exact Hpos|]. split; [|eauto].
      pose proof (Nat.div_mod_eq j batch_size). nia.
Qed.

Lemma refreshed_entry_ext (answer : Z -> option dict) ids1 ids2 satid old :
  (satid ∈ ids1 <-> satid ∈ ids2) ->
  refreshed_entry answer ids1 satid old = refreshed_entry answer ids2 satid old.
Proof.
  intros H. unfold refreshed_entry.
  destruct (bool_decide (satid ∈ ids1)) eqn:E1.
  - apply bool_decide_eq_true in E1. now rewrite bool_decide_eq_true_2 by tauto.
  - apply bool_decide_eq_false in E1. now rewrite bool_decide_eq_false_2 by tauto.
Qed.

(** X20. A refresh pass ends normally and leaves each entry as follows: if
    the id is among the first 10000 of the catalog and its fetch yields an
    update, the entry is the update laid over what it held; otherwise the
    entry is as it was. The update of an id depends on the answer for that
    id alone. *)
Theorem positions_pass_refreshes_every_entry st satid old :
  wf_state st ->
  entry_of st satid = Some old ->
  (forall st0, (update_position rt net now satid st0).2
               = (fun u => (satid, u)) <$> position_answer rt net now satid)
  /\ exists st', positions_pass rt net now st = (st', Ok tt)
       /\ entry_of st' satid
          = Some (refreshed_entry (position_answer rt net now) (refresh_ids st) satid old).
Proof.
  intros Hwf Hold. split; [intros st0; apply update_position_result|].
  unfold positions_pass, refresh_ids.
  match goal with |- context [position_batches rt net now ?sats ?n ?starts st] =>
    destruct (position_batches_refreshed sats n starts st Hwf) as (st' & E & _ & _ & He)
  end.
  exists st'. split; [exact E|]. rewrite (He _ _ Hold). f_equal.
  apply refreshed_entry_ext, batches_cover. lia.
Qed.

End RefreshAll.

(** *** The broadcast loop (main.py) *)

Section BroadcastMore.
Variable rt : runtime.

(** A pair of located objects without a distance makes the screen raise. *)
Lemma find_close_pairs_bad_pair l thr i j a b e :
  (i < j)%nat -> l !! i = Some a -> l !! j = Some b ->
  coords_absent a = false -> coords_absent b = false ->
  pair_distance rt a b = Raise e ->
  exists e', find_close_pairs rt l thr = Raise e'.
Proof.
  intros Hij Hi Hj Ha Hb Hd.
  pose proof (scan_all_ok rt l thr []) as Hok.
  fold (find_close_pairs rt l thr) in Hok.
  assert (Hf : distances_defined rt l = false).
  { apply distances_defined_false. exists i, j, a, b. rewrite Hd. auto 10. }
  rewrite Hf in Hok. destruct (find_close_pairs rt l thr) as [p|e']; [discriminate|eauto].
Qed.

(** X23. One pair of located objects whose distance cannot be computed
    silences a whole tick: nothing is sent to any subscriber, no subscriber
    is removed, and the REST snapshot of the same state raises. *)
Theorem broadcast_silenced_by_one_bad_pair send stamp now1 now2 st i j a b e :
  (i < j)%nat ->
  view (heap st) (snapshot st) !! i = Some a ->
  view (heap st) (snapshot st) !! j = Some b ->
  coords_absent a = false -> coords_absent b = false ->
  pair_distance rt a b = Raise e ->
  broadcast_tick rt send stamp st = (st, [])
  /\ exists e', api_snapshot rt false now1 now2 stamp st = (st, Raise e').
Proof.
  intros Hij Hi Hj Ha Hb Hd.
  destruct (find_close_pairs_bad_pair _ PROXIMITY_THRESHOLD_KM _ _ _ _ _ Hij Hi Hj Ha Hb Hd)
    as [e' He'].
  assert (Hp : snapshot_payload rt stamp st = Raise e').
  { unfold snapshot_payload. now rewrite He'. }
  split.
  - unfold broadcast_tick. now rewrite Hp.
  - exists e'. unfold api_snapshot. unfold_bind. cbn [pret]. now rewrite Hp.
Qed.

Lemma broadcast_tick_frame send stamp st :
  heap (broadcast_tick rt send stamp st).1 = heap st
  /\ tracked (broadcast_tick rt send stamp st).1 = tracked st
  /\ last_n2yo_error (broadcast_tick rt send stamp st).1 = last_n2yo_error st
  /\ clients (broadcast_tick rt send stamp st).1 ⊆ clients st
  /\ forall ws q, (ws, q) ∈ (broadcast_tick rt send stamp st).2 -> ws ∈ clients st.
Proof.
  unfold broadcast_tick. destruct (snapshot_payload rt stamp st) as [p|e].
  - rewrite send_loop_spec. cbn.
    split; [reflexivity|]. split; [reflexivity|]. split; [reflexivity|]. split.
    + intros ws Hws. apply elem_of_discard_all in Hws. tauto.
    + intros ws q Hin. apply list_elem_of_fmap in Hin as (ws' & [= -> ->] & Hin).
      apply list_elem_of_filter in Hin as [_ Hin]. now apply elem_of_elements in Hin.
  - cbn. repeat split; try reflexivity. intros ws q Hin. inversion Hin.
Qed.

Lemma broadcast_snapshot_frame ticks st :
  heap (broadcast_snapshot rt ticks st).1 = heap st
  /\ tracked (broadcast_snapshot rt ticks st).1 = tracked st
  /\ last_n2yo_error (broadcast_snapshot rt ticks st).1 = last_n2yo_error st
  /\ clients (broadcast_snapshot rt ticks st).1 ⊆ clients st
  /\ length (broadcast_snapshot rt ticks st).2 = length ticks
  /\ Forall (fun delivered => forall ws q, (ws, q) ∈ delivered -> ws ∈ clients st)
            (broadcast_snapshot rt ticks st).2.
Proof.
  revert st. induction ticks as [|[send stamp] ticks IH]; intros st.
  - cbn. repeat split; try reflexivity. constructor.
  - cbn [broadcast_snapshot].
    destruct (broadcast_tick_frame send stamp st) as (Hh & Ht & He & Hc & Hd).
    destruct (broadcast_tick rt send stamp st) as [st1 delivered]. cbn [fst snd] in *.
    destruct (IH st1) as (Hh' & Ht' & He' & Hc' & Hl' & Hd').
    destruct (broadcast_snapshot rt ticks st1) as [st2 later]. cbn [fst snd] in *.
    split; [congruence|]. split; [congruence|]. split; [congruence|].
    split; [intros x Hx; apply Hc, Hc', Hx|]. split; [simpl; now rewrite Hl'|].
    constructor; [exact Hd|].
    eapply Forall_impl; [exact Hd'|]. cbn. intros ds H ws q Hin. apply Hc. eauto.
Qed.

(** X24. The broadcast loop never adds a subscriber and never writes the
    catalog; a subscriber whose send failed in a tick that had a payload is
    gone after that tick and is sent nothing in any later tick of the loop. *)
Theorem dropped_subscriber_is_not_retried send stamp rest st p ws :
  snapshot_payload rt stamp st = Ok p ->
  send ws p = false ->
  (ws ∉ clients (broadcast_tick rt send stamp st).1)
  /\ (ws ∉ clients (broadcast_snapshot rt rest (broadcast_tick rt send stamp st).1).1)
  /\ Forall (fun delivered => forall q, (ws, q) ∉ delivered)
            (broadcast_snapshot rt rest (broadcast_tick rt send stamp st).1).2
  /\ length (broadcast_snapshot rt rest (broadcast_tick rt send stamp st).1).2 = length rest
  /\ clients (broadcast_snapshot rt ((send, stamp) :: rest) st).1 ⊆ clients st
  /\ heap (broadcast_snapshot rt ((send, stamp) :: rest) st).1 = heap st
  /\ tracked (broadcast_snapshot rt ((send, stamp) :: rest) st).1 = tracked st.
Proof.
  intros Hp Hs.
  assert (Hgone : ws ∉ clients (broadcast_tick rt send stamp st).1).
  { unfold broadcast_tick. rewrite Hp, send_loop_spec. cbn.
    rewrite elem_of_discard_all, list_elem_of_filter, elem_of_elements. tauto. }
  destruct (broadcast_snapshot_frame rest (broadcast_tick rt send stamp st).1)
    as (_ & _ & _ & Hc & Hl & Hd).
  destruct (broadcast_snapshot_frame ((send, stamp) :: rest) st) as (Hh & Ht & _ & Hsub & _).
  split; [exact Hgone|]. split; [intros H; apply Hgone, Hc, H|]. split; [|auto].
  eapply Forall_impl; [exact Hd|]. cbn. intros ds H q Hin. apply Hgone. eauto.
Qed.

End BroadcastMore.

(** *** Exceptions of the screen in a typed catalog *)

Lemma math_1_raises func x e : math_1 func x = Raise e -> range_error e.
Proof.
  unfold math_1. destruct (_ && _)%bool; [intros [= <-]; now left|].
  destruct (_ && _)%bool; [intros [= <-]; now left|discriminate].
Qed.

Lemma float_of_Z_raises z e : float_of_Z z = Raise e -> range_error e.
Proof. unfold float_of_Z. destruct (f_isinf _); [intros [= <-]; now right|discriminate]. Qed.

Section TypedScreen.
Variable rt : runtime.

Lemma math_radians_raises v e :
  is_number v -> math_radians v = Raise e -> range_error e.
Proof.
  unfold math_radians. intros [[f ->]|[z ->]]; simpl; [discriminate|].
  destruct (float_of_Z z) eqn:E; simpl; [discriminate|].
  intros [= <-]. eapply float_of_Z_raises; eauto.
Qed.

Lemma py_pow2_raises v e : py_pow2 rt v = Raise e -> range_error e.
Proof.
  unfold py_pow2. destruct (f_isnan v); [discriminate|]. destruct (f_isinf v); [discriminate|].
  destruct (v =? 0)%float; [discriminate|]. destruct (abs v =? 1)%float; [discriminate|].
  destruct (f_isinf _); [intros [= <-]; now right|discriminate].
Qed.

Lemma to_ecef_raises lat lon alt e :
  is_number lat -> is_number lon ->
  to_ecef rt lat lon (PFloat alt) = Raise e -> range_error e.
Proof.
  intros Hlat Hlon. unfold to_ecef.
  destruct (math_radians lat) as [phi|e1] eqn:E1; cbn [mbind res_bind];
    [|intros [= <-]; exact (math_radians_raises _ _ Hlat E1)].
  destruct (math_radians lon) as [lam|e2] eqn:E2; cbn [mbind res_bind];
    [|intros [= <-]; exact (math_radians_raises _ _ Hlon E2)].
  cbn [py_as_double].
  repeat match goal with
  | |- context [(@mbind res _ _ _ _ (math_cos rt ?x))] =>
      let E := fresh "E" in
      destruct (math_cos rt x) eqn:E; cbn [mbind res_bind];
        [|intros [= <-]; exact (math_1_raises _ _ _ E)]
  | |- context [(@mbind res _ _ _ _ (math_sin rt ?x))] =>
      let E := fresh "E" in
      destruct (math_sin rt x) eqn:E; cbn [mbind res_bind];
        [|intros [= <-]; exact (math_1_raises _ _ _ E)]
  end.
  discriminate.
Qed.

Lemma euclidean_raises lat1 lon1 alt1 lat2 lon2 alt2 e :
  is_number lat1 -> is_number lon1 -> is_number lat2 -> is_number lon2 ->
  euclidean_km_from_latlonalt rt lat1 lon1 (PFloat alt1) lat2 lon2 (PFloat alt2) = Raise e ->
  range_error e.
Proof.
  intros H1 H2 H3 H4. unfold euclidean_km_from_latlonalt.
  destruct (to_ecef rt lat1 lon1 (PFloat alt1)) as [[[x1 y1] z1]|e1] eqn:E1;
    cbn [mbind res_bind]; [|intros [= <-]; exact (to_ecef_raises _ _ _ _ H1 H2 E1)].
  destruct (to_ecef rt lat2 lon2 (PFloat alt2)) as [[[x2 y2] z2]|e2] eqn:E2;
    cbn [mbind res_bind]; [|intros [= <-]; exact (to_ecef_raises _ _ _ _ H3 H4 E2)].
  destruct (py_pow2 rt (x1 - x2)) as [dx|] eqn:Ex; cbn [mbind res_bind];
    [|intros [= <-]; eapply py_pow2_raises; eauto].
  destruct (py_pow2 rt (y1 - y2)) as [dy|] eqn:Ey; cbn [mbind res_bind];
    [|intros [= <-]; eapply py_pow2_raises; eauto].
  destruct (py_pow2 rt (z1 - z2)) as [dz|] eqn:Ez; cbn [mbind res_bind];
    [|intros [= <-]; eapply py_pow2_raises; eauto].
  apply math_1_raises.
Qed.

Lemma typed_coordinate satid (a : dict) k :
  entry_typed satid a -> k = "satlat" \/ k = "satlng" ->
  is_None (dict_get a k) = false ->
  exists v, a !! k = Some v /\ is_number v.
Proof.
  intros Ht Hk Hn. unfold dict_get in Hn.
  destruct (a !! k) as [v|] eqn:E; [|discriminate]. exists v. split; [reflexivity|].
  specialize (Ht k v E). cbn in Hn.
  destruct Hk as [-> | ->]; cbn in Ht; destruct v; try discriminate;
    first [left; eauto; fail | right; eauto].
Qed.

Lemma typed_altitude satid (a : dict) :
  entry_typed satid a -> exists f, dict_get_or a "satalt" (PFloat 0) = PFloat f.
Proof.
  intros Ht. unfold dict_get_or. destruct (a !! "satalt") as [v|] eqn:E; [|cbn; eauto].
  specialize (Ht _ _ E). cbn in Ht. destruct v; try discriminate. cbn. eauto.
Qed.

Lemma pair_distance_raises ka kb a b e :
  entry_typed ka a -> entry_typed kb b ->
  coords_absent a = false -> coords_absent b = false ->
  pair_distance rt a b = Raise e -> range_error e.
Proof.
  intros Ha Hb Ca Cb. unfold coords_absent in Ca, Cb.
  apply orb_false_elim in Ca as [Ca1 Ca2]. apply orb_false_elim in Cb as [Cb1 Cb2].
  destruct (typed_coordinate ka a "satlat" Ha (or_introl eq_refl) Ca1) as (lat1 & El1 & Hl1).
  destruct (typed_coordinate ka a "satlng" Ha (or_intror eq_refl) Ca2) as (lon1 & En1 & Hn1).
  destruct (typed_coordinate kb b "satlat" Hb (or_introl eq_refl) Cb1) as (lat2 & El2 & Hl2).
  destruct (typed_coordinate kb b "satlng" Hb (or_intror eq_refl) Cb2) as (lon2 & En2 & Hn2).
  destruct (typed_altitude ka a Ha) as [alt1 Ea1].
  destruct (typed_altitude kb b Hb) as [alt2 Ea2].
  unfold pair_distance, dict_getitem. rewrite El1, En1, El2, En2, Ea1, Ea2.
  cbn [mbind res_bind py_float]. now apply euclidean_raises.
Qed.

Lemma scan_from_raises a later thr acc e :
  scan_from rt a later thr acc = Raise e ->
  exists b, b ∈ later /\ coords_absent b = false /\ pair_distance rt a b = Raise e.
Proof.
  revert acc. induction later as [|b later IH]; intros acc; cbn [scan_from]; [discriminate|].
  destruct (coords_absent b) eqn:Eb.
  - intros H. destruct (IH _ H) as (b' & Hin & Hb').
    exists b'. split; [now right|exact Hb'].
  - destruct (pair_distance rt a b) as [d|e'] eqn:Ed; cbn [mbind res_bind].
    + intros H. destruct (IH _ H) as (b' & Hin & Hb').
      exists b'. split; [now right|exact Hb'].
    + intros [= <-]. exists b. split; [left|]. now split.
Qed.

Lemma scan_all_raises l thr acc e :
  scan_all rt l thr acc = Raise e ->
  exists a b, a ∈ l /\ b ∈ l /\ coords_absent a = false /\ coords_absent b = false
    /\ pair_distance rt a b = Raise e.
Proof.
  revert acc. induction l as [|a l IH]; intros acc; cbn [scan_all]; [discriminate|].
  destruct (coords_absent a) eqn:Ea.
  - intros H. destruct (IH _ H) as (a' & b' & Ha' & Hb' & H').
    exists a', b'. split; [now right|]. split; [now right|exact H'].
  - destruct (scan_from rt a l thr acc) as [p|e'] eqn:Es; cbn [mbind res_bind].
    + intros H. destruct (IH _ H) as (a' & b' & Ha' & Hb' & H').
      exists a', b'. split; [now right|]. split; [now right|exact H'].
    + intros [= <-]. apply scan_from_raises in Es as (b & Hb & Cb & Hd).
      exists a, b. split; [left|]. split; [now right|]. auto.
Qed.

Lemma catalog_ok_view st a :
  catalog_ok st -> a ∈ view (heap st) (snapshot st) -> exists satid, entry_typed satid a.
Proof.
  intros (_ & _ & Ht) Ha. unfold view, snapshot in Ha.
  apply list_elem_of_fmap in Ha as (l & -> & Hl).
  apply list_elem_of_fmap in Hl as ([k l'] & -> & Hin).
  rewrite Forall_forall in Ht. exists k. exact (Ht _ Hin).
Qed.

(** X22. In a catalog that satisfies the invariant the proximity screen can
    fail only on arithmetic out of range: a payload that cannot be built
    raises [ValueError] or [OverflowError], never a type or key error. *)
Theorem typed_catalog_screen_errors stamp st e :
  catalog_ok st ->
  snapshot_payload rt stamp st = Raise e ->
  e = ValueError \/ e = OverflowError.
Proof.
  intros Hok. unfold snapshot_payload, find_close_pairs.
  destruct (scan_all rt _ _ _) as [p|e'] eqn:Es; cbn [mbind res_bind]; [discriminate|].
  intros [= <-].
  apply scan_all_raises in Es as (a & b & Ha & Hb & Ca & Cb & Hd).
  destruct (catalog_ok_view st a Hok Ha) as [ka Hta].
  destruct (catalog_ok_view st b Hok Hb) as [kb Htb].
  exact (pair_distance_raises ka kb a b _ Hta Htb Ca Cb Hd).
Qed.

End TypedScreen.

(** *** Alerts and health (main.py) *)

Lemma SFleb_zero_of_not_ltb x y :
  SFltb x (S754_zero false) = false -> SFleb x y = true -> SFleb (S754_zero false) x = true.
Proof.
  unfold SFltb, SFleb.
  destruct x as [[]|[]| |[] m e]; simpl; try discriminate; try reflexivity.
Qed.

Lemma leb_zero_of_not_ltb (d t : float) :
  (d <? 0)%float = false -> (d <=? t)%float = true -> (0 <=? d)%float = true.
Proof.
  rewrite FloatAxioms.ltb_spec, !FloatAxioms.leb_spec.
  change (Prim2SF 0) with (S754_zero false). apply SFleb_zero_of_not_ltb.
Qed.

Section Alerts.
Variable rt : runtime.

(** X13. Every alert of a payload carries a distance between 0 and the
    proximity threshold, the distance of its two objects, and those two are
    objects of the snapshot that both have coordinates. *)
Theorem alert_distances_in_range stamp st p :
  snapshot_payload rt stamp st = Ok p ->
  Forall (fun al =>
            (0 <=? dist_km al)%float = true
            /\ (dist_km al <=? PROXIMITY_THRESHOLD_KM)%float = true
            /\ exists a b, a ∈ view (heap st) (sats p) /\ b ∈ view (heap st) (sats p)
                 /\ coords_absent a = false /\ coords_absent b = false
                 /\ pair_distance rt a b = Ok (dist_km al)
                 /\ alert_a al = dict_get a "satname"
                 /\ alert_b al = dict_get b "satname")
         (p_alerts p).
Proof.
  unfold snapshot_payload.
  destruct (find_close_pairs rt _ _) as [pairs|] eqn:E; [|discriminate].
  cbn [mbind res_bind]. intros [= <-]. cbn [p_alerts sats].
  pose proof (scan_all_ok rt (view (heap st) (snapshot st)) PROXIMITY_THRESHOLD_KM []) as Hok.
  fold (find_close_pairs rt (view (heap st) (snapshot st)) PROXIMITY_THRESHOLD_KM) in Hok.
  rewrite E in Hok. cbn in Hok. symmetry in Hok.
  unfold find_close_pairs in E. rewrite scan_all_spec in E by exact Hok.
  injection E as <-. cbn [app].
  apply Forall_fmap, Forall_forall. intros [[a b] d] Hin.
  apply elem_of_close_pairs_spec in Hin as (i & j & _ & Hi & Hj & Ca & Cb & Hd & Hle).
  cbn [compose alert_of dist_km alert_a alert_b].
  split; [|split; [exact Hle|]].
  - eapply leb_zero_of_not_ltb; [|exact Hle]. eapply pair_distance_not_neg; eauto.
  - exists a, b. split; [eapply list_elem_of_lookup_2; eauto|].
    split; [eapply list_elem_of_lookup_2; eauto|]. auto.
Qed.

End Alerts.

(** health *)

Lemma discard_all_elements (send : nat -> bool) (c : gset nat) :
  size (discard_all (filter (fun ws => send ws = false) (elements c)) c)
  = length (filter (fun ws => send ws = true) (elements c)).
Proof.
  unfold size, set_size. cbn. apply Permutation_length, NoDup_Permutation.
  - apply NoDup_elements.
  - apply NoDup_filter, NoDup_elements.
  - intros ws. rewrite elem_of_elements, elem_of_discard_all, !list_elem_of_filter,
      elem_of_elements.
    destruct (send ws); intuition congruence.
Qed.

Section Health.
Variable rt : runtime.

(** X28. [/health] agrees with the other endpoints: its object count is the
    total of a payload of the same state, and after a tick that had a
    payload its subscriber count is the number of deliveries of that tick. *)
Theorem health_agrees_with_payload_and_tick demo_mode has_api_key send stamp st p :
  snapshot_payload rt stamp st = Ok p ->
  h_tracked (health demo_mode has_api_key st) = total (p_counts p)
  /\ h_clients (health demo_mode has_api_key (broadcast_tick rt send stamp st).1)
     = length (broadcast_tick rt send stamp st).2
  /\ h_tracked (health demo_mode has_api_key (broadcast_tick rt send stamp st).1)
     = h_tracked (health demo_mode has_api_key st).
Proof.
  intros Hp. split; [|split].
  - unfold snapshot_payload in Hp.
    destruct (find_close_pairs rt _ _); [|discriminate]. cbn in Hp. injection Hp as <-.
    cbn. unfold snapshot. now rewrite length_fmap.
  - unfold broadcast_tick. rewrite Hp, send_loop_spec. cbn [fst snd health h_clients with_clients clients app].
    rewrite length_fmap. apply (discard_all_elements (fun ws => send ws p)).
  - unfold broadcast_tick. rewrite Hp.
    destruct (send_loop _ _ _ _ _). reflexivity.
Qed.

End Health.

(** *** Labels through completed writers (main.py) *)

Lemma bind_ok {A B} (m : prog A) (k : A -> prog B) st st' b :
  (m ≫= k) st = (st', Ok b) ->
  exists st1 a, m st = (st1, Ok a) /\ k a st1 = (st', Ok b).
Proof.
  unfold_bind. destruct (m st) as [st1 [a|e]]; [eauto|discriminate].
Qed.

Lemma labelled_union (u d : dict) c :
  u !! "category" = Some (PStr c) -> c = "GEO" \/ c = "LEO" -> labelled (u ∪ d) = true.
Proof.
  intros Hu Hc. unfold labelled, dict_get.
  rewrite (lookup_union_Some_l u d _ _ Hu). cbn. destruct Hc as [-> | ->]; reflexivity.
Qed.

Lemma labelled_same_category (d d' : dict) :
  d' !! "category" = d !! "category" -> labelled d' = labelled d.
Proof. intros H. unfold labelled, dict_get. now rewrite H. Qed.

(** A merge that writes a category leaves every entry labelled. *)
Lemma merge_keeps_labels satid u c st st' :
  u !! "category" = Some (PStr c) -> c = "GEO" \/ c = "LEO" ->
  merge satid u st = (st', Ok tt) -> keeps_labels st st'.
Proof.
  intros Hu Hc E [Hwf Hl].
  destruct (merge_spec st satid u Hwf) as (st2 & E2 & Hwf2 & _ & He & Ho).
  rewrite E in E2. injection E2 as <-. split; [exact Hwf2|].
  intros k d Hd. destruct (decide (k = satid)) as [->|Hne].
  - rewrite He in Hd. injection Hd as <-. eapply labelled_union; eauto.
  - rewrite Ho in Hd by exact Hne. eauto.
Qed.

Lemma keeps_labels_refl st : keeps_labels st st.
Proof. intros H. exact H. Qed.

Lemma keeps_labels_trans a b c : keeps_labels a b -> keeps_labels b c -> keeps_labels a c.
Proof. unfold keeps_labels. auto. Qed.

Lemma keeps_labels_error e st : keeps_labels st (with_error e st).
Proof. intros H. exact H. Qed.

Section Completed.
Variable rt : runtime.

Lemma merge_geo_item_completed now item st st' :
  merge_geo_item rt now item st = (st', Ok tt) -> keeps_labels st st'.
Proof.
  unfold merge_geo_item. intros E.
  apply bind_ok in E as (st1 & v & E1 & E). injection E1 as <- _.
  apply bind_ok in E as (st1 & satid & E1 & E). injection E1 as <- _.
  apply bind_ok in E as (st1 & [] & E1 & E).
  apply bind_ok in E as (st2 & u & E2 & E). unfold lift in E2. injection E2 as <- Eu.
  destruct (sweep_updates_fields _ _ _ _ _ _ _ Eu) as (_ & Hcat & _).
  apply (merge_keeps_labels satid u "GEO"); [exact Hcat|now left|].
  unfold merge. unfold_bind. now rewrite E1.
Qed.

Lemma merge_all_item_completed now item st st' :
  merge_all_item rt now item st = (st', Ok tt) -> keeps_labels st st'.
Proof.
  unfold merge_all_item. intros E.
  apply bind_ok in E as (st1 & alt & E1 & E). injection E1 as <- _.
  destruct (alt <? LEO_MAX_ALT)%float; [|injection E as <-; apply keeps_labels_refl].
  apply bind_ok in E as (st1 & v & E1 & E). injection E1 as <- _.
  apply bind_ok in E as (st1 & satid & E1 & E). injection E1 as <- _.
  apply bind_ok in E as (st1 & [] & E1 & E).
  apply bind_ok in E as (st2 & u & E2 & E). unfold lift in E2. injection E2 as <- Eu.
  destruct (sweep_updates_fields _ _ _ _ _ _ _ Eu) as (_ & Hcat & _).
  apply (merge_keeps_labels satid u "LEO"); [exact Hcat|now right|].
  unfold merge. unfold_bind. now rewrite E1.
Qed.

Lemma for_each_completed {A} (body : A -> prog unit) l st st' :
  (forall x s s', body x s = (s', Ok tt) -> keeps_labels s s') ->
  for_each body l st = (st', Ok tt) -> keeps_labels st st'.
Proof.
  intros Hb. revert st. induction l as [|x l IH]; intros st; cbn [for_each].
  - intros [= <-]. apply keeps_labels_refl.
  - intros E. apply bind_ok in E as (st1 & [] & E1 & E).
    eapply keeps_labels_trans; [eapply Hb; eauto|eauto].
Qed.

Lemma check_error_keeps_labels resp st : keeps_labels st (check_error resp st).1.
Proof.
  unfold check_error. destruct resp as [| | | | |l|d]; try apply keeps_labels_refl.
  destruct (py_truthy _); [|apply keeps_labels_refl].
  unfold_bind. cbn [set_last_error].
  destruct (dict_get_or d "error" (PStr "")); apply keeps_labels_error.
Qed.

Lemma process_responses_completed body resps st st' :
  (forall x s s', body x s = (s', Ok tt) -> keeps_labels s s') ->
  process_responses body resps st = (st', Ok tt) -> keeps_labels st st'.
Proof.
  intros Hb. revert st. induction resps as [|[|v] rest IH]; intros st; cbn [process_responses].
  - intros [= <-]. apply keeps_labels_refl.
  - apply IH.
  - intros E. apply bind_ok in E as (st1 & c & E1 & E).
    pose proof (check_error_keeps_labels v st) as Hc. rewrite E1 in Hc. cbn in Hc.
    eapply keeps_labels_trans; [exact Hc|].
    destruct c; [|injection E as <-; apply keeps_labels_refl].
    apply bind_ok in E as (st2 & items & E2 & E). unfold lift in E2. injection E2 as <- _.
    apply bind_ok in E as (st2 & [] & E2 & E).
    eapply keeps_labels_trans; [eapply for_each_completed; eauto|eauto].
Qed.

Lemma load_responses_completed body resps st st' :
  (forall x s s', body x s = (s', Ok tt) -> keeps_labels s s') ->
  load_responses body resps st = (st', Ok tt) -> keeps_labels st st'.
Proof.
  intros Hb. revert st. induction resps as [|[|v] rest IH]; intros st; cbn [load_responses].
  - intros [= <-]. apply keeps_labels_refl.
  - apply IH.
  - destruct v as [| | | | |l|d]; try apply IH.
    destruct (py_truthy _); [apply IH|].
    intros E. apply bind_ok in E as (st2 & items & E2 & E). unfold lift in E2.
    injection E2 as <- _.
    apply bind_ok in E as (st2 & [] & E2 & E).
    eapply keeps_labels_trans; [eapply for_each_completed; eauto|eauto].
Qed.

Lemma tracker_pass_completed net now st :
  is_ok (tracker_pass rt net now st).2 = true ->
  keeps_labels st (tracker_pass rt net now st).1.1.
Proof.
  unfold tracker_pass.
  match goal with |- context [let '(_, _) := ?m ?s in _] =>
    destruct (m s) as [st1 [[]|e]] eqn:E end; cbn [fst snd is_ok]; [|discriminate].
  intros _. apply bind_ok in E as (st2 & [] & E2 & E).
  eapply keeps_labels_trans; [apply keeps_labels_error|].
  eapply keeps_labels_trans.
  - eapply process_responses_completed; [|exact E2]. apply merge_geo_item_completed.
  - eapply process_responses_completed; [|exact E]. apply merge_all_item_completed.
Qed.

Lemma load_all_completed net now st :
  writer_completed rt st (WLoad net now) = true ->
  keeps_labels st (load_all_satellites rt false true net now st).1.1.
Proof.
  unfold writer_completed, load_all_satellites. cbn [negb].
  match goal with |- context [let '(_, _) := ?m ?s in _] =>
    destruct (m s) as [st1 [[]|e]] eqn:E end; cbn [fst snd]; [|discriminate].
  intros _. apply bind_ok in E as (st2 & [] & E2 & E).
  eapply keeps_labels_trans.
  - eapply load_responses_completed; [|exact E2]. apply merge_geo_item_completed.
  - eapply load_responses_completed; [|exact E]. apply merge_all_item_completed.
Qed.

End Completed.

Lemma keeps_labels_update satid u st :
  u !! "category" = None -> keeps_labels st (tracked_update satid u st).1.
Proof.
  intros Hu [Hwf Hl].
  destruct (tracked_get (tracked st) satid) as [l|] eqn:E.
  - assert (Hlt : (l < length (heap st))%nat).
    { destruct Hwf as [Hr _]. rewrite Forall_forall in Hr.
      exact (Hr _ (tracked_get_elem _ _ _ E)). }
    apply lookup_lt_is_Some in Hlt as [old Ho].
    assert (He : entry_of st satid = Some old) by (unfold entry_of; now rewrite E).
    destruct (tracked_update_spec st satid u old Hwf He)
      as (st' & E' & Hwf' & _ & _ & _ & He' & Ho').
    rewrite E'. cbn [fst]. split; [exact Hwf'|]. intros k d Hd.
    destruct (decide (k = satid)) as [->|Hne].
    + rewrite He' in Hd. injection Hd as <-.
      rewrite (labelled_same_category old); [eauto|].
      now apply lookup_union_r.
    + rewrite Ho' in Hd by exact Hne. eauto.
  - unfold tracked_update. rewrite E. now split.
Qed.

Lemma keeps_labels_setitem l k v st :
  k <> "category" -> keeps_labels st (dict_setitem l k v st).1.
Proof.
  intros Hk [Hwf Hl]. unfold dict_setitem. cbn [fst]. split.
  - destruct Hwf as [Hr Hn]. split; [|exact Hn]. cbn. now rewrite length_alter.
  - intros satid d. unfold entry_of. cbn.
    destruct (tracked_get (tracked st) satid) as [l'|] eqn:E; [|discriminate]. cbn.
    destruct (decide (l = l')) as [->|Hne].
    + rewrite list_lookup_alter_eq.
      destruct (heap st !! l') as [old|] eqn:Eo; [|discriminate].
      cbn. intros [= <-]. rewrite (labelled_same_category old).
      * apply (Hl satid). unfold entry_of. rewrite E. exact Eo.
      * apply lookup_insert_ne. congruence.
    + rewrite list_lookup_alter_ne by exact Hne.
      intros H. apply (Hl satid). unfold entry_of. rewrite E. exact H.
Qed.

Lemma demo_entries_labelled now :
  Forall (fun p : Z * dict => labelled p.2 = true) (demo_entries now).
Proof.
  unfold demo_entries. apply Forall_app.
  split; apply Forall_fmap, Forall_forall; intros i _; reflexivity.
Qed.

Lemma keeps_labels_ensure_demo now st : keeps_labels st (_ensure_demo_catalog now st).1.
Proof.
  intros [Hwf Hl]. split; [now apply ensure_demo_wf|].
  destruct (tracked st) eqn:E.
  - rewrite ensure_demo_on_empty by exact E. cbn [fst].
    intros satid d. unfold entry_of. cbn [with_tracked tracked heap].
    match goal with |- context [tracked_get ?t satid] =>
      destruct (tracked_get t satid) as [l|] eqn:Eg; [|discriminate] end.
    cbn [mbind option_bind].
    apply tracked_get_elem in Eg. apply list_elem_of_lookup in Eg as [i Hi].
    apply lookup_zip_with_Some in Hi as (k' & l' & [= <- <-] & Hk' & Hl').
    apply lookup_seq in Hl' as [-> Hlt].
    rewrite list_lookup_fmap in Hk'.
    destruct (demo_entries now !! i) as [[k0 d0]|] eqn:Ed; [|discriminate].
    rewrite lookup_app_r by lia.
    replace (length (heap st) + i - length (heap st))%nat with i by lia.
    rewrite list_lookup_fmap, Ed. cbn. intros [= <-].
    pose proof (demo_entries_labelled now) as Hd. rewrite Forall_lookup in Hd.
    exact (Hd _ _ Ed).
  - rewrite ensure_demo_on_nonempty by (rewrite E; discriminate). cbn [fst].
    intros satid d. apply Hl.
Qed.

Section CompletedWriters.
Variable rt : runtime.

Lemma run_writer_labelled st w :
  writer_completed rt st w = true -> keeps_labels st (run_writer rt st w).
Proof.
  destruct w as [net now|net now|net now|now|now]; cbn [run_writer]; intros Hc.
  - now apply tracker_pass_completed.
  - now apply load_all_completed.
  - apply (positions_pass_respects rt keeps_labels (fun _ u => u !! "category" = None));
      auto using keeps_labels_refl, keeps_labels_update, keeps_labels_error.
    + apply keeps_labels_trans.
    + intros _ latest now' u Hu.
      destruct (position_updates_fields rt _ _ _ Hu) as [_ Hf].
      apply eq_None_not_Some. rewrite Hf. unfold position_fields.
      rewrite !elem_of_cons, elem_of_nil. intuition discriminate.
  - apply keeps_labels_ensure_demo.
  - apply (demo_step_respects rt keeps_labels); auto using keeps_labels_refl.
    + apply keeps_labels_trans.
    + intros l k f st' Hk. apply keeps_labels_setitem.
      rewrite !elem_of_cons, elem_of_nil in Hk.
      destruct Hk as [->|[->|[->|[]]]]; discriminate.
Qed.

Lemma run_writers_labelled ws st :
  all_completed rt ws st = true -> keeps_labels st (run_writers rt ws st).
Proof.
  unfold run_writers. revert st. induction ws as [|w ws IH]; intros st; cbn [all_completed foldl].
  - intros _. apply keeps_labels_refl.
  - intros H. apply andb_true_iff in H as [H1 H2].
    eapply keeps_labels_trans; [exact (run_writer_labelled st w H1)|exact (IH _ H2)].
Qed.

Lemma labelled_view st :
  catalog_ok st -> (forall satid d, entry_of st satid = Some d -> labelled d = true) ->
  Forall (fun s => labelled s = true) (view (heap st) (snapshot st)).
Proof.
  intros (Hwf & Hk & _) Hl. unfold view, snapshot.
  apply Forall_fmap, Forall_fmap, Forall_forall. intros [k l] Hin. cbn.
  assert (Hg : tracked_get (tracked st) k = Some l).
  { clear -Hk Hin. induction (tracked st) as [|[k' l'] tr IH]; [inversion Hin|].
    cbn in Hk. apply NoDup_cons in Hk as [Hnk Hk]. cbn.
    apply elem_of_cons in Hin as [[= <- <-]|Hin].
    - now rewrite Z.eqb_refl.
    - destruct (Z.eqb_spec k' k) as [->|Hne]; [|now apply IH].
      exfalso. apply Hnk. apply list_elem_of_fmap. now exists (k, l). }
  destruct Hwf as [Hr _]. rewrite Forall_forall in Hr. specialize (Hr _ Hin). cbn in Hr.
  apply lookup_lt_is_Some in Hr as [d Hd]. unfold deref. rewrite Hd. cbn.
  apply (Hl k). unfold entry_of. rewrite Hg. exact Hd.
Qed.

(** X30. As long as no sweep pass and no manual load was cut short by an
    exception, every entry of the catalog is labelled LEO or GEO, and the two
    category counts of every payload add up to its total: the refresh, the
    demo generator and the demo step never touch a label, and a sweep or a
    load that completes labels every entry it made. *)
Theorem completed_writers_label_every_entry ws st stamp p :
  catalog_ok st ->
  (forall satid d, entry_of st satid = Some d -> labelled d = true) ->
  all_completed rt ws st = true ->
  snapshot_payload rt stamp (run_writers rt ws st) = Ok p ->
  (forall satid d, entry_of (run_writers rt ws st) satid = Some d -> labelled d = true)
  /\ (leo (p_counts p) + geo (p_counts p) = total (p_counts p))%nat.
Proof.
  intros Hok Hl Hc Hp.
  destruct (run_writers_labelled ws st Hc) as [_ Hl'].
  { split; [apply Hok|exact Hl]. }
  split; [exact Hl'|].
  pose proof (labelled_view _ (run_writers_ok rt ws st Hok) Hl') as Hv.
  revert Hp. unfold snapshot_payload.
  destruct (find_close_pairs rt _ _) as [pairs|]; [|discriminate].
  cbn. intros [= <-]. cbn.
  rewrite count_category_all by exact Hv.
  unfold view. now rewrite length_fmap.
Qed.

End CompletedWriters.

(** *** The last error through a refresh pass (main.py) *)

Section RefreshError.
Variable rt : runtime.
Variable net : Z -> net_outcome.
Variable now : float.

Lemma update_position_error satid st :
  last_n2yo_error (update_position rt net now satid st).1
  = default (last_n2yo_error st) (error_payload net satid).
Proof.
  unfold update_position, error_payload.
  destruct (net satid) as [|resp]; [reflexivity|].
  destruct resp as [| | | | |l|d]; cbn [has_error_payload];
    try (destruct (position_result rt _ now satid); reflexivity).
  destruct (py_truthy (dict_get d "error")); [reflexivity|].
  destruct (position_result rt _ now satid); reflexivity.
Qed.

Lemma gather_positions_error batch st :
  (last_n2yo_error (gather_positions rt net now batch st).1 = last_n2yo_error st
   /\ Forall (fun k => error_payload net k = None) batch)
  \/ Exists (fun k => error_payload net k
                      = Some (last_n2yo_error (gather_positions rt net now batch st).1))
       batch.
Proof.
  revert st. induction batch as [|k batch IH]; intros st; cbn [gather_positions].
  - left. now split.
  - pose proof (update_position_error k st) as H1.
    destruct (update_position rt net now k st) as [st1 r]. cbn [fst] in H1.
    specialize (IH st1).
    destruct (gather_positions rt net now batch st1) as [st2 rs]. cbn [fst] in *.
    destruct IH as [[He Hn]|Hx]; [|right; now apply Exists_cons_tl].
    destruct (error_payload net k) as [v|] eqn:Ek; cbn in H1.
    + right. apply Exists_cons_hd. congruence.
    + left. split; [congruence|]. now constructor.
Qed.

Lemma apply_results_error results st :
  exists st', for_each apply_result results st = (st', Ok tt)
    /\ last_n2yo_error st' = last_n2yo_error st.
Proof.
  revert st. induction results as [|r results IH]; intros st; cbn [for_each].
  - now exists st.
  - unfold_bind.
    assert (H : exists st1, apply_result r st = (st1, Ok tt)
                  /\ last_n2yo_error st1 = last_n2yo_error st).
    { destruct r as [[satid u]|]; cbn [apply_result]; [|now exists st].
      unfold merge_existing, tracked_mem, tracked_update.
      destruct (tracked_get (tracked st) satid); eexists; split; reflexivity. }
    destruct H as (st1 & -> & H1). destruct (IH st1) as (st2 & -> & H2).
    exists st2. split; [reflexivity|congruence].
Qed.

Lemma position_batches_error sats batch_size starts st :
  (last_n2yo_error (position_batches rt net now sats batch_size starts st).1
   = last_n2yo_error st
   /\ Forall (fun k => error_payload net k = None)
        (i ← starts; take batch_size (drop i sats)))
  \/ Exists (fun k => error_payload net k
                      = Some (last_n2yo_error
                                (position_batches rt net now sats batch_size starts st).1))
       (i ← starts; take batch_size (drop i sats)).
Proof.
  revert st. induction starts as [|i starts IH]; intros st.
  - left. split; [reflexivity|constructor].
  - rewrite bind_cons. cbn [position_batches].
    pose proof (gather_positions_error (take batch_size (drop i sats)) st) as H1.
    destruct (gather_positions rt net now (take batch_size (drop i sats)) st)
      as [st1 results]. cbn [fst] in H1. unfold_bind.
    destruct (apply_results_error results st1) as (st2 & -> & H2).
    specialize (IH st2).
    destruct IH as [[He Hn]|Hx]; [|right; apply Exists_app; now right].
    rewrite He, H2.
    destruct H1 as [[He1 Hn1]|Hx1].
    + left. split; [exact He1|]. apply Forall_app. now split.
    + right. apply Exists_app. now left.
Qed.

Lemma error_payload_truthy k v : error_payload net k = Some v -> py_truthy v = true.
Proof.
  unfold error_payload. destruct (net k) as [|[| | | | |l|d]]; try discriminate.
  destruct (py_truthy (dict_get d "error")) eqn:E; [|discriminate]. now intros [= <-].
Qed.

(** X29. What a refresh pass does to the last-error variable: if no answer
    for the ids it refreshes carries an error payload the variable is as it
    was, whatever it held (a refresh never clears an error); otherwise it
    holds the error payload of the answer for one of those ids, which is
    truthy. *)
Theorem refresh_pass_last_error st :
  ((forall k, k ∈ refresh_ids st -> error_payload net k = None)
   /\ last_n2yo_error (positions_pass rt net now st).1 = last_n2yo_error st)
  \/ (exists k, k ∈ refresh_ids st
        /\ error_payload net k = Some (last_n2yo_error (positions_pass rt net now st).1)
        /\ py_truthy (last_n2yo_error (positions_pass rt net now st).1) = true).
Proof.
  unfold positions_pass, refresh_ids.
  match goal with |- context [position_batches rt net now ?s ?n ?starts st] =>
    destruct (position_batches_error s n starts st) as [[He Hn]|Hx];
    pose proof (batches_cover s n) as Hc
  end.
  - left. split; [|exact He]. intros k Hk. rewrite Forall_forall in Hn.
    apply Hn. apply Hc; [lia|exact Hk].
  - right. apply Exists_exists in Hx as (k & Hk & Hp). exists k.
    split; [apply Hc in Hk; [exact Hk|lia]|]. split; [exact Hp|].
    eapply error_payload_truthy; eauto.
Qed.

End RefreshError.

(** ** Part III. The theorems at concrete inputs *)

Lemma wf_initial_state : wf_state initial_state.
Proof. split; constructor. Qed.

Lemma wf_iss_state : wf_state iss_state.
Proof. apply (bool_decide_unpack _). vm_compute. exact I. Qed.

(** The claim C1 fails as worded: A and B both have coordinates and lie
    within the threshold, yet the screen of the three objects returns no
    pair; it raises on the pair (A, FAR). *)
Lemma find_close_pairs_drops_close_pair :
  close_pair_and_far !! 0%nat = Some (sat_at "A" 0 0 550)
  /\ close_pair_and_far !! 1%nat = Some (sat_at "B" 0 0.0078125 550)
  /\ coords_absent (sat_at "A" 0 0 550) = false
  /\ coords_absent (sat_at "B" 0 0.0078125 550) = false
  /\ (exists d, pair_distance sample_runtime (sat_at "A" 0 0 550) (sat_at "B" 0 0.0078125 550)
                = Ok d
                /\ (d <=? PROXIMITY_THRESHOLD_KM)%float = true)
  /\ find_close_pairs sample_runtime close_pair_and_far PROXIMITY_THRESHOLD_KM
     = Raise OverflowError.
Proof.
  split; [reflexivity|]. split; [reflexivity|]. split; [reflexivity|].
  split; [reflexivity|]. split; [|vm_compute; reflexivity].
  destruct (pair_distance sample_runtime (sat_at "A" 0 0 550) (sat_at "B" 0 0.0078125 550))
    as [d|e] eqn:E.
  - exists d. split; [reflexivity|]. vm_compute in E. injection E as <-. vm_compute. reflexivity.
  - exfalso. vm_compute in E. discriminate E.
Qed.

(** C1 at the sample list, where every distance is defined (A and B are
    emitted, the object without latitude and the far object are not), and at
    the list with the object out of range. *)
Lemma find_close_pairs_exact_witness :
  distances_defined sample_runtime sample_sat_list = true
  /\ find_close_pairs sample_runtime sample_sat_list PROXIMITY_THRESHOLD_KM
     = Ok (close_pairs_spec sample_runtime sample_sat_list PROXIMITY_THRESHOLD_KM)
  /\ (alert_a <$> (alert_of <$> close_pairs_spec sample_runtime sample_sat_list
                                  PROXIMITY_THRESHOLD_KM)) = [PStr "A"]
  /\ distances_defined sample_runtime close_pair_and_far = false
  /\ exists e, find_close_pairs sample_runtime close_pair_and_far PROXIMITY_THRESHOLD_KM
               = Raise e.
Proof.
  split; [reflexivity|]. split; [|split; [reflexivity|split; [reflexivity|]]].
  - apply (find_close_pairs_exact sample_runtime sample_sat_list PROXIMITY_THRESHOLD_KM).
    reflexivity.
  - destruct (find_close_pairs_exact sample_runtime close_pair_and_far PROXIMITY_THRESHOLD_KM)
      as (_ & _ & H & _).
    destruct (H eq_refl) as (e & _ & _ & _ & _ & He & _). now exists e.
Defined.

(** C3 at two points of the sample list. *)
Lemma distance_symmetric_and_zero_witness :
  valid_point sample_runtime (PFloat 0) (PFloat 0) (PFloat 550) = true
  /\ valid_point sample_runtime (PFloat 0) (PFloat 90) (PFloat 550) = true
  /\ euclidean_km_from_latlonalt sample_runtime
       (PFloat 0) (PFloat 0) (PFloat 550) (PFloat 0) (PFloat 90) (PFloat 550)
     = euclidean_km_from_latlonalt sample_runtime
         (PFloat 0) (PFloat 90) (PFloat 550) (PFloat 0) (PFloat 0) (PFloat 550).
Proof.
  split; [reflexivity|]. split; [reflexivity|].
  apply (distance_symmetric_and_zero sample_runtime
           (PFloat 0) (PFloat 0) (PFloat 550) (PFloat 0) (PFloat 90) (PFloat 550));
    reflexivity.
Defined.

Lemma iss_fields_disjoint k :
  k <> "last_update" ->
  iss_sweep_fields !! k = None \/ iss_position_fields !! k = None.
Proof.
  intros Hk. unfold iss_sweep_fields, iss_position_fields. simpl.
  destruct (decide (k = "satlat")) as [->|]; [left; reflexivity|].
  destruct (decide (k = "satlng")) as [->|]; [left; reflexivity|].
  destruct (decide (k = "satalt")) as [->|]; [left; reflexivity|].
  right. rewrite !lookup_insert_ne by congruence. apply lookup_empty.
Defined.

(** C2 at the empty catalog: a sweep merge of the ISS, then its position. *)
Lemma merge_twice_union_witness :
  wf_state initial_state
  /\ (forall k, k <> "last_update" ->
        iss_sweep_fields !! k = None \/ iss_position_fields !! k = None)
  /\ iss_position_fields !! "last_update" = Some (PFloat 160)
  /\ exists st1 st2 e,
       merge 25544 iss_sweep_fields initial_state = (st1, Ok tt)
       /\ merge 25544 iss_position_fields st1 = (st2, Ok tt)
       /\ entry_of st2 25544 = Some e
       /\ e = iss_position_fields ∪ iss_sweep_fields.
Proof.
  split; [exact wf_initial_state|]. split; [exact iss_fields_disjoint|].
  split; [reflexivity|].
  destruct (merge_twice_union initial_state 25544 iss_sweep_fields iss_position_fields 160
              wf_initial_state iss_fields_disjoint eq_refl)
    as (st1 & st2 & e & E1 & E2 & _ & He & _ & _ & _ & Hnew).
  exists st1, st2, e. split; [exact E1|]. split; [exact E2|]. split; [exact He|].
  apply Hnew. reflexivity.
Defined.

(** The claim C7 fails as worded: the ISS entry holds a latitude and an
    altitude; a refresh whose first position carries neither replaces them
    by [None] and [0.0], while the name stays. *)
Lemma refresh_erases_known_latitude :
  entry_field iss_refreshed 25544 "satlat" = Some (PFloat 10)
  /\ entry_field iss_refreshed 25544 "satalt" = Some (PFloat 400)
  /\ (positions_pass sample_runtime net_without_latitude 220 iss_refreshed).2 = Ok tt
  /\ entry_field (positions_pass sample_runtime net_without_latitude 220 iss_refreshed).1
       25544 "satlat" = Some PNone
  /\ entry_field (positions_pass sample_runtime net_without_latitude 220 iss_refreshed).1
       25544 "satalt" = Some (PFloat 0)
  /\ entry_field (positions_pass sample_runtime net_without_latitude 220 iss_refreshed).1
       25544 "satlng" = Some (PFloat 21)
  /\ entry_field (positions_pass sample_runtime net_without_latitude 220 iss_refreshed).1
       25544 "satname" = Some (PStr "ISS").
Proof. repeat split; vm_compute; reflexivity. Qed.

(** The amended C7 at the ISS: the first of the two reported positions is
    applied. *)
Lemma refresh_updates_position_only_witness :
  wf_state iss_state
  /\ entry_of iss_state 25544 = Some iss_sweep_fields
  /\ update_position sample_runtime net_iss 160 25544 iss_state
     = (iss_state, Some (25544, iss_position_fields))
  /\ exists st2 new,
       apply_result (Some (25544, iss_position_fields)) iss_state = (st2, Ok tt)
       /\ entry_of st2 25544 = Some new
       /\ new !! "satlat" = Some (PFloat 10)
       /\ new !! "satname" = iss_sweep_fields !! "satname"
       /\ new !! "category" = iss_sweep_fields !! "category".
Proof.
  split; [exact wf_iss_state|]. split; [reflexivity|]. split; [reflexivity|].
  destruct (refresh_updates_position_only sample_runtime net_iss 160 25544 iss_state
              iss_state 25544 iss_position_fields iss_sweep_fields
              wf_iss_state eq_refl eq_refl)
    as (_ & _ & _ & _ & _ & st2 & new & E & He & Hv & _ & Hn & Hc & _).
  exists st2, new. split; [exact E|]. split; [exact He|].
  split; [|split; [exact Hn|exact Hc]].
  rewrite (Hv "satlat") by (unfold position_fields; repeat constructor). reflexivity.
Defined.

(** C8 with three subscribers, the send to the second failing. *)
Lemma broadcast_failure_isolated_witness :
  snapshot_payload sample_runtime "t" three_clients = Ok three_clients_payload
  /\ (1%nat, three_clients_payload)
       ∈ (broadcast_tick sample_runtime send_fails_for_2 "t" three_clients).2
  /\ (3%nat, three_clients_payload)
       ∈ (broadcast_tick sample_runtime send_fails_for_2 "t" three_clients).2
  /\ 2%nat ∉ clients (broadcast_tick sample_runtime send_fails_for_2 "t" three_clients).1.
Proof.
  assert (E : snapshot_payload sample_runtime "t" three_clients = Ok three_clients_payload)
    by reflexivity.
  split; [exact E|].
  destruct (broadcast_failure_isolated sample_runtime send_fails_for_2 "t" three_clients
              three_clients_payload E)
    as (Hd & _ & _ & _ & Hf).
  assert (H1 : 1%nat ∈ clients three_clients)
    by (apply (bool_decide_unpack _); vm_compute; exact I).
  assert (H2 : 2%nat ∈ clients three_clients)
    by (apply (bool_decide_unpack _); vm_compute; exact I).
  assert (H3 : 3%nat ∈ clients three_clients)
    by (apply (bool_decide_unpack _); vm_compute; exact I).
  split; [apply Hd; [exact H1|reflexivity]|].
  split; [apply Hd; [exact H3|reflexivity]|].
  apply Hf; [exact H2|reflexivity].
Defined.

(** C4 as stated fails: in a pass whose first GEO answer holds a record
    without id between two complete records, only the record before it is
    merged. The complete record after it, the record of the next region's
    answer and the record of the unfiltered answers are not in the catalog
    when the pass ends. *)
Lemma missing_id_drops_later_records :
  (tracker_pass sample_runtime net_missing_id clock initial_state).2 = Raise KeyError
  /\ (tracked after_missing_id).*1 = [1]
  /\ entry_of after_missing_id 2 = None
  /\ entry_of after_missing_id 3 = None
  /\ entry_of after_missing_id 4 = None.
Proof. repeat split; reflexivity. Qed.

(** The amended C4 at the same answer: the record without id ends the loop
    of either family, its altitude reading [0.0]. At 3000 km the record
    without id is passed over in the unfiltered family and the records
    around it are merged. *)
Lemma missing_id_stops_the_pass_witness :
  py_truthy (dict_get answer_missing_id "error") = false
  /\ answer_missing_id !! "above"
     = Some (PList ([sample_record 1] ++ PDict (list_to_map [("satname", PStr "NOID")])
                      :: [sample_record 2]))
  /\ process_responses (merge_geo_item sample_runtime clock)
       [RVal (PDict answer_missing_id); RVal (response_above [sample_record 3])]
       initial_state
     = stopped_after (merge_geo_item sample_runtime clock) [sample_record 1] KeyError
         initial_state
  /\ process_responses (merge_all_item sample_runtime clock)
       [RVal (PDict answer_missing_id); RVal (response_above [sample_record 3])]
       initial_state
     = stopped_after (merge_all_item sample_runtime clock) [sample_record 1] KeyError
         initial_state
  /\ process_responses (merge_all_item sample_runtime clock)
       [RVal (PDict answer_high_without_id)] initial_state
     = process_responses (merge_all_item sample_runtime clock)
         [RVal (PDict (<["above" := PList ([sample_record 1] ++ [sample_record 2])]>
                         answer_high_without_id))] initial_state
  /\ (process_responses (merge_all_item sample_runtime clock)
        [RVal (PDict answer_high_without_id)] initial_state).2 = Ok tt
  /\ (tracked (process_responses (merge_all_item sample_runtime clock)
                 [RVal (PDict answer_high_without_id)] initial_state).1).*1 = [1; 2].
Proof.
  split; [reflexivity|]. split; [reflexivity|].
  destruct (missing_id_stops_the_pass sample_runtime clock answer_missing_id
              (list_to_map [("satname", PStr "NOID")]) [sample_record 1] [sample_record 2]
              [RVal (response_above [sample_record 3])] initial_state
              eq_refl eq_refl eq_refl) as (H1 & H2 & _).
  split; [exact H1|]. split; [exact H2|].
  destruct (missing_id_stops_the_pass sample_runtime clock answer_high_without_id
              (list_to_map [("satname", PStr "HIGH"); ("satalt", PFloat 3000)])
              [sample_record 1] [sample_record 2] [] initial_state
              eq_refl eq_refl eq_refl) as (_ & H3 & _).
  split; [exact H3|]. split; vm_compute; reflexivity.
Defined.

(** C5 at a pass whose first answer is the rate-limit error: the answer is
    recognised (the GEO loop breaks on it), yet all 12 fetches of the pass
    were issued, 8 of them after that answer had come back; the unfiltered
    answers are still processed. A second pass issues its 12 fetches again. *)
Theorem rate_limit_does_not_stop_fetches :
  (check_error rate_limit_answer initial_state).2 = Ok Break
  /\ net_rate_limited FetchGeo (0, 0)%float = NetReturns rate_limit_answer
  /\ (tracker_pass sample_runtime net_rate_limited clock initial_state).1.2
     = two_group_schedule
  /\ count_issues two_group_schedule = 12%nat
  /\ head (after_first_done two_group_schedule) = Some (EvDone FetchGeo (0, 120)%float)
  /\ count_issues (after_first_done two_group_schedule) = 8%nat
  /\ (tracked after_rate_limit).*1 = [4]
  /\ last_n2yo_error after_rate_limit
     = PStr "You have exceeded the number of transactions allowed per hour"
  /\ (tracker_loop sample_runtime
        [(net_rate_limited, clock); (net_rate_limited, clock)] initial_state).2
     = [two_group_schedule; two_group_schedule].
Proof. repeat split; reflexivity. Qed.

(** C6 as stated fails: the snapshot taken of the catalog holding the ISS
    lists the reference 0; read before, that entry has no latitude and the
    timestamp 100; read after a refresh merge it has latitude 10 and the
    timestamp 160, and after a demo step it has the timestamp 160 as well. *)
Lemma snapshot_entry_changes_after_merge :
  snapshot iss_state = [0%nat]
  /\ view (heap iss_state) (snapshot iss_state) = [iss_sweep_fields]
  /\ view (heap iss_refreshed) (snapshot iss_state)
     = [iss_position_fields ∪ iss_sweep_fields]
  /\ iss_sweep_fields !! "satlat" = None
  /\ (iss_position_fields ∪ iss_sweep_fields) !! "satlat" = Some (PFloat 10)
  /\ deref (heap iss_state) 0 !! "last_update" = Some (PFloat 100)
  /\ deref (heap iss_stepped) 0 !! "last_update" = Some (PFloat 160).
Proof. repeat split; reflexivity. Qed.

(** The amended C6 at the catalog holding the ISS. *)
Lemma snapshot_shares_entries_witness :
  wf_state iss_state
  /\ snapshot iss_state
     `prefix_of` snapshot (run_ops sample_runtime
                             [OpMerge 7 iss_position_fields; OpDemoStep 160] iss_state).
Proof.
  split; [exact wf_iss_state|].
  apply (snapshot_shares_entries sample_runtime
           [OpMerge 7 iss_position_fields; OpDemoStep 160] iss_state wf_iss_state).
Defined.

(** C10 at a GEO answer whose only record has a null altitude: the entry is
    created, the conversion of the altitude raises before the fields are
    written, and the empty entry stays. The next payload counts one object,
    no LEO and no GEO. *)
Theorem empty_entry_breaks_category_counts :
  (tracker_pass sample_runtime net_null_altitude clock initial_state).2 = Raise TypeError
  /\ view (heap after_null_altitude) (snapshot after_null_altitude) = [∅]
  /\ snapshot_payload sample_runtime "t" after_null_altitude
     = Ok {| ts := "t";
             sats := [0%nat];
             p_counts := {| total := 1; leo := 0; geo := 0; alerts := 0 |};
             p_alerts := [] |}.
Proof. repeat split; reflexivity. Qed.

(** The counts of the payload of the three-subscriber state. *)
Lemma snapshot_counts_witness :
  snapshot_payload sample_runtime "t" three_clients = Ok three_clients_payload
  /\ total (p_counts three_clients_payload) = length (sats three_clients_payload)
  /\ alerts (p_counts three_clients_payload) = length (p_alerts three_clients_payload).
Proof.
  split; [reflexivity|].
  destruct (snapshot_counts sample_runtime "t" three_clients three_clients_payload eq_refl)
    as (Ht & Ha & _).
  now split.
Defined.

(** A refresh pass over the catalog holding the ISS. *)
Lemma positions_pass_frame_witness :
  wf_state iss_state
  /\ exists st', positions_pass sample_runtime net_iss 160 iss_state = (st', Ok tt)
                 /\ refresh_frame iss_state st'.
Proof.
  split; [exact wf_iss_state|].
  exact (positions_pass_frame sample_runtime net_iss 160 iss_state wf_iss_state).
Defined.

(** A complete record of a GEO answer, merged into the empty catalog: the
    entry is the one of the record's id, 1. *)
Lemma completed_sweep_merge_labels_witness :
  wf_state initial_state
  /\ merge_geo_item sample_runtime clock (sample_record 1) initial_state
     = ((merge_geo_item sample_runtime clock (sample_record 1) initial_state).1, Ok tt)
  /\ exists e,
       entry_of (merge_geo_item sample_runtime clock (sample_record 1) initial_state).1 1
       = Some e
       /\ e !! "category" = Some (PStr "GEO").
Proof.
  split; [exact wf_initial_state|]. split; [reflexivity|].
  destruct (completed_sweep_merge_labels sample_runtime clock (sample_record 1)
              initial_state _ wf_initial_state eq_refl)
    as (v & satid & e & Hv & Hn & He & _ & Hc & _).
  vm_compute in Hv. injection Hv as <-. cbn [py_int] in Hn. injection Hn as <-.
  now exists e.
Defined.

(** A complete record of an unfiltered answer at 300 km, merged into the
    empty catalog. *)
Lemma completed_unfiltered_merge_labels_witness :
  wf_state initial_state
  /\ item_alt sample_runtime (sample_record 4) = Ok 300%float
  /\ merge_all_item sample_runtime clock (sample_record 4) initial_state
     = ((merge_all_item sample_runtime clock (sample_record 4) initial_state).1, Ok tt)
  /\ exists satid e,
       entry_of (merge_all_item sample_runtime clock (sample_record 4) initial_state).1 satid
       = Some e
       /\ e !! "category" = Some (PStr "LEO").
Proof.
  split; [exact wf_initial_state|]. split; [reflexivity|]. split; [reflexivity|].
  destruct (completed_unfiltered_merge_labels sample_runtime clock (sample_record 4)
              300%float initial_state _ wf_initial_state eq_refl eq_refl)
    as (satid & e & He & _ & Hc & _).
  now exists satid, e.
Defined.

Lemma catalog_ok_initial : catalog_ok initial_state.
Proof. split; [apply wf_initial_state|]. split; constructor. Qed.

Lemma catalog_ok_far_away : catalog_ok far_away_state.
Proof. apply run_writers_ok, catalog_ok_initial. Qed.

Lemma wf_three_clients : wf_state three_clients.
Proof. apply (bool_decide_unpack _). vm_compute. exact I. Qed.

(** X10 at the sample list, for the thresholds 5 and 10. *)
Lemma find_close_pairs_threshold_monotone_witness :
  (5 <=? 10)%float = true
  /\ is_ok (find_close_pairs sample_runtime sample_sat_list 5) = true
  /\ match find_close_pairs sample_runtime sample_sat_list 5 with
     | Ok p1 =>
         exists p2, find_close_pairs sample_runtime sample_sat_list 10 = Ok p2
                    /\ p1 `sublist_of` p2
     | Raise e => find_close_pairs sample_runtime sample_sat_list 10 = Raise e
     end.
Proof.
  split; [reflexivity|]. split; [reflexivity|].
  apply (find_close_pairs_threshold_monotone sample_runtime sample_sat_list 5 10).
  reflexivity.
Defined.

(** X11 at a list of one located object and one without latitude, whose
    longitude is not even a number. *)
Lemma find_close_pairs_needs_two_located_witness :
  (length (filter (fun s => coords_absent s = false) lonely_sat_list) <= 1)%nat
  /\ find_close_pairs sample_runtime lonely_sat_list PROXIMITY_THRESHOLD_KM = Ok [].
Proof.
  assert (H : (length (filter (fun s => coords_absent s = false) lonely_sat_list) <= 1)%nat)
    by (vm_compute; lia).
  split; [exact H|].
  exact (find_close_pairs_needs_two_located sample_runtime lonely_sat_list
           PROXIMITY_THRESHOLD_KM H).
Defined.

(** X12 at two points of the sample list. *)
Lemma distance_is_never_negative_witness :
  exists d,
    euclidean_km_from_latlonalt sample_runtime
      (PFloat 0) (PFloat 0) (PFloat 550) (PFloat 0) (PFloat 90) (PFloat 550) = Ok d
    /\ (d <? 0)%float = false.
Proof.
  eexists. split; [reflexivity|].
  apply (distance_is_never_negative sample_runtime
           (PFloat 0) (PFloat 0) (PFloat 550) (PFloat 0) (PFloat 90) (PFloat 550)).
  reflexivity.
Defined.

(** X13 at the catalog of two close objects: one alert. *)
Lemma alert_distances_in_range_witness :
  exists p,
    snapshot_payload sample_runtime "t" close_pair_state = Ok p
    /\ (alert_a <$> p_alerts p) = [PStr "A"]
    /\ Forall (fun al => (0 <=? dist_km al)%float = true
                         /\ (dist_km al <=? PROXIMITY_THRESHOLD_KM)%float = true)
              (p_alerts p).
Proof.
  eexists. split; [reflexivity|]. split; [reflexivity|].
  eapply Forall_impl;
    [apply (alert_distances_in_range sample_runtime "t" close_pair_state); reflexivity|].
  cbn beta. intros al (H0 & H5 & _). now split.
Defined.

Lemma wf_iss_refreshed : wf_state iss_refreshed.
Proof. apply (bool_decide_unpack _). vm_compute. exact I. Qed.

(** X14 at the catalog that holds the ISS with its position, and two passes:
    the first merges a record that carries only the id of the ISS, the second
    is ended by an exception. The entry keeps its keys; its known latitude
    is overwritten by [None]. *)
Lemma sweeps_only_add_witness :
  wf_state iss_refreshed
  /\ entry_field iss_refreshed 25544 "satlat" = Some (PFloat 10)
  /\ entry_field (tracker_loop sample_runtime
                    [(net_bare_iss, 300%float); (net_missing_id, clock)] iss_refreshed).1
       25544 "satlat" = Some PNone
  /\ wf_state (tracker_loop sample_runtime
                 [(net_bare_iss, 300%float); (net_missing_id, clock)] iss_refreshed).1
  /\ clients (tracker_loop sample_runtime
                [(net_bare_iss, 300%float); (net_missing_id, clock)] iss_refreshed).1
     = clients iss_refreshed
  /\ exists old new,
       entry_of iss_refreshed 25544 = Some old
       /\ entry_of (tracker_loop sample_runtime
                      [(net_bare_iss, 300%float); (net_missing_id, clock)] iss_refreshed).1
            25544 = Some new
       /\ forall k, is_Some (old !! k) -> is_Some (new !! k).
Proof.
  split; [exact wf_iss_refreshed|]. split; [vm_compute; reflexivity|].
  split; [vm_compute; reflexivity|].
  destruct (sweeps_only_add sample_runtime
              [(net_bare_iss, 300%float); (net_missing_id, clock)] iss_refreshed
              wf_iss_refreshed) as (Hwf & _ & _ & Hc & He).
  split; [exact Hwf|]. split; [exact Hc|].
  destruct (entry_of iss_refreshed 25544) as [old|] eqn:Eo.
  - destruct (He 25544 old Eo) as (new & Hn & Hk & _). now exists old, new.
  - exfalso. vm_compute in Eo. discriminate Eo.
Defined.

(** X15 at the rate-limit answer: the answer after it is not looked at. *)
Lemma sweep_error_answer_witness :
  rate_limit_dict !! "error" = Some (PStr rate_limit_message)
  /\ py_truthy (PStr rate_limit_message) = true
  /\ process_responses (merge_geo_item sample_runtime clock)
       [RVal (PDict rate_limit_dict); RVal (response_above [sample_record 3])]
       initial_state
     = (with_error (PStr rate_limit_message) initial_state, Ok tt).
Proof.
  split; [reflexivity|]. split; [reflexivity|].
  exact (sweep_error_answer (merge_geo_item sample_runtime clock) rate_limit_dict
           (PStr rate_limit_message) [RVal (response_above [sample_record 3])]
           initial_state eq_refl eq_refl).
Defined.

Lemma net_plain_no_error k s : has_error_payload (fetch net_plain k s) = false.
Proof. reflexivity. Qed.

(** X16 at a network whose every answer holds one complete record, from a
    state that holds an error message. *)
Lemma sweep_matches_load_without_errors_witness :
  (forall k s, has_error_payload (fetch net_plain k s) = false)
  /\ last_n2yo_error
       (tracker_pass sample_runtime net_plain clock
          (with_error (PStr rate_limit_message) initial_state)).1.1 = PNone.
Proof.
  split; [exact net_plain_no_error|].
  destruct (sweep_matches_load_without_errors sample_runtime net_plain clock
              (with_error (PStr rate_limit_message) initial_state) net_plain_no_error)
    as (_ & H & _).
  exact H.
Defined.

(** X18 at the catalog that holds the ISS with its position, and a load
    whose answers hold a record that carries only the id of the ISS: no entry
    is added, the entry is relabelled GEO and its known latitude is
    overwritten by [None]. *)
Lemma load_all_reply_counts_witness :
  wf_state iss_refreshed
  /\ (load_all_satellites sample_runtime false true net_bare_iss 300 iss_refreshed).2
     = LoadDone 1 0 0 1
  /\ entry_field iss_refreshed 25544 "satlat" = Some (PFloat 10)
  /\ entry_field
       (load_all_satellites sample_runtime false true net_bare_iss 300 iss_refreshed).1.1
       25544 "satlat" = Some PNone
  /\ catalog_grows iss_refreshed
       (load_all_satellites sample_runtime false true net_bare_iss 300 iss_refreshed).1.1.
Proof.
  split; [exact wf_iss_refreshed|]. split; [vm_compute; reflexivity|].
  split; [vm_compute; reflexivity|]. split; [vm_compute; reflexivity|].
  destruct (load_all_reply_counts sample_runtime net_bare_iss 300 iss_refreshed
              wf_iss_refreshed) as [H _].
  exact H.
Defined.

(** X20 at the catalog holding the ISS. *)
Lemma positions_pass_refreshes_every_entry_witness :
  wf_state iss_state
  /\ entry_of iss_state 25544 = Some iss_sweep_fields
  /\ refreshed_entry (position_answer sample_runtime net_iss 160) (refresh_ids iss_state)
       25544 iss_sweep_fields
     = iss_position_fields ∪ iss_sweep_fields
  /\ exists st', positions_pass sample_runtime net_iss 160 iss_state = (st', Ok tt)
       /\ entry_of st' 25544
          = Some (refreshed_entry (position_answer sample_runtime net_iss 160)
                    (refresh_ids iss_state) 25544 iss_sweep_fields).
Proof.
  split; [exact wf_iss_state|]. split; [reflexivity|]. split; [reflexivity|].
  destruct (positions_pass_refreshes_every_entry sample_runtime net_iss 160 iss_state
              25544 iss_sweep_fields wf_iss_state eq_refl) as [_ H].
  exact H.
Defined.

(** X21 from the empty catalog, through a sweep ended by an exception, a
    manual load, a refresh pass and a demo step. *)
Lemma writers_keep_the_catalog_typed_witness :
  catalog_ok initial_state
  /\ catalog_ok (run_writers sample_runtime
                   [ WSweep net_null_altitude clock; WLoad net_plain clock;
                     WRefresh net_iss 160; WEnsureDemo 170; WDemoStep 180 ]
                   initial_state).
Proof.
  split; [exact catalog_ok_initial|].
  apply (writers_keep_the_catalog_typed sample_runtime
           [ WSweep net_null_altitude clock; WLoad net_plain clock;
             WRefresh net_iss 160; WEnsureDemo 170; WDemoStep 180 ]
           initial_state catalog_ok_initial).
Defined.

(** X22 at the catalog that holds a near object and the far one: the
    square of the difference overflows. *)
Lemma typed_catalog_screen_errors_witness :
  catalog_ok far_away_state
  /\ snapshot_payload sample_runtime "t" far_away_state = Raise OverflowError
  /\ (OverflowError = ValueError \/ OverflowError = OverflowError).
Proof.
  split; [exact catalog_ok_far_away|]. split; [reflexivity|].
  exact (typed_catalog_screen_errors sample_runtime "t" far_away_state OverflowError
           catalog_ok_far_away eq_refl).
Defined.

(** X23 at the same catalog with three subscribers. *)
Lemma broadcast_silenced_by_one_bad_pair_witness :
  exists a b,
    view (heap far_away_state) (snapshot far_away_state) !! 0%nat = Some a
    /\ view (heap far_away_state) (snapshot far_away_state) !! 1%nat = Some b
    /\ coords_absent a = false /\ coords_absent b = false
    /\ pair_distance sample_runtime a b = Raise OverflowError
    /\ broadcast_tick sample_runtime send_fails_for_2 "t"
         (with_clients {[ 1%nat; 2%nat; 3%nat ]} far_away_state)
       = (with_clients {[ 1%nat; 2%nat; 3%nat ]} far_away_state, []).
Proof.
  eexists _, _. split; [reflexivity|]. split; [reflexivity|].
  split; [reflexivity|]. split; [reflexivity|]. split; [reflexivity|].
  eapply (broadcast_silenced_by_one_bad_pair sample_runtime send_fails_for_2 "t" 0 0
            (with_clients {[ 1%nat; 2%nat; 3%nat ]} far_away_state) 0 1);
    [lia|reflexivity|reflexivity|reflexivity|reflexivity|reflexivity].
Defined.

(** X24 with three subscribers, the send to the second failing in the
    first tick and succeeding in the two that follow. *)
Lemma dropped_subscriber_is_not_retried_witness :
  snapshot_payload sample_runtime "t" three_clients = Ok three_clients_payload
  /\ send_fails_for_2 2%nat three_clients_payload = false
  /\ Forall (fun delivered => forall q, (2%nat, q) ∉ delivered)
       (broadcast_snapshot sample_runtime
          [ ((fun _ _ => true), "u"); ((fun _ _ => true), "v") ]
          (broadcast_tick sample_runtime send_fails_for_2 "t" three_clients).1).2.
Proof.
  split; [reflexivity|]. split; [reflexivity|].
  destruct (dropped_subscriber_is_not_retried sample_runtime send_fails_for_2 "t"
              [ ((fun _ _ => true), "u"); ((fun _ _ => true), "v") ]
              three_clients three_clients_payload 2%nat eq_refl eq_refl)
    as (_ & _ & H & _).
  exact H.
Defined.

(** X25 from the empty catalog, with two steps. *)
Lemma demo_loop_catalog_witness :
  wf_state initial_state
  /\ (tracked (demo_loop sample_runtime 0 [1; 2]%float initial_state).1).*1 = demo_ids.
Proof.
  split; [exact wf_initial_state|].
  destruct (demo_loop_catalog sample_runtime 0 [1; 2]%float initial_state wf_initial_state)
    as (_ & _ & H & _).
  apply H. reflexivity.
Defined.

(** X26 at the catalog holding the ISS. *)
Lemma demo_step_stamps_every_entry_witness :
  wf_state iss_state
  /\ _demo_step sample_runtime 160 iss_state = (iss_stepped, Ok tt)
  /\ entry_of iss_state 25544 = Some iss_sweep_fields
  /\ exists new, entry_of iss_stepped 25544 = Some new
       /\ new !! "last_update" = Some (PFloat 160)
       /\ new !! "satname" = Some (PStr "ISS").
Proof.
  split; [exact wf_iss_state|]. split; [reflexivity|]. split; [reflexivity|].
  destruct (demo_step_stamps_every_entry sample_runtime 160 iss_state iss_stepped
              wf_iss_state eq_refl) as [_ H].
  destruct (H 25544 iss_sweep_fields eq_refl) as (new & He & Hts & _ & _ & Hk).
  exists new. split; [exact He|]. split; [exact Hts|].
  rewrite Hk; [reflexivity|].
  unfold demo_fields. rewrite !not_elem_of_cons. repeat split; try discriminate.
  apply not_elem_of_nil.
Defined.

(** X27 from the empty catalog. *)
Lemma demo_snapshot_counts_witness :
  wf_state initial_state
  /\ tracked initial_state = []
  /\ exists st' p,
       api_snapshot sample_runtime true 0 1 "t" initial_state = (st', Ok p)
       /\ total (p_counts p) = 42%nat
       /\ leo (p_counts p) = 30%nat
       /\ geo (p_counts p) = 12%nat.
Proof.
  split; [exact wf_initial_state|]. split; [reflexivity|].
  destruct (api_snapshot sample_runtime true 0 1 "t" initial_state) as [st' [p|e]] eqn:E.
  - exists st', p. split; [reflexivity|].
    destruct (demo_snapshot_counts sample_runtime 0 1 "t" initial_state st' p
                wf_initial_state eq_refl E) as (_ & Ht & Hl & Hg).
    auto.
  - exfalso. vm_compute in E. discriminate E.
Defined.

(** X28 with three subscribers, the send to the second failing. *)
Lemma health_agrees_with_payload_and_tick_witness :
  snapshot_payload sample_runtime "t" three_clients = Ok three_clients_payload
  /\ h_tracked (health false true three_clients) = 1%nat
  /\ h_clients (health false true
                  (broadcast_tick sample_runtime send_fails_for_2 "t" three_clients).1)
     = length (broadcast_tick sample_runtime send_fails_for_2 "t" three_clients).2.
Proof.
  split; [reflexivity|]. split; [reflexivity|].
  destruct (health_agrees_with_payload_and_tick sample_runtime false true send_fails_for_2
              "t" three_clients three_clients_payload eq_refl) as (_ & H & _).
  exact H.
Defined.

Lemma initial_state_labelled satid d :
  entry_of initial_state satid = Some d -> labelled d = true.
Proof. intros H. discriminate H. Qed.

(** X30 at a load, a sweep, a refresh and a demo step that all complete,
    starting from the empty catalog. *)
Lemma completed_writers_label_every_entry_witness :
  catalog_ok initial_state
  /\ (forall satid d, entry_of initial_state satid = Some d -> labelled d = true)
  /\ all_completed sample_runtime
       [ WLoad net_plain clock; WSweep net_plain clock; WRefresh net_iss 160;
         WDemoStep 180 ] initial_state = true
  /\ exists p,
       snapshot_payload sample_runtime "t"
         (run_writers sample_runtime
            [ WLoad net_plain clock; WSweep net_plain clock; WRefresh net_iss 160;
              WDemoStep 180 ] initial_state) = Ok p
       /\ (leo (p_counts p) + geo (p_counts p) = total (p_counts p))%nat
       /\ total (p_counts p) = 1%nat.
Proof.
  split; [exact catalog_ok_initial|]. split; [exact initial_state_labelled|].
  split; [vm_compute; reflexivity|].
  destruct (snapshot_payload sample_runtime "t"
              (run_writers sample_runtime
                 [ WLoad net_plain clock; WSweep net_plain clock; WRefresh net_iss 160;
                   WDemoStep 180 ] initial_state)) as [p|e] eqn:E.
  - exists p. split; [reflexivity|].
    destruct (completed_writers_label_every_entry sample_runtime
                [ WLoad net_plain clock; WSweep net_plain clock; WRefresh net_iss 160;
                  WDemoStep 180 ] initial_state "t" p catalog_ok_initial
                initial_state_labelled eq_refl E) as [_ Hc].
    split; [exact Hc|]. vm_compute in E. injection E as <-. reflexivity.
  - exfalso. vm_compute in E. discriminate E.
Defined.
